(** * images_utility: the title and author normalisation of [src/epub_info.py]

    A shallow embedding of [format_book_title], [format_book_author] and the
    helpers they call, together with the fragment of Python's [re] module
    that these functions use.

    - A Python [str] is a sequence of Unicode code points: [list Z].
    - A regular expression is a term of [regex]; matching is the
      backtracking search of [re], written as a list of successes in
      priority order (the first element is the match [re] reports).
    - Operations that can raise in Python ([int], [chr], [ord]) return a
      [result]. *)

From Stdlib Require Import String Ascii Decimal ZArith Lia Bool List.
From Stdlib Require DecimalZ.
Import ListNotations.
Local Open Scope Z_scope.

(* ================================================================== *)
(** ** Python strings *)

Definition str := list Z.

(** Source literals are written as UTF-8 text and decoded to code points,
    so that the patterns below show the same glyphs as the Python file. *)
Fixpoint utf8_go (s : string) (need : nat) (acc : Z) : str :=
  match s with
  | EmptyString => []
  | String a s' =>
      let b := Z.of_N (N_of_ascii a) in
      match need with
      | O =>
          if b <? 0x80 then b :: utf8_go s' 0 0
          else if b <? 0xE0 then utf8_go s' 1 (b - 0xC0)
          else if b <? 0xF0 then utf8_go s' 2 (b - 0xE0)
          else utf8_go s' 3 (b - 0xF0)
      | S O => (acc * 64 + (b - 0x80)) :: utf8_go s' 0 0
      | S n => utf8_go s' n (acc * 64 + (b - 0x80))
      end
  end.

Definition py (s : string) : str := utf8_go s 0 0.

(** The single code point of a one-character literal. *)
Definition cp (s : string) : Z := hd 0 (py s).

Definition quote : Z := 34.      (* the double quote *)
Definition newline : Z := 10.

(* ================================================================== *)
(** ** Exceptions *)

Inductive pyexn := ValueError | TypeError.

Inductive result (A : Type) :=
| Ok (a : A)
| Raise (e : pyexn).
Arguments Ok {A} a.
Arguments Raise {A} e.

Definition bind {A B} (x : result A) (f : A -> result B) : result B :=
  match x with
  | Ok a => f a
  | Raise e => Raise e
  end.

Notation "x <- c ;; k" := (bind c (fun x => k))
  (at level 61, c at next level, right associativity).

(* ================================================================== *)
(** ** Unicode character classes used by [re] on [str] patterns *)

Definition in_range (lo hi c : Z) : bool := (lo <=? c) && (c <=? hi).

(** [\s]: the characters for which [str.isspace] holds. *)
Definition is_space (c : Z) : bool :=
  in_range 0x09 0x0D c || in_range 0x1C 0x20 c || (c =? 0x85) || (c =? 0xA0)
  || (c =? 0x1680) || in_range 0x2000 0x200A c || (c =? 0x2028)
  || (c =? 0x2029) || (c =? 0x202F) || (c =? 0x205F) || (c =? 0x3000).

(** [\d]: the decimal digits (category Nd, here as of Unicode 14).  Every
    block is ten code points long and starts at its digit zero. *)
Definition decimal_blocks : list Z :=
  [ 0x30; 0x660; 0x6F0; 0x7C0; 0x966; 0x9E6; 0xA66; 0xAE6; 0xB66; 0xBE6;
    0xC66; 0xCE6; 0xD66; 0xDE6; 0xE50; 0xED0; 0xF20; 0x1040; 0x1090;
    0x17E0; 0x1810; 0x1946; 0x19D0; 0x1A80; 0x1A90; 0x1B50; 0x1BB0;
    0x1C40; 0x1C50; 0xA620; 0xA8D0; 0xA900; 0xA9D0; 0xA9F0; 0xAA50;
    0xABF0; 0xFF10; 0x104A0; 0x10D30; 0x11066; 0x110F0; 0x11136; 0x111D0;
    0x112F0; 0x11450; 0x114D0; 0x11650; 0x116C0; 0x11730; 0x118E0;
    0x11950; 0x11C50; 0x11D50; 0x11DA0; 0x16A60; 0x16AC0; 0x16B50;
    0x1D7CE; 0x1D7D8; 0x1D7E2; 0x1D7EC; 0x1D7F6;
    0x1E140; 0x1E2F0; 0x1E950; 0x1FBF0 ].

Fixpoint decimal_in (blocks : list Z) (c : Z) : option Z :=
  match blocks with
  | [] => None
  | b :: bs => if in_range b (b + 9) c then Some (c - b) else decimal_in bs c
  end.

(** The decimal value of a digit character, [None] for any other one. *)
Definition decimal_value (c : Z) : option Z := decimal_in decimal_blocks c.

Definition is_digit (c : Z) : bool :=
  match decimal_value c with Some _ => true | None => false end.

(* ================================================================== *)
(** ** Regular expressions *)

(** What one pattern element matches against one character. *)
Inductive atom :=
| AChar (c : Z)                     (* a literal character *)
| ASet (ranges : list (Z * Z))      (* [...] : a union of ranges *)
| ADot                              (* .  : anything but a newline *)
| ASpace                            (* \s *)
| ADigit.                           (* \d *)

Definition atom_match (a : atom) (c : Z) : bool :=
  match a with
  | AChar x => c =? x
  | ASet rs => existsb (fun r => in_range (fst r) (snd r) c) rs
  | ADot => negb (c =? newline)
  | ASpace => is_space c
  | ADigit => is_digit c
  end.

(** Repetition is only ever applied to one-character elements in the
    source patterns (apart from [?]), which is what [Star] .. [LazyPlus]
    take. *)
Inductive regex :=
| Eps
| Atom (a : atom)
| Seq (r1 r2 : regex)
| Alt (r1 r2 : regex)
| Opt (r : regex)                   (* r?   greedy *)
| Star (a : atom)                   (* a*   greedy *)
| Plus (a : atom)                   (* a+   greedy *)
| LazyStar (a : atom)               (* a*?  *)
| LazyPlus (a : atom)               (* a+?  *)
| Group (r : regex)                 (* ( r ), the pattern's group 1 *)
| Ahead (r : regex)                 (* (?= r ) *)
| Behind (a : atom).                (* (?<= a ) *)

Declare Scope regex_scope.
Delimit Scope regex_scope with re.
Bind Scope regex_scope with regex.
Infix "~>" := Seq (at level 60, right associativity) : regex_scope.
Infix "<|>" := Alt (at level 70, right associativity) : regex_scope.

(** A literal piece of text. *)
Fixpoint lit (w : str) : regex :=
  match w with
  | [] => Eps
  | c :: w' => Seq (Atom (AChar c)) (lit w')
  end.

(** A single character given as a literal. *)
Definition chr1 (s : string) : atom := AChar (cp s).

(** A range [a-b] of a character class. *)
Definition rng (a b : string) : Z * Z := (cp a, cp b).
Definition one (a : string) : Z * Z := (cp a, cp a).

(** The matcher's position: the character before it (for look-behind), the
    text that is left, and the text captured by group 1 so far. *)
Record mstate := MState {
  ms_prev : option Z;
  ms_rest : str;
  ms_group : option str
}.

(** The states reached by consuming 1, 2, 3, ... characters that all match
    [a], shortest first. *)
Fixpoint run (a : atom) (s : str) (g : option str) : list mstate :=
  match s with
  | [] => []
  | c :: s' =>
      if atom_match a c then MState (Some c) s' g :: run a s' g else []
  end.

(** The text consumed between two positions of the same string. *)
Definition consumed (st st' : mstate) : str :=
  firstn (length (ms_rest st) - length (ms_rest st')) (ms_rest st).

(** All ways of matching [r] at [st], in the order in which the
    backtracking matcher tries them. *)
Fixpoint matches (r : regex) (st : mstate) : list mstate :=
  match r with
  | Eps => [st]
  | Atom a =>
      match ms_rest st with
      | c :: s' =>
          if atom_match a c then [MState (Some c) s' (ms_group st)] else []
      | [] => []
      end
  | Seq r1 r2 => flat_map (matches r2) (matches r1 st)
  | Alt r1 r2 => matches r1 st ++ matches r2 st
  | Opt r1 => matches r1 st ++ [st]
  | Star a => rev (st :: run a (ms_rest st) (ms_group st))
  | Plus a => rev (run a (ms_rest st) (ms_group st))
  | LazyStar a => st :: run a (ms_rest st) (ms_group st)
  | LazyPlus a => run a (ms_rest st) (ms_group st)
  | Group r1 =>
      map (fun st' => MState (ms_prev st') (ms_rest st')
                             (Some (consumed st st')))
          (matches r1 st)
  | Ahead r1 =>
      match matches r1 st with
      | [] => []
      | _ :: _ => [st]
      end
  | Behind a =>
      match ms_prev st with
      | Some c => if atom_match a c then [st] else []
      | None => []
      end
  end.

(** A match object: [group(0)], [group(1)] and the position right after
    the match. *)
Record rmatch := RMatch {
  m_group0 : str;
  m_group1 : option str;
  m_end : mstate
}.

(** The match [re] finds when it tries the pattern at one position. *)
Definition match_at (r : regex) (prev : option Z) (s : str) : option rmatch :=
  match matches r (MState prev s None) with
  | st' :: _ =>
      Some (RMatch (consumed (MState prev s None) st') (ms_group st') st')
  | [] => None
  end.

Definition skip_char (c : Z) (found : str * rmatch) : str * rmatch :=
  (c :: fst found, snd found).

(** The leftmost match at or after the current position, with the text
    that was skipped to reach it. *)
Fixpoint search_from (r : regex) (prev : option Z) (s : str)
  : option (str * rmatch) :=
  match match_at r prev s with
  | Some m => Some ([], m)
  | None =>
      match s with
      | [] => None
      | c :: s' => option_map (skip_char c) (search_from r (Some c) s')
      end
  end.

(** [re.search(r, text)]. *)
Definition re_search (r : regex) (text : str) : option rmatch :=
  option_map snd (search_from r None text).

(** The text cut into the pieces [re.sub] works on: the stretches it
    copies and the matches it replaces, from left to right. *)
Inductive piece :=
| Keep (s : str)
| Hit (m : rmatch).

(** After a match [re.sub] searches again from the end of that match; after
    an empty match it copies one character first.  [fuel] bounds the number
    of searches, and [S (length text)] of them always suffice. *)
Fixpoint pieces_from (fuel : nat) (r : regex) (prev : option Z) (s : str)
  : list piece :=
  match fuel with
  | O => [Keep s]
  | S fuel' =>
      match search_from r prev s with
      | None => [Keep s]
      | Some (before, m) =>
          let e := m_end m in
          match m_group0 m with
          | _ :: _ =>
              Keep before :: Hit m
                :: pieces_from fuel' r (ms_prev e) (ms_rest e)
          | [] =>
              match ms_rest e with
              | [] => [Keep before; Hit m]
              | c :: s' =>
                  Keep before :: Hit m :: Keep [c]
                    :: pieces_from fuel' r (Some c) s'
              end
          end
      end
  end.

Definition pieces (r : regex) (text : str) : list piece :=
  pieces_from (S (length text)) r None text.

(** The replacement of every piece; [repl] is the callable given to
    [re.sub] and may raise. *)
Fixpoint render (repl : rmatch -> result str) (ps : list piece) : result str :=
  match ps with
  | [] => Ok []
  | Keep s :: ps' => (t <- render repl ps' ;; Ok (s ++ t))
  | Hit m :: ps' => (x <- repl m ;; t <- render repl ps' ;; Ok (x ++ t))
  end.

(** [re.sub(r, repl, text)] for a callable [repl]. *)
Definition re_sub_fn (r : regex) (repl : rmatch -> result str) (text : str)
  : result str :=
  render repl (pieces r text).

(** The same with a replacement string; the ones the source passes hold no
    backslash, so the template is the replacement itself. *)
Fixpoint render_str (repl : str) (ps : list piece) : str :=
  match ps with
  | [] => []
  | Keep s :: ps' => s ++ render_str repl ps'
  | Hit _ :: ps' => repl ++ render_str repl ps'
  end.

Definition re_sub (r : regex) (repl : str) (text : str) : str :=
  render_str repl (pieces r text).

(** The number of replacements [re.sub] makes ([re.subn]'s count). *)
Definition hits (ps : list piece) : nat :=
  length (filter (fun p => match p with Hit _ => true | Keep _ => false end) ps).

Definition re_sub_count (r : regex) (text : str) : nat := hits (pieces r text).

(* ================================================================== *)
(** ** Python builtins *)

Definition space : Z := 32.
Definition zero_digit : Z := 48.

Fixpoint digits_value (acc : Z) (s : str) : option Z :=
  match s with
  | [] => Some acc
  | c :: s' =>
      match decimal_value c with
      | Some d => digits_value (acc * 10 + d) s'
      | None => None
      end
  end.

(** [int(s)] on a non-empty run of decimal digits of any script; integers
    are unbounded.  Python also accepts a sign, surrounding blanks and
    underscores; the source only calls [int] on text matched by [\d+], and
    the model raises on everything else. *)
Definition py_int (s : str) : result Z :=
  match s with
  | [] => Raise ValueError
  | _ :: _ =>
      match digits_value 0 s with
      | Some v => Ok v
      | None => Raise ValueError
      end
  end.

(** [int(m.group(1))]: a group that took no part in the match is [None],
    on which [int] raises [TypeError]. *)
Definition py_int_group (g : option str) : result Z :=
  match g with
  | Some s => py_int s
  | None => Raise TypeError
  end.

Fixpoint uint_codes (d : uint) : str :=
  match d with
  | Nil => []
  | D0 d' => 48 :: uint_codes d'
  | D1 d' => 49 :: uint_codes d'
  | D2 d' => 50 :: uint_codes d'
  | D3 d' => 51 :: uint_codes d'
  | D4 d' => 52 :: uint_codes d'
  | D5 d' => 53 :: uint_codes d'
  | D6 d' => 54 :: uint_codes d'
  | D7 d' => 55 :: uint_codes d'
  | D8 d' => 56 :: uint_codes d'
  | D9 d' => 57 :: uint_codes d'
  end.

(** [str(n)] for an integer. *)
Definition py_str (n : Z) : str :=
  match Z.to_int n with
  | Pos d => uint_codes d
  | Neg d => cp "-" :: uint_codes d
  end.

(** [s.zfill(width)]: zeros go after a leading sign. *)
Definition zfill (width : nat) (s : str) : str :=
  let pad := repeat zero_digit (width - length s) in
  match s with
  | c :: s' => if (c =? cp "+") || (c =? cp "-") then c :: pad ++ s' else pad ++ s
  | [] => pad
  end.

(** [chr(n)] raises outside the range of code points. *)
Definition py_chr (n : Z) : result str :=
  if in_range 0 0x10FFFF n then Ok [n] else Raise ValueError.

(** [ord(s)] raises unless [s] is one character long. *)
Definition py_ord (s : str) : result Z :=
  match s with
  | [c] => Ok c
  | _ => Raise TypeError
  end.

Definition py_ord_group (g : option str) : result Z :=
  match g with
  | Some s => py_ord s
  | None => Raise TypeError
  end.

(** ['sep'.join(xs)] for one-character strings. *)
Fixpoint join (sep : str) (xs : list str) : str :=
  match xs with
  | [] => []
  | [x] => x
  | x :: xs' => x ++ sep ++ join sep xs'
  end.

Definition str_eqb (a b : str) : bool :=
  if list_eq_dec Z.eq_dec a b then true else false.

(** [d.get(k)] on a dict, given as its items. *)
Fixpoint dict_get (d : list (str * str)) (k : option str) : option str :=
  match d with
  | [] => None
  | (k', v) :: d' =>
      match k with
      | Some s => if str_eqb s k' then Some v else dict_get d' k
      | None => None
      end
  end.

(** How an f-string shows an optional string. *)
Definition fmt_opt (v : option str) : str :=
  match v with
  | Some s => s
  | None => py "None"
  end.

(** A character class written as the text between the square brackets,
    when that text holds no range and no escape. *)
Definition class_of (chars : str) : atom := ASet (map (fun c => (c, c)) chars).

(* ================================================================== *)
(** ** The source: character rewriting *)

Definition fullwidth_offset : Z := 0xFEE0.

(** [[Ａ-Ｚａ-ｚ０-９]] *)
Definition re_fullwidth_alnum : regex :=
  Atom (ASet [rng "Ａ" "Ｚ"; rng "ａ" "ｚ"; rng "０" "９"]).

(** [lambda mathobj: chr(ord(mathobj.group(0)) + delta)] *)
Definition shift_char (delta : Z) (m : rmatch) : result str :=
  c <- py_ord (m_group0 m) ;; py_chr (c + delta).

Definition replace_fullwidth_alpha_numeral_to_halfwidth (text : str) : result str :=
  re_sub_fn re_fullwidth_alnum (shift_char (- fullwidth_offset)) text.

(** The class of source line 61: the nine characters < > : / \ | ! ? * and
    the double quote. *)
Definition re_unsafe_symbol : regex :=
  Atom (ASet [one "<"; one ">"; one ":"; (quote, quote); one "/"; one "\";
              one "|"; one "!"; one "?"; one "*"]).

Definition replace_unsafe_symbol_to_safe_symbol (text : str) : result str :=
  re_sub_fn re_unsafe_symbol (shift_char fullwidth_offset) text.

(** [[（）]] *)
Definition re_fullwidth_round_bracket : regex :=
  Atom (ASet [one "（"; one "）"]).

Definition replace_fullwidth_round_brackets_to_halfwidth (text : str) : result str :=
  re_sub_fn re_fullwidth_round_bracket (shift_char (- fullwidth_offset)) text.

(* ================================================================== *)
(** ** The source: numbering *)

Definition ws_star : regex := Star ASpace.
Definition ws_plus : regex := Plus ASpace.
Definition ext : regex := lit (py ".epub").
Definition kan : regex := Opt (Atom (chr1 "巻")).

(** [\s*\(\s*(\d+)\s*\)\s+] *)
Definition re_brackets_spaced : regex :=
  (ws_star ~> Atom (chr1 "(") ~> ws_star ~> Group (Plus ADigit) ~> ws_star
   ~> Atom (chr1 ")") ~> ws_plus)%re.

(** [\s*\(\s*\d+\s*\)\s*] *)
Definition re_brackets_any : regex :=
  (ws_star ~> Atom (chr1 "(") ~> ws_star ~> Plus ADigit ~> ws_star
   ~> Atom (chr1 ")") ~> ws_star)%re.

(** [\s*\(\s*(\d+)\s*\)\s*\.epub] *)
Definition re_brackets_ext : regex :=
  (ws_star ~> Atom (chr1 "(") ~> ws_star ~> Group (Plus ADigit) ~> ws_star
   ~> Atom (chr1 ")") ~> ws_star ~> ext)%re.

(** [\s*\(\s*\d+\s*\)\s*(?=\.epub)] *)
Definition re_brackets_before_ext : regex :=
  (ws_star ~> Atom (chr1 "(") ~> ws_star ~> Plus ADigit ~> ws_star
   ~> Atom (chr1 ")") ~> ws_star ~> Ahead ext)%re.

(** [str(int(match_result.group(1))).zfill(2)] *)
Definition padded_number (m : rmatch) : result str :=
  n <- py_int_group (m_group1 m) ;; Ok (zfill 2 (py_str n)).

(** [f' {str(int(match_result.group(1))).zfill(2)} '] *)
Definition spaced_number (m : rmatch) : result str :=
  n <- padded_number m ;; Ok ([space] ++ n ++ [space]).

(** [f' {str(int(match_result.group(1))).zfill(2)}'] *)
Definition tight_number (m : rmatch) : result str :=
  n <- padded_number m ;; Ok ([space] ++ n).

(** The first half of [pad_numeric_only_string_enclosed_in_round_brackets]. *)
Definition pad_brackets_spaced (text : str) : result str :=
  match re_search re_brackets_spaced text with
  | Some m =>
      number <- spaced_number m ;;
      Ok (re_sub re_brackets_any number text)
  | None => Ok text
  end.

(** Its second half. *)
Definition pad_brackets_ext (text : str) : result str :=
  match re_search re_brackets_ext text with
  | Some m =>
      number <- tight_number m ;;
      Ok (re_sub re_brackets_before_ext number text)
  | None => Ok text
  end.

Definition pad_numeric_only_string_enclosed_in_round_brackets (text : str)
  : result str :=
  text <- pad_brackets_spaced text ;;
  pad_brackets_ext text.

Definition kanji_numbers : list str :=
  [py "壱"; py "弐"; py "参"; py "肆"; py "伍"; py "陸"; py "漆"; py "捌";
   py "玖"; py "拾"; py "什"].

(** [dict(zip(kanji_numbers, list(map(str, range(1, 11))) + ['10']))] *)
Definition kanji_mapping : list (str * str) :=
  combine kanji_numbers (map py_str [1; 2; 3; 4; 5; 6; 7; 8; 9; 10] ++ [py "10"]).

(** ['[' + '|'.join(kanji_numbers) + ']']: the bar is a member of the class. *)
Definition kanji_class : atom := class_of (join (py "|") kanji_numbers).

(** [\s*([...])\s*巻?\s*] *)
Definition re_kanji_search : regex :=
  (ws_star ~> Group (Atom kanji_class) ~> ws_star ~> kan ~> ws_star)%re.

(** [\s*[...]\s*巻?\s*] *)
Definition re_kanji_sub : regex :=
  (ws_star ~> Atom kanji_class ~> ws_star ~> kan ~> ws_star)%re.

(** [f' {kanji_mapping.get(match_result.group(1))} '] *)
Definition kanji_number (m : rmatch) : str :=
  [space] ++ fmt_opt (dict_get kanji_mapping (m_group1 m)) ++ [space].

Definition pad_kanji_number (text : str) : str :=
  match re_search re_kanji_search text with
  | Some m => re_sub re_kanji_sub (kanji_number m) text
  | None => text
  end.

(** One of the four blocks of [format_book_title] that pad a symbol number;
    they differ in the range [lo-hi] and in the offset only.
    [\s*([lo-hi])\s*巻?\s*] and [\s*[lo-hi]\s*巻?\s*]. *)
Definition re_symbol_search (lo hi : string) : regex :=
  (ws_star ~> Group (Atom (ASet [rng lo hi])) ~> ws_star ~> kan ~> ws_star)%re.

Definition re_symbol_sub (lo hi : string) : regex :=
  (ws_star ~> Atom (ASet [rng lo hi]) ~> ws_star ~> kan ~> ws_star)%re.

(** [f' {chr(ord(match_result.group(1)) - offset).zfill(2)} '] *)
Definition symbol_number (offset : Z) (m : rmatch) : result str :=
  c <- py_ord_group (m_group1 m) ;;
  d <- py_chr (c - offset) ;;
  Ok ([space] ++ zfill 2 d ++ [space]).

Definition pad_symbol_number (lo hi : string) (offset : Z) (text : str)
  : result str :=
  match re_search (re_symbol_search lo hi) text with
  | Some m =>
      number <- symbol_number offset m ;;
      Ok (re_sub (re_symbol_sub lo hi) number text)
  | None => Ok text
  end.

(** [(?<=\s)?(\d+)(?=巻?\s*\.epub)] *)
Definition re_number_before_ext : regex :=
  (Opt (Behind ASpace) ~> Group (Plus ADigit) ~> Ahead (kan ~> ws_star ~> ext))%re.

(** [\s*\d+巻?\s*(?=\.epub)] *)
Definition re_number_before_ext_sub : regex :=
  (ws_star ~> Plus ADigit ~> kan ~> ws_star ~> Ahead ext)%re.

Definition pad_number_before_ext (text : str) : result str :=
  match re_search re_number_before_ext text with
  | Some m =>
      number <- tight_number m ;;
      Ok (re_sub re_number_before_ext_sub number text)
  | None => Ok text
  end.

(* ================================================================== *)
(** ** The source: [format_book_author] and [format_book_title] *)

Definition format_book_author (book_author : str) : result str :=
  book_author <- replace_fullwidth_alpha_numeral_to_halfwidth book_author ;;
  book_author <- replace_unsafe_symbol_to_safe_symbol book_author ;;
  Ok book_author.

Fixpoint alts (r : regex) (rs : list regex) : regex :=
  match rs with
  | [] => r
  | r' :: rs' => Alt r (alts r' rs')
  end.

(** A word whose last character is optional, as in [無料版?]. *)
Definition word_opt (w : string) (last : string) : regex :=
  Seq (lit (py w)) (Opt (Atom (chr1 last))).

Definition word (w : string) : regex := lit (py w).

(** [付き|増量版|無料版?|出版|誌版|特別版?|特典付き?|漫画付き?] *)
Definition promotion_alts : regex :=
  alts (word "付き")
    [word "増量版"; word_opt "無料" "版"; word "出版"; word "誌版";
     word_opt "特別" "版"; word_opt "特典付" "き"; word_opt "漫画付" "き"].

(** [【.+?(付き|増量版|無料版?|出版|誌版|特別版?|特典付き?|漫画付き?)】] *)
Definition re_promotion : regex :=
  (Atom (chr1 "【") ~> LazyPlus ADot ~> Group promotion_alts
   ~> Atom (chr1 "】"))%re.

(** [BOOKS|Creative|DX版?|GAMES|JOKER|Network|NOVELS|NOVEL 0|Publishing|エイジ|エクストラ|コミック|シリーズ|ス|ノベルズ|ラノベ|限定版|小説|新装版|電子版|特典付き|特別版|文芸|文庫J?|編集部] *)
Definition label_alts : regex :=
  alts (word "BOOKS")
    [word "Creative"; word_opt "DX" "版"; word "GAMES"; word "JOKER";
     word "Network"; word "NOVELS"; word "NOVEL 0"; word "Publishing";
     word "エイジ"; word "エクストラ"; word "コミック"; word "シリーズ";
     word "ス"; word "ノベルズ"; word "ラノベ"; word "限定版";
     word "小説"; word "新装版"; word "電子版"; word "特典付き";
     word "特別版"; word "文芸"; word_opt "文庫" "J"; word "編集部"].

Definition label_open : atom := ASet [one "("; one "＜"; one "〈"].
Definition label_close : atom := ASet [one "〉"; one "＞"; one ")"].

(** [[(＜〈].*?(BOOKS|...|編集部)[〉＞)]] *)
Definition re_label : regex :=
  (Atom label_open ~> LazyStar ADot ~> Group label_alts
   ~> Atom label_close)%re.

(** [[：:]] *)
Definition re_colon : regex := Atom (ASet [one "："; one ":"]).

(** [\s+(?=\.epub)] *)
Definition re_spaces_before_ext : regex := (ws_plus ~> Ahead ext)%re.

(** Lines 159-168: the character rewriting, the removal of annotations, the
    colons and the blanks. *)
Definition clean_title (book_title : str) : result str :=
  book_title <- replace_fullwidth_alpha_numeral_to_halfwidth book_title ;;
  book_title <- replace_unsafe_symbol_to_safe_symbol book_title ;;
  book_title <- replace_fullwidth_round_brackets_to_halfwidth book_title ;;
  let book_title := re_sub re_promotion [] book_title in
  let book_title := re_sub re_label [] book_title in
  let book_title := re_sub re_colon [space] book_title in
  let book_title := re_sub ws_plus [space] book_title in
  Ok book_title.

(** Lines 174-193: the four symbol blocks. *)
Definition pad_symbol_numbers (book_title : str) : result str :=
  book_title <- pad_symbol_number "①" "⑨" 0x242F book_title ;;
  book_title <- pad_symbol_number "⑴" "⑼" 0x2443 book_title ;;
  book_title <- pad_symbol_number "⒈" "⒐" 0x2457 book_title ;;
  pad_symbol_number "⓵" "⓽" 0x24C4 book_title.

(** Lines 170-201: the numbering. *)
Definition pad_numbers (book_title : str) : result str :=
  book_title <- pad_numeric_only_string_enclosed_in_round_brackets book_title ;;
  let book_title := pad_kanji_number book_title in
  book_title <- pad_symbol_numbers book_title ;;
  pad_number_before_ext book_title.

(** Lines 203-205. *)
Definition strip_before_ext (book_title : str) : str :=
  let book_title := re_sub ws_plus [space] book_title in
  re_sub re_spaces_before_ext [] book_title.

Definition format_book_title (book_title : str) : result str :=
  book_title <- clean_title book_title ;;
  book_title <- pad_numbers book_title ;;
  Ok (strip_before_ext book_title).

(* ================================================================== *)
(** ** The vocabulary of the specification *)

(** The ten characters the specification calls unsafe for file names. *)
Definition unsafe_symbols : str := py "<>:" ++ [quote] ++ py "/\|!?*".

Definition is_unsafe (c : Z) : bool := existsb (Z.eqb c) unsafe_symbols.

(** Full-width Latin letters and digits, and the full-width round brackets. *)
Definition is_fullwidth_alnum (c : Z) : bool :=
  in_range 0xFF21 0xFF3A c || in_range 0xFF41 0xFF5A c || in_range 0xFF10 0xFF19 c.

Definition is_fullwidth_round_bracket (c : Z) : bool :=
  (c =? 0xFF08) || (c =? 0xFF09).

(** The character-level meaning of the three rewriters. *)
Definition to_halfwidth (c : Z) : Z :=
  if is_fullwidth_alnum c then c - 0xFEE0 else c.

Definition to_safe_symbol (c : Z) : Z :=
  if is_unsafe c then c + 0xFEE0 else c.

Definition to_halfwidth_bracket (c : Z) : Z :=
  if is_fullwidth_round_bracket c then c - 0xFEE0 else c.

(** Whether a pattern holds a capturing group. *)
Fixpoint has_group (r : regex) : bool :=
  match r with
  | Seq r1 r2 | Alt r1 r2 => has_group r1 || has_group r2
  | Opt r1 | Ahead r1 => has_group r1
  | Group _ => true
  | _ => false
  end.

Definition is_ascii_digit (c : Z) : bool := in_range 48 57 c.

(** The four blocks of symbol numbers of [format_book_title], with the
    offset each one subtracts. *)
Definition symbol_blocks : list (string * string * Z) :=
  [("①", "⑨", 0x242F); ("⑴", "⑼", 0x2443); ("⒈", "⒐", 0x2457);
   ("⓵", "⓽", 0x24C4)]%string.

(** A character that may stay in a canonical title. *)
Definition is_clean (c : Z) : bool :=
  negb (is_unsafe c) && negb (is_fullwidth_alnum c)
  && negb (is_fullwidth_round_bracket c).

(** A numeral of at least two ASCII digits. *)
Definition is_padded_numeral (n : str) : Prop :=
  (2 <= length n)%nat /\ Forall (fun c => is_ascii_digit c = true) n.

(** The claim's two-digit token: two ASCII digits after a space, with or
    without a space behind. *)
Definition is_two_digit_token (tok : str) : Prop :=
  exists d1 d2,
    is_ascii_digit d1 = true /\ is_ascii_digit d2 = true
    /\ (tok = [space; d1; d2; space] \/ tok = [space; d1; d2]).

Fixpoint starts_with (w s : str) : bool :=
  match w, s with
  | [], _ => true
  | _ :: _, [] => false
  | x :: w', c :: s' => (x =? c) && starts_with w' s'
  end.

(** [w in s] *)
Fixpoint contains (w s : str) : bool :=
  starts_with w s
  || match s with
     | [] => false
     | _ :: s' => contains w s'
     end.

(** The text holds the extension token somewhere. *)
Definition has_ext (s : str) : bool := contains (py ".epub") s.

(** *** The numbering as an ordered list of rules *)

(** A numbering rule: the pattern searched first, the pattern substituted,
    and the token computed from the match of the first. *)
Record rule := Rule {
  guard : regex;
  pattern : regex;
  token : rmatch -> result str
}.

Definition apply_rule (ru : rule) (text : str) : result str :=
  match re_search (guard ru) text with
  | Some m =>
      number <- token ru m ;;
      Ok (re_sub (pattern ru) number text)
  | None => Ok text
  end.

Definition symbol_rule (lo hi : string) (offset : Z) : rule :=
  Rule (re_symbol_search lo hi) (re_symbol_sub lo hi) (symbol_number offset).

(** The sub-rules (a) to (e) in the order of the source. *)
Definition numbering_rules : list rule :=
  [ Rule re_brackets_spaced re_brackets_any spaced_number;
    Rule re_brackets_ext re_brackets_before_ext tight_number;
    Rule re_kanji_search re_kanji_sub (fun m => Ok (kanji_number m));
    symbol_rule "①" "⑨" 0x242F;
    symbol_rule "⑴" "⑼" 0x2443;
    symbol_rule "⒈" "⒐" 0x2457;
    symbol_rule "⓵" "⓽" 0x24C4;
    Rule re_number_before_ext re_number_before_ext_sub tight_number ].

Definition run_rules (rules : list rule) (text : str) : result str :=
  fold_left (fun acc ru => t <- acc ;; apply_rule ru t) rules (Ok text).

(** The number of spans a rule rewrites in a text. *)
Definition rewritten_spans (ru : rule) (text : str) : nat :=
  match re_search (guard ru) text with
  | Some _ => re_sub_count (pattern ru) text
  | None => O
  end.

(** The pattern without its capturing parentheses. *)
Fixpoint erase (r : regex) : regex :=
  match r with
  | Seq r1 r2 => Seq (erase r1) (erase r2)
  | Alt r1 r2 => Alt (erase r1) (erase r2)
  | Opt r1 => Opt (erase r1)
  | Group r1 => erase r1
  | Ahead r1 => Ahead (erase r1)
  | _ => r
  end.

(** Where a matcher state stands in the text. *)
Definition pos (st : mstate) : option Z * str := (ms_prev st, ms_rest st).

(** The texts the alternation of [re_promotion] can read. *)
Definition promotion_tokens : list str :=
  [py "付き"; py "増量版"; py "無料"; py "無料版"; py "出版"; py "誌版";
   py "特別"; py "特別版"; py "特典付"; py "特典付き"; py "漫画付";
   py "漫画付き"].

(** The texts the alternation of [re_label] can read. *)
Definition label_tokens : list str :=
  [py "BOOKS"; py "Creative"; py "DX"; py "DX版"; py "GAMES"; py "JOKER";
   py "Network"; py "NOVELS"; py "NOVEL 0"; py "Publishing"; py "エイジ";
   py "エクストラ"; py "コミック"; py "シリーズ"; py "ス"; py "ノベルズ";
   py "ラノベ"; py "限定版"; py "小説"; py "新装版"; py "電子版";
   py "特典付き"; py "特別版"; py "文芸"; py "文庫"; py "文庫J"; py "編集部"].

(** Whether a pattern looks behind its position. *)
Fixpoint no_behind (r : regex) : bool :=
  match r with
  | Seq r1 r2 | Alt r1 r2 => no_behind r1 && no_behind r2
  | Opt r1 | Group r1 | Ahead r1 => no_behind r1
  | Behind _ => false
  | _ => true
  end.

(** *** Canonical inputs *)

(** The brackets that the pipeline reads: round, angle and lenticular, in
    both widths. *)
Definition bracket_chars : str := py "()<>（）＜＞〈〉【】".

Definition is_bracket (c : Z) : bool := existsb (Z.eqb c) bracket_chars.

Definition is_kanji_numeral (c : Z) : bool :=
  existsb (Z.eqb c) (concat kanji_numbers).

Definition is_symbol_number (c : Z) : bool :=
  existsb (fun b => match b with
                    | (lo, hi, _) => in_range (cp lo) (cp hi) c
                    end) symbol_blocks.

(** Raw numbering: a decimal digit, a kanji numeral or a symbol number. *)
Definition is_numbering (c : Z) : bool :=
  is_digit c || is_kanji_numeral c || is_symbol_number c.

Definition is_colon (c : Z) : bool := (c =? cp "：") || (c =? cp ":").

(** An input free of full-width letters and digits, of brackets and of raw
    numbering. *)
Definition is_canonical_char (c : Z) : bool :=
  negb (is_fullwidth_alnum c) && negb (is_bracket c) && negb (is_numbering c).

Definition canonical_input (s : str) : bool := forallb is_canonical_char s.

(** A character that no stage before the blanks changes. *)
Definition is_settled_char (c : Z) : bool :=
  is_canonical_char c && negb (is_unsafe c) && negb (is_colon c).

Definition starts_with_space (s : str) : bool :=
  match s with
  | c :: _ => is_space c
  | [] => false
  end.

(** Every blank is a single space between two other characters. *)
Fixpoint collapsed (s : str) : bool :=
  match s with
  | [] => true
  | c :: s' =>
      (if is_space c then (c =? space) && negb (starts_with_space s') else true)
      && collapsed s'
  end.

(** On a collapsed text, the removal of blanks before the extension. *)
Fixpoint strip_simple (s : str) : str :=
  match s with
  | [] => []
  | c :: s' =>
      if is_space c && starts_with (py ".epub") s' then strip_simple s'
      else c :: strip_simple s'
  end.

(** What is left after the longest run of characters of a class. *)
Fixpoint skip_while (a : atom) (s : str) : str :=
  match s with
  | c :: s' => if atom_match a c then skip_while a s' else s
  | [] => []
  end.

(** Patterns that cannot match without reading a character of a class. *)
Inductive needs_atom (a : atom) : regex -> Prop :=
| NA_atom : needs_atom a (Atom a)
| NA_plus : needs_atom a (Plus a)
| NA_group r : needs_atom a r -> needs_atom a (Group r)
| NA_seq_l r1 r2 : needs_atom a r1 -> needs_atom a (Seq r1 r2)
| NA_seq_r r1 r2 : needs_atom a r2 -> needs_atom a (Seq r1 r2).

(** *** Notions used by the proofs *)

(** The character before the position reached by reading [u]. *)
Definition prev_after (prev : option Z) (u : str) : option Z :=
  fold_left (fun _ c => Some c) u prev.

(** [re.sub] at a position inside the text. *)
Definition pieces_at (r : regex) (prev : option Z) (s : str) : list piece :=
  pieces_from (S (length s)) r prev s.

Definition keep_cons (c : Z) (ps : list piece) : list piece :=
  match ps with
  | Keep b :: ps' => Keep (c :: b) :: ps'
  | _ => Keep [c] :: ps
  end.

(** The text put back together from its pieces. *)
Fixpoint flatten (ps : list piece) : str :=
  match ps with
  | [] => []
  | Keep b :: ps' => b ++ flatten ps'
  | Hit m :: ps' => m_group0 m ++ flatten ps'
  end.

(** What group 1 holds after a pattern with [(\d+)] matched. *)
Definition digit_capture (g : option str) : Prop :=
  exists ds, g = Some ds /\ ds <> [] /\ Forall (fun c => is_digit c = true) ds.

(** What group 1 holds after a pattern with a one-character group matched:
    a character of the class that occurs in the text. *)
Definition char_capture (a : atom) (text : str) (g : option str) : Prop :=
  exists c, g = Some [c] /\ atom_match a c = true /\ In c text.

(** Patterns that cannot match without reading the extension token. *)
Inductive requires_ext : regex -> Prop :=
| RE_here : requires_ext ext
| RE_seq r1 r2 : requires_ext r2 -> requires_ext (Seq r1 r2)
| RE_ahead r : requires_ext r -> requires_ext (Ahead r).

(** A token that starts and ends with a space, and has no dot. *)
Definition spaced_token (tok : str) : Prop :=
  tok = [space]
  \/ exists body, tok = [space] ++ body ++ [space] /\ ~ In (cp ".") body.

(** [r1] matching somewhere implies [r2] matching there. *)
Definition weaker (r1 r2 : regex) : Prop :=
  forall st, matches r1 st <> [] -> matches r2 st <> [].

(* ================================================================== *)
(** ** The source: [get_epub_info], [show_rename], [unpack], [count_image]

    What these functions compute on strings and lists; the reading of the
    archive and of its metadata, and the file operations, are not part of
    the model. *)

(** [xs[i]] raises [IndexError] when [i] is out of range. *)
Inductive lookup (A : Type) :=
| Found (a : A)
| IndexError.
Arguments Found {A} a.
Arguments IndexError {A}.

Definition py_item {A : Type} (xs : list A) (i : nat) : lookup A :=
  match nth_error xs i with
  | Some a => Found a
  | None => IndexError
  end.

(** [s.split(sep)] for a one-character separator: the list is never
    empty. *)
Fixpoint py_split (sep : Z) (s : str) : list str :=
  match s with
  | [] => [[]]
  | c :: s' =>
      if c =? sep then [] :: py_split sep s'
      else match py_split sep s' with
           | field :: fields => (c :: field) :: fields
           | [] => [[c]]
           end
  end.

(** [s.endswith(suffix)], and [s.endswith((suffix, ...))]. *)
Definition endswith (suffix s : str) : bool :=
  starts_with (rev suffix) (rev s).

Definition endswith_any (suffixes : list str) (s : str) : bool :=
  existsb (fun suffix => endswith suffix s) suffixes.

(** Whether [re.search] found a match. *)
Definition found (m : option rmatch) : bool :=
  match m with
  | Some _ => true
  | None => false
  end.

(** The dict that [get_epub_info] returns. *)
Record epub_info := EPubInfoDict {
  info_title : str;
  info_author : str;
  info_genre : str
}.

(** [( |　)]: a space or an ideographic space. *)
Definition re_author_blank : regex :=
  Group (Atom (chr1 " ") <|> Atom (chr1 "　")).

Section Metadata.

(** [str.upper], which follows the case mappings of the Unicode tables. *)
Variable upper : str -> str.

(** Lines 229-237 of [get_epub_info], on the results of its three XPath
    queries: the texts of the [dc:title] elements, of the [dc:creator]
    elements, and the [content] of the [book-type] entries. *)
Definition get_epub_info (titles authors genres : list str)
  : lookup epub_info :=
  match py_item titles 0 with
  | Found title =>
      Found (EPubInfoDict
               title
               (match authors with
                | first :: _ => re_sub re_author_blank [] first
                | [] => py "NotFound"
                end)
               (match genres with
                | first :: _ => upper first
                | [] => py "NotFound"
                end))
  | IndexError => IndexError
  end.

End Metadata.

(** The text that [show_rename] formats for one book, before it is encoded
    for the console:
    [f'{"Genre: " + genre + " " if genre else ""}rename "{basename}" "[{author}]{title}"']
    with the formatted author and the formatted title plus extension. *)
Definition rename_line (genre : bool) (basename : str) (info : epub_info)
  : result str :=
  author <- format_book_author (info_author info) ;;
  title <- format_book_title (info_title info ++ py ".epub") ;;
  Ok ((if genre then py "Genre: " ++ info_genre info ++ py " " else [])
      ++ py "rename " ++ [quote] ++ basename ++ [quote] ++ py " " ++ [quote]
      ++ py "[" ++ author ++ py "]" ++ title ++ [quote]).

(** [[\\\/]public(image|_image| image)s?] *)
Definition re_public_image : regex :=
  (Atom (ASet [one "\"; one "/"]) ~> lit (py "public")
   ~> Group (word "image" <|> word "_image" <|> word " image")
   ~> Opt (Atom (chr1 "s")))%re.

(** The list comprehension of [unpack]: the members it extracts. *)
Definition unpack_imagepaths (filelist : list str) : list str :=
  filter (fun filename =>
            endswith_any [py ".jpg"; py ".jpeg"; py ".png"; py ".gif"] filename
            && negb (found (re_search re_public_image filename)))
         filelist.

(** The list comprehension of [count_image]: the members it counts. *)
Definition count_imagepaths (filelist : list str) : list str :=
  filter (endswith_any [py ".jpg"; py ".jpeg"; py ".png"]) filelist.

(** [imagepaths_in_epub[0].split('/')[0]] and
    [imagepaths_in_epub[0].split('/')[1]] *)
Definition directory_name (imagepaths : list str) (i : nat) : lookup str :=
  match py_item imagepaths 0 with
  | Found path => py_item (py_split (cp "/") path) i
  | IndexError => IndexError
  end.

Definition first_directory_name (imagepaths : list str) : lookup str :=
  directory_name imagepaths 0.

Definition second_directory_name (imagepaths : list str) : lookup str :=
  directory_name imagepaths 1.

(** *** Notions used to state further properties *)

(** A blank stands directly before an occurrence of ".epub". *)
Fixpoint blank_before_ext (s : str) : bool :=
  match s with
  | [] => false
  | c :: s' =>
      (is_space c && starts_with (py ".epub") s') || blank_before_ext s'
  end.

(** No character of [chars] is in the class of [a]. *)
Definition avoids (chars : str) (a : atom) : bool :=
  forallb (fun c => negb (atom_match a c)) chars.

(** [ends_outside chars r]: every match of [r] reads at least one
    character, and the last one it reads is none of [chars];
    [ends_outside_or_empty] also allows the matches that read nothing.
    Both are sufficient syntactic conditions. *)
Fixpoint ends_outside (chars : str) (r : regex) : bool :=
  match r with
  | Atom a | Plus a | LazyPlus a => avoids chars a
  | Seq r1 r2 =>
      ends_outside chars r2
      || (ends_outside chars r1 && ends_outside_or_empty chars r2)
  | Alt r1 r2 => ends_outside chars r1 && ends_outside chars r2
  | Group r1 => ends_outside chars r1
  | _ => false
  end
with ends_outside_or_empty (chars : str) (r : regex) : bool :=
  match r with
  | Eps | Ahead _ | Behind _ => true
  | Atom a | Star a | Plus a | LazyStar a | LazyPlus a => avoids chars a
  | Seq r1 r2 =>
      ends_outside chars r2
      || (ends_outside_or_empty chars r1 && ends_outside_or_empty chars r2)
  | Alt r1 r2 =>
      ends_outside_or_empty chars r1 && ends_outside_or_empty chars r2
  | Opt r1 | Group r1 => ends_outside_or_empty chars r1
  end.

(** The words that [re_public_image] looks for. *)
Definition public_image_words : list str :=
  [py "/publicimage"; py "/public_image"; py "/public image";
   py "\publicimage"; py "\public_image"; py "\public image"].

(** The characters that [get_epub_info] takes out of the author. *)
Definition is_author_blank (c : Z) : bool := (c =? cp " ") || (c =? cp "　").

(** The text starts with a character of the class. *)
Definition starts_in (a : atom) (s : str) : bool :=
  match s with
  | c :: _ => atom_match a c
  | [] => false
  end.

(** The first way of matching [r] on [s] leaves [s'], with [g'] in
    group 1, whatever stands before. *)
Definition leads (r : regex) (s s' : str) (g g' : option str) : Prop :=
  forall p, exists x l,
    matches r (MState p s g) = x :: l /\ ms_rest x = s' /\ ms_group x = g'.

(* ================================================================== *)
(** ** The examples of the source's docstrings and comments *)

Example py_literal : py "a①" = [97; 0x2460].
Proof. reflexivity. Qed.

Example docstring_brackets_1 :
  pad_numeric_only_string_enclosed_in_round_brackets (py "xxx (1) yyy.epub")
  = Ok (py "xxx 01 yyy.epub").
Proof. vm_compute. reflexivity. Qed.

Example docstring_brackets_2 :
  pad_numeric_only_string_enclosed_in_round_brackets (py "xxx(1) yyy.epub")
  = Ok (py "xxx 01 yyy.epub").
Proof. vm_compute. reflexivity. Qed.

Example docstring_brackets_3 :
  pad_numeric_only_string_enclosed_in_round_brackets (py "xxx (1).epub")
  = Ok (py "xxx 01.epub").
Proof. vm_compute. reflexivity. Qed.

Example comment_number_1 :
  pad_number_before_ext (py "xxx1巻.epub") = Ok (py "xxx 01.epub").
Proof. vm_compute. reflexivity. Qed.

Example comment_number_2 :
  pad_number_before_ext (py "xxx1.epub") = Ok (py "xxx 01.epub").
Proof. vm_compute. reflexivity. Qed.

Example three_digits_kept :
  format_book_title (py "Title (123) Sub.epub") = Ok (py "Title 123 Sub.epub").
Proof. vm_compute. reflexivity. Qed.

(* ================================================================== *)
(** ** Facts about the matcher *)

Section Matcher.

Implicit Types (r : regex) (a : atom) (st : mstate) (s : str).

Lemma run_spec a s g st :
  In st (run a s g) ->
  exists pre, pre <> [] /\ s = pre ++ ms_rest st
              /\ Forall (fun c => atom_match a c = true) pre
              /\ ms_group st = g /\ ms_prev st = Some (last pre 0).
Proof.
  revert st. induction s as [|c s IH]; simpl; intros st H; [contradiction|].
  destruct (atom_match a c) eqn:E; [|contradiction].
  destruct H as [<-|H].
  - exists [c]. simpl. repeat split; auto. discriminate.
  - destruct (IH _ H) as (pre & Hne & -> & Hall & Hg & Hp).
    exists (c :: pre). repeat split; auto.
    + discriminate.
    + rewrite Hp. destruct pre; [congruence|reflexivity].
Qed.

(** A match never moves backwards: what is left is a suffix. *)
Lemma matches_suffix r : forall st st',
  In st' (matches r st) -> exists pre, ms_rest st = pre ++ ms_rest st'.
Proof.
  induction r; simpl; intros st st' H.
  - destruct H as [<- | []]. now exists [].
  - destruct (ms_rest st) as [|c s'] eqn:E; [contradiction|].
    destruct (atom_match a c); [|contradiction].
    destruct H as [<- | []]. now exists [c].
  - apply in_flat_map in H as (st1 & H1 & H2).
    destruct (IHr1 _ _ H1) as (p1 & E1), (IHr2 _ _ H2) as (p2 & E2).
    exists (p1 ++ p2). now rewrite E1, E2, app_assoc.
  - apply in_app_or in H as [H|H]; eauto.
  - apply in_app_or in H as [H|[<- | []]]; eauto. now exists [].
  - apply in_app_or in H as [H | [<- | []]]; [|now exists []].
    apply in_rev in H. apply run_spec in H as (pre & _ & E & _). eauto.
  - apply in_rev in H. apply run_spec in H as (pre & _ & E & _). eauto.
  - destruct H as [<-|H]; [now exists []|].
    apply run_spec in H as (pre & _ & E & _). eauto.
  - apply run_spec in H as (pre & _ & E & _). eauto.
  - apply in_map_iff in H as (st1 & <- & H1). simpl. eauto.
  - destruct (matches r st); [contradiction|].
    destruct H as [<- | []]. now exists [].
  - destruct (ms_prev st) as [c|]; [|contradiction].
    destruct (atom_match a c); [|contradiction].
    destruct H as [<- | []]. now exists [].
Qed.

Lemma consumed_app st st' pre :
  ms_rest st = pre ++ ms_rest st' -> consumed st st' = pre.
Proof.
  unfold consumed. intros ->. rewrite length_app.
  replace (length pre + length (ms_rest st') - length (ms_rest st'))%nat
    with (length pre + 0)%nat by lia.
  rewrite firstn_app_2. simpl. now rewrite app_nil_r.
Qed.

Lemma match_at_some r prev s m :
  match_at r prev s = Some m ->
  In (m_end m) (matches r (MState prev s None))
  /\ s = m_group0 m ++ ms_rest (m_end m)
  /\ m_group1 m = ms_group (m_end m).
Proof.
  unfold match_at. destruct (matches r _) as [|st' l] eqn:E; [discriminate|].
  intros [= <-]. simpl.
  assert (Hin : In st' (matches r (MState prev s None))) by (rewrite E; now left).
  split; [now left|]. split; [|reflexivity].
  destruct (matches_suffix _ _ _ Hin) as (pre & Hp).
  rewrite (consumed_app _ _ _ Hp). exact Hp.
Qed.

Lemma match_at_none r prev s :
  match_at r prev s = None <-> matches r (MState prev s None) = [].
Proof.
  unfold match_at. destruct (matches r _); split; congruence.
Qed.

Lemma search_from_some r : forall s prev b m,
  search_from r prev s = Some (b, m) ->
  exists t, s = b ++ t /\ match_at r (prev_after prev b) t = Some m.
Proof.
  induction s as [|c s IH]; simpl; intros prev b m H.
  - destruct (match_at r prev []) eqn:E; [|discriminate].
    injection H as <- <-. now exists [].
  - destruct (match_at r prev (c :: s)) eqn:E.
    + injection H as <- <-. now exists (c :: s).
    + destruct (search_from r (Some c) s) as [[b' m']|] eqn:E'; [|discriminate].
      injection H as <- <-. destruct (IH _ _ _ E') as (t & -> & Ht).
      exists t. split; [reflexivity|exact Ht].
Qed.

Lemma search_from_none r : forall s prev,
  search_from r prev s = None ->
  forall u v, s = u ++ v -> match_at r (prev_after prev u) v = None.
Proof.
  induction s as [|c s IH]; simpl; intros prev H u v E.
  - destruct (match_at r prev []) eqn:E0; [discriminate|].
    symmetry in E. apply app_eq_nil in E as [-> ->]. exact E0.
  - destruct (match_at r prev (c :: s)) eqn:E0; [discriminate|].
    destruct (search_from r (Some c) s) eqn:E1; [discriminate|].
    destruct u as [|c' u]; simpl in E.
    + subst v. exact E0.
    + injection E as <- ->. simpl. now apply IH.
Qed.

(** Completeness of the search: a match somewhere means a match is found. *)
Lemma search_from_found r u prev v :
  match_at r (prev_after prev u) v <> None ->
  search_from r prev (u ++ v) <> None.
Proof.
  intros H E. apply H. eapply search_from_none; eauto.
Qed.

Lemma search_from_shorter r s prev b m :
  search_from r prev s = Some (b, m) ->
  s = b ++ m_group0 m ++ ms_rest (m_end m).
Proof.
  intros H. apply search_from_some in H as (t & -> & Ht).
  apply match_at_some in Ht as (_ & -> & _). reflexivity.
Qed.

(** The number of searches does not matter once it exceeds the length. *)
Lemma pieces_from_fuel r : forall f1 f2 s prev,
  (length s < f1)%nat -> (length s < f2)%nat ->
  pieces_from f1 r prev s = pieces_from f2 r prev s.
Proof.
  induction f1 as [|f1 IH]; intros f2 s prev H1 H2; [lia|].
  destruct f2 as [|f2]; [lia|]. simpl.
  destruct (search_from r prev s) as [[b m]|] eqn:E; [|reflexivity].
  pose proof (search_from_shorter _ _ _ _ _ E) as Hs.
  assert (Hl : length s = (length b + (length (m_group0 m)
                           + length (ms_rest (m_end m))))%nat)
    by (rewrite Hs at 1; now rewrite !length_app).
  destruct (m_group0 m) as [|x g0].
  - destruct (ms_rest (m_end m)) as [|c s']; [reflexivity|].
    simpl in Hl. do 3 f_equal. apply IH; lia.
  - simpl in Hl. do 2 f_equal. apply IH; lia.
Qed.

Lemma pieces_at_none r prev s :
  search_from r prev s = None -> pieces_at r prev s = [Keep s].
Proof. unfold pieces_at. simpl. now intros ->. Qed.

Lemma pieces_at_hit r prev s m :
  match_at r prev s = Some m -> m_group0 m <> [] ->
  pieces_at r prev s
  = Keep [] :: Hit m :: pieces_at r (ms_prev (m_end m)) (ms_rest (m_end m)).
Proof.
  intros H Hne. unfold pieces_at at 1. simpl.
  assert (E : search_from r prev s = Some ([], m))
    by (destruct s; simpl; now rewrite H).
  rewrite E. apply match_at_some in H as (_ & Hs & _).
  destruct (m_group0 m) as [|x g0] eqn:Eg; [congruence|].
  do 2 f_equal. apply pieces_from_fuel; [|lia].
  rewrite Hs, length_app. simpl. lia.
Qed.

Lemma pieces_at_miss r prev c s :
  match_at r prev (c :: s) = None ->
  pieces_at r prev (c :: s) = keep_cons c (pieces_at r (Some c) s).
Proof.
  intros H. unfold pieces_at at 1.
  cbn [pieces_from search_from]. rewrite H.
  unfold pieces_at. cbn [pieces_from].
  destruct (search_from r (Some c) s) as [[b m]|] eqn:E; [|reflexivity].
  cbn [option_map skip_char fst snd].
  pose proof (search_from_shorter _ _ _ _ _ E) as Hs.
  assert (Hl : length s = (length b + (length (m_group0 m)
                           + length (ms_rest (m_end m))))%nat)
    by (rewrite Hs at 1; now rewrite !length_app).
  destruct (m_group0 m) as [|x g0].
  - destruct (ms_rest (m_end m)) as [|c' s']; [reflexivity|].
    cbn [keep_cons]. simpl in Hl. do 3 f_equal. apply pieces_from_fuel; simpl; lia.
  - cbn [keep_cons]. simpl in Hl. do 2 f_equal. apply pieces_from_fuel; simpl; lia.
Qed.

Lemma render_str_keep_cons repl c ps :
  render_str repl (keep_cons c ps) = c :: render_str repl ps.
Proof. destruct ps as [|[b|m] ps]; reflexivity. Qed.

Lemma hits_keep_cons c ps : hits (keep_cons c ps) = hits ps.
Proof. destruct ps as [|[b|m] ps]; reflexivity. Qed.

Lemma render_keep_cons repl c ps :
  render repl (keep_cons c ps)
  = (t <- render repl ps ;; Ok (c :: t)).
Proof.
  destruct ps as [|[b|m] ps]; simpl; try reflexivity.
  destruct (render repl ps); reflexivity.
Qed.

Lemma flatten_pieces_from r : forall f prev s,
  flatten (pieces_from f r prev s) = s.
Proof.
  induction f as [|f IH]; intros prev s; simpl; [now rewrite app_nil_r|].
  destruct (search_from r prev s) as [[b m]|] eqn:E; [|simpl; now rewrite app_nil_r].
  pose proof (search_from_shorter _ _ _ _ _ E) as Hs.
  destruct (m_group0 m) as [|x g0] eqn:Eg.
  - destruct (ms_rest (m_end m)) as [|c s'] eqn:Er; simpl;
      rewrite ?Eg, ?IH; simpl in *; symmetry; exact Hs.
  - simpl. rewrite Eg, IH. symmetry. exact Hs.
Qed.

(** Whatever holds of every character of the text and of the replacement
    holds of every character of the result. *)
Lemma render_str_Forall (P : Z -> Prop) repl : forall ps,
  Forall P (flatten ps) -> Forall P repl -> Forall P (render_str repl ps).
Proof.
  induction ps as [|[b|m] ps IH]; simpl; intros H Hr; auto;
    apply Forall_app in H as [H1 H2]; apply Forall_app; auto.
Qed.

Lemma re_sub_Forall (P : Z -> Prop) r repl text :
  Forall P text -> Forall P repl -> Forall P (re_sub r repl text).
Proof.
  intros H Hr. unfold re_sub, pieces. apply render_str_Forall; auto.
  now rewrite flatten_pieces_from.
Qed.

(** A pattern that matches nowhere leaves the text as it is. *)
Lemma re_sub_no_match r repl text :
  re_search r text = None -> re_sub r repl text = text.
Proof.
  unfold re_search, re_sub, pieces. intros H. simpl.
  destruct (search_from r None text); [discriminate|]. simpl.
  now rewrite app_nil_r.
Qed.

Lemma re_sub_fn_no_match r repl text :
  re_search r text = None -> re_sub_fn r repl text = Ok text.
Proof.
  unfold re_search, re_sub_fn, pieces. intros H. simpl.
  destruct (search_from r None text); [discriminate|]. simpl.
  now rewrite app_nil_r.
Qed.

Lemma re_sub_count_no_match r text :
  re_search r text = None -> re_sub_count r text = O.
Proof.
  unfold re_search, re_sub_count, pieces. intros H. simpl.
  destruct (search_from r None text); [discriminate|]. reflexivity.
Qed.

(** A pattern that matches somewhere is replaced at least once. *)
Lemma re_sub_count_match r text :
  re_search r text <> None -> (1 <= re_sub_count r text)%nat.
Proof.
  unfold re_search, re_sub_count, pieces. intros H. simpl.
  destruct (search_from r None text) as [[b m]|]; [|now elim H].
  destruct (m_group0 m); [destruct (ms_rest (m_end m))|]; cbn; lia.
Qed.

Lemma match_at_atom_hit a prev c s :
  atom_match a c = true ->
  match_at (Atom a) prev (c :: s) = Some (RMatch [c] None (MState (Some c) s None)).
Proof.
  intros H. unfold match_at. simpl. rewrite H.
  now rewrite (consumed_app _ _ [c]).
Qed.

Lemma match_at_atom_miss a prev c s :
  atom_match a c = false -> match_at (Atom a) prev (c :: s) = None.
Proof. intros H. unfold match_at. simpl. now rewrite H. Qed.

(** Replacing the characters of a class by a shifted code point is a map
    over the text. *)
Lemma render_shift_class a d :
  (forall c, atom_match a c = true -> in_range 0 0x10FFFF (c + d) = true) ->
  forall s prev,
    render (shift_char d) (pieces_at (Atom a) prev s)
    = Ok (map (fun c => if atom_match a c then c + d else c) s).
Proof.
  intros Hr. induction s as [|c s IH]; intros prev; [reflexivity|].
  destruct (atom_match a c) eqn:E.
  - rewrite (pieces_at_hit _ _ _ _ (match_at_atom_hit a prev c s E))
      by discriminate.
    cbn [render app m_group0 m_end ms_prev ms_rest shift_char py_ord bind].
    unfold py_chr. rewrite (Hr _ E). cbn [bind]. rewrite IH. cbn. now rewrite E.
  - rewrite (pieces_at_miss _ _ _ _ (match_at_atom_miss a prev c s E)).
    rewrite render_keep_cons, IH. cbn. now rewrite E.
Qed.

Lemma re_sub_fn_shift_class a d text :
  (forall c, atom_match a c = true -> in_range 0 0x10FFFF (c + d) = true) ->
  re_sub_fn (Atom a) (shift_char d) text
  = Ok (map (fun c => if atom_match a c then c + d else c) text).
Proof. intros H. apply (render_shift_class a d H text None). Qed.

Lemma re_search_some r text m :
  re_search r text = Some m ->
  exists u v, text = u ++ v
    /\ In (m_end m) (matches r (MState (prev_after None u) v None))
    /\ v = m_group0 m ++ ms_rest (m_end m)
    /\ m_group1 m = ms_group (m_end m).
Proof.
  unfold re_search. destruct (search_from r None text) as [[b m']|] eqn:E;
    [|discriminate].
  intros [= <-]. apply search_from_some in E as (t & -> & Ht).
  apply match_at_some in Ht as (H1 & H2 & H3). exists b, t. auto.
Qed.

Lemma in_matches_seq r1 r2 st st' :
  In st' (matches (Seq r1 r2) st) <->
  exists st1, In st1 (matches r1 st) /\ In st' (matches r2 st1).
Proof. simpl. apply in_flat_map. Qed.

(** Only a group changes what group 1 holds. *)
Lemma matches_group_keep r : has_group r = false -> forall st st',
  In st' (matches r st) -> ms_group st' = ms_group st.
Proof.
  induction r; simpl; intros Hg st st' H; try discriminate.
  - now destruct H as [<- | []].
  - destruct (ms_rest st) as [|c s']; [contradiction|].
    destruct (atom_match a c); [|contradiction]. now destruct H as [<- | []].
  - apply orb_false_iff in Hg as [Hg1 Hg2].
    apply in_flat_map in H as (st1 & H1 & H2).
    rewrite (IHr2 Hg2 _ _ H2). now apply IHr1.
  - apply orb_false_iff in Hg as [Hg1 Hg2].
    apply in_app_or in H as [H|H]; auto.
  - apply in_app_or in H as [H | [<- | []]]; auto.
  - apply in_app_or in H as [H | [<- | []]]; [|reflexivity].
    apply in_rev in H. now apply run_spec in H as (pre & _ & _ & _ & E & _).
  - apply in_rev in H. now apply run_spec in H as (pre & _ & _ & _ & E & _).
  - destruct H as [<- | H]; [reflexivity|].
    now apply run_spec in H as (pre & _ & _ & _ & E & _).
  - now apply run_spec in H as (pre & _ & _ & _ & E & _).
  - destruct (matches r st); [contradiction|]. now destruct H as [<- | []].
  - destruct (ms_prev st) as [c|]; [|contradiction].
    destruct (atom_match a c); [|contradiction]. now destruct H as [<- | []].
Qed.

(** What a group around [a+] captures. *)
Lemma capture_plus a tail st st' :
  has_group tail = false ->
  In st' (matches (Seq (Group (Plus a)) tail) st) ->
  exists ds q, ms_group st' = Some ds /\ ds <> []
    /\ Forall (fun c => atom_match a c = true) ds
    /\ ms_rest st = ds ++ q.
Proof.
  intros Hg H. apply in_matches_seq in H as (st1 & H1 & H2).
  rewrite (matches_group_keep tail Hg _ _ H2).
  cbn [matches] in H1. apply in_map_iff in H1 as (st0 & <- & H0).
  apply in_rev in H0. apply run_spec in H0 as (pre & Hne & E & Hall & _).
  exists pre, (ms_rest st0). cbn [ms_group].
  rewrite (consumed_app _ _ _ E). auto.
Qed.

(** What a group around a single element captures. *)
Lemma capture_atom a tail st st' :
  has_group tail = false ->
  In st' (matches (Seq (Group (Atom a)) tail) st) ->
  exists c q, ms_group st' = Some [c] /\ atom_match a c = true
    /\ ms_rest st = c :: q.
Proof.
  intros Hg H. apply in_matches_seq in H as (st1 & H1 & H2).
  rewrite (matches_group_keep tail Hg _ _ H2).
  cbn [matches] in H1. apply in_map_iff in H1 as (st0 & <- & H0).
  destruct (ms_rest st) as [|c q] eqn:E; [contradiction|].
  destruct (atom_match a c) eqn:Ea; [|contradiction].
  destruct H0 as [<- | []]. exists c, q. cbn [ms_group].
  rewrite (consumed_app st _ [c]) by (now rewrite E). auto.
Qed.

End Matcher.

(* ================================================================== *)
(** ** The three character rewriters *)

Ltac crush_ranges :=
  unfold in_range in *;
  repeat match goal with
         | H : _ || _ = true |- _ => apply orb_true_iff in H; destruct H
         | H : _ && _ = true |- _ => apply andb_true_iff in H; destruct H
         | H : (_ <=? _) = true |- _ => apply Z.leb_le in H
         | H : (_ =? _) = true |- _ => apply Z.eqb_eq in H
         end.

Lemma fullwidth_alnum_class c :
  atom_match (ASet [rng "Ａ" "Ｚ"; rng "ａ" "ｚ"; rng "０" "９"]) c
  = is_fullwidth_alnum c.
Proof.
  unfold is_fullwidth_alnum. cbn. now rewrite orb_false_r, !orb_assoc.
Qed.

Lemma in_range_one x c : in_range x x c = (c =? x).
Proof.
  unfold in_range.
  destruct (Z.leb_spec0 x c), (Z.leb_spec0 c x), (Z.eqb_spec c x);
    simpl; try reflexivity; lia.
Qed.

Lemma unsafe_class c :
  atom_match (ASet [one "<"; one ">"; one ":"; (quote, quote); one "/"; one "\";
                    one "|"; one "!"; one "?"; one "*"]) c
  = is_unsafe c.
Proof. unfold is_unsafe. cbn. now rewrite !in_range_one. Qed.

Lemma fullwidth_round_bracket_class c :
  atom_match (ASet [one "（"; one "）"]) c = is_fullwidth_round_bracket c.
Proof.
  unfold is_fullwidth_round_bracket. cbn.
  now rewrite !in_range_one, orb_false_r.
Qed.

Lemma replace_fullwidth_alnum_map text :
  replace_fullwidth_alpha_numeral_to_halfwidth text = Ok (map to_halfwidth text).
Proof.
  unfold replace_fullwidth_alpha_numeral_to_halfwidth, re_fullwidth_alnum.
  rewrite re_sub_fn_shift_class.
  - f_equal. apply map_ext. intros c. rewrite fullwidth_alnum_class. reflexivity.
  - intros c. rewrite fullwidth_alnum_class. unfold is_fullwidth_alnum.
    intros H. crush_ranges; apply andb_true_iff; split; apply Z.leb_le;
      unfold fullwidth_offset; lia.
Qed.

Lemma replace_unsafe_map text :
  replace_unsafe_symbol_to_safe_symbol text = Ok (map to_safe_symbol text).
Proof.
  unfold replace_unsafe_symbol_to_safe_symbol, re_unsafe_symbol.
  rewrite re_sub_fn_shift_class.
  - f_equal. apply map_ext. intros c. rewrite unsafe_class. reflexivity.
  - intros c. rewrite unsafe_class. unfold is_unsafe. cbn.
    intros H. crush_ranges; subst; try discriminate; reflexivity.
Qed.

Lemma replace_round_brackets_map text :
  replace_fullwidth_round_brackets_to_halfwidth text
  = Ok (map to_halfwidth_bracket text).
Proof.
  unfold replace_fullwidth_round_brackets_to_halfwidth, re_fullwidth_round_bracket.
  rewrite re_sub_fn_shift_class.
  - f_equal. apply map_ext. intros c. rewrite fullwidth_round_bracket_class.
    reflexivity.
  - intros c. rewrite fullwidth_round_bracket_class.
    unfold is_fullwidth_round_bracket.
    intros H. crush_ranges; subst; reflexivity.
Qed.

Lemma format_book_author_map author :
  format_book_author author
  = Ok (map to_safe_symbol (map to_halfwidth author)).
Proof.
  unfold format_book_author.
  rewrite replace_fullwidth_alnum_map. cbn [bind].
  now rewrite replace_unsafe_map.
Qed.

Lemma to_safe_symbol_safe c : is_unsafe (to_safe_symbol c) = false.
Proof.
  unfold to_safe_symbol. destruct (is_unsafe c) eqn:E; [|exact E].
  unfold is_unsafe in E. cbn in E. crush_ranges; subst; try discriminate;
    reflexivity.
Qed.

(* ================================================================== *)
(** ** The builtins on what the patterns capture *)

Lemma decimal_in_range blocks c d :
  decimal_in blocks c = Some d -> 0 <= d <= 9.
Proof.
  induction blocks as [|b bs IH]; simpl; [discriminate|].
  destruct (in_range b (b + 9) c) eqn:E; [|exact IH].
  intros [= <-]. crush_ranges. lia.
Qed.

Lemma digits_value_ok : forall ds acc,
  Forall (fun c => is_digit c = true) ds -> 0 <= acc ->
  exists v, digits_value acc ds = Some v /\ 0 <= v.
Proof.
  induction ds as [|c ds IH]; simpl; intros acc H Ha; [eauto|].
  inversion H as [|? ? Hc Hds]; subst. unfold is_digit in Hc.
  destruct (decimal_value c) as [d|] eqn:E; [|discriminate].
  apply decimal_in_range in E. apply IH; [exact Hds|lia].
Qed.

Lemma py_int_digits ds :
  ds <> [] -> Forall (fun c => is_digit c = true) ds ->
  exists n, py_int ds = Ok n /\ 0 <= n.
Proof.
  intros Hne H. destruct ds as [|c ds]; [congruence|].
  destruct (digits_value_ok (c :: ds) 0 H) as (v & E & Hv); [lia|].
  unfold py_int. rewrite E. eauto.
Qed.

Lemma uint_codes_digits d :
  Forall (fun c => is_ascii_digit c = true) (uint_codes d).
Proof. induction d; simpl; constructor; auto. Qed.

Lemma py_str_digits n :
  0 <= n -> Forall (fun c => is_ascii_digit c = true) (py_str n).
Proof.
  intros H. unfold py_str. destruct n; try lia; apply uint_codes_digits.
Qed.

Lemma zfill_digits w s :
  Forall (fun c => is_ascii_digit c = true) s ->
  Forall (fun c => is_ascii_digit c = true) (zfill w s).
Proof.
  intros H. unfold zfill.
  assert (Hp : forall k, Forall (fun c => is_ascii_digit c = true)
                                (repeat zero_digit k))
    by (induction k; simpl; constructor; auto).
  destruct s as [|c s']; [apply Hp|].
  inversion H as [|? ? Hc Hs]; subst.
  destruct ((c =? cp "+") || (c =? cp "-")) eqn:E.
  - exfalso. unfold is_ascii_digit in Hc. cbn in E. crush_ranges; lia.
  - apply Forall_app. split; [apply Hp|exact H].
Qed.

Lemma zfill_length w s : (w <= length (zfill w s))%nat.
Proof.
  unfold zfill. destruct s as [|c s']; [rewrite repeat_length; simpl; lia|].
  destruct ((c =? cp "+") || (c =? cp "-")); simpl;
    rewrite length_app, repeat_length; simpl; lia.
Qed.

Lemma padded_number_ok m :
  digit_capture (m_group1 m) ->
  exists n, padded_number m = Ok n
    /\ Forall (fun c => is_ascii_digit c = true) n /\ (2 <= length n)%nat.
Proof.
  intros (ds & E & Hne & Hd). unfold padded_number. rewrite E. cbn [py_int_group].
  destruct (py_int_digits ds Hne Hd) as (n & -> & Hn). cbn [bind].
  eexists. split; [reflexivity|]. split.
  - apply zfill_digits, py_str_digits, Hn.
  - apply zfill_length.
Qed.

Lemma brackets_spaced_capture text m :
  re_search re_brackets_spaced text = Some m -> digit_capture (m_group1 m).
Proof.
  intros H. apply re_search_some in H as (u & v & _ & H & _ & ->).
  unfold re_brackets_spaced in H.
  apply in_matches_seq in H as (s1 & _ & H).
  apply in_matches_seq in H as (s2 & _ & H).
  apply in_matches_seq in H as (s3 & _ & H).
  apply capture_plus in H as (ds & q & E & Hne & Hd & _); [|reflexivity].
  exists ds. auto.
Qed.

Lemma brackets_ext_capture text m :
  re_search re_brackets_ext text = Some m -> digit_capture (m_group1 m).
Proof.
  intros H. apply re_search_some in H as (u & v & _ & H & _ & ->).
  unfold re_brackets_ext in H.
  apply in_matches_seq in H as (s1 & _ & H).
  apply in_matches_seq in H as (s2 & _ & H).
  apply in_matches_seq in H as (s3 & _ & H).
  apply capture_plus in H as (ds & q & E & Hne & Hd & _); [|reflexivity].
  exists ds. auto.
Qed.

Lemma number_before_ext_capture text m :
  re_search re_number_before_ext text = Some m -> digit_capture (m_group1 m).
Proof.
  intros H. apply re_search_some in H as (u & v & _ & H & _ & ->).
  unfold re_number_before_ext in H.
  apply in_matches_seq in H as (s1 & _ & H).
  apply capture_plus in H as (ds & q & E & Hne & Hd & _); [|reflexivity].
  exists ds. auto.
Qed.

Lemma one_char_capture a text m :
  re_search (ws_star ~> Group (Atom a) ~> ws_star ~> kan ~> ws_star)%re text
  = Some m ->
  char_capture a text (m_group1 m).
Proof.
  intros H. apply re_search_some in H as (u & v & -> & H & _ & ->).
  apply in_matches_seq in H as (s1 & H1 & H).
  apply capture_atom in H as (c & q & E & Hc & Hr); [|reflexivity].
  exists c. repeat split; auto.
  apply matches_suffix in H1 as (pre & Hp). cbn [ms_rest] in Hp.
  rewrite Hp, Hr. apply in_or_app. right. apply in_or_app. right. now left.
Qed.

Lemma dict_get_in d k v : dict_get d k = Some v -> In v (map snd d).
Proof.
  induction d as [|[k' v'] d IH]; simpl; [discriminate|].
  destruct k as [s|]; [|discriminate].
  destruct (str_eqb s k'); [intros [= <-]; now left|auto].
Qed.

Lemma symbol_block_digit lo hi off c :
  In (lo, hi, off) symbol_blocks ->
  atom_match (ASet [rng lo hi]) c = true ->
  py_chr (c - off) = Ok [c - off] /\ is_ascii_digit (c - off) = true
  /\ zfill 2 [c - off] = [zero_digit; c - off].
Proof.
  intros Hin Hc. cbn in Hc. rewrite orb_false_r in Hc.
  assert (Hd : 49 <= c - off <= 57).
  { simpl in Hin.
    repeat (destruct Hin as [Hin|Hin];
            [injection Hin as <- <- <-; cbn in Hc; crush_ranges; lia|]).
    contradiction. }
  repeat split.
  - unfold py_chr, in_range.
    destruct (Z.leb_spec0 0 (c - off)), (Z.leb_spec0 (c - off) 0x10FFFF);
      simpl; try reflexivity; lia.
  - unfold is_ascii_digit, in_range.
    destruct (Z.leb_spec0 48 (c - off)), (Z.leb_spec0 (c - off) 57);
      simpl; try reflexivity; lia.
  - unfold zfill. cbn.
    destruct (Z.eqb_spec (c - off) 43); [lia|].
    destruct (Z.eqb_spec (c - off) 45); [lia|]. reflexivity.
Qed.

Lemma symbol_number_ok lo hi off text m :
  In (lo, hi, off) symbol_blocks ->
  char_capture (ASet [rng lo hi]) text (m_group1 m) ->
  exists d, symbol_number off m = Ok [space; zero_digit; d; space]
    /\ is_ascii_digit d = true.
Proof.
  intros Hin (c & E & Hc & _). unfold symbol_number. rewrite E.
  destruct (symbol_block_digit _ _ _ _ Hin Hc) as (H1 & H2 & H3).
  cbn [py_ord_group py_ord bind]. rewrite H1. cbn [bind]. rewrite H3.
  exists (c - off). split; [reflexivity|exact H2].
Qed.

(** *** Every numbering rule returns, and keeps what holds of all characters *)

Section Preservation.

Variable Q : Z -> Prop.
Hypothesis Q_space : Q space.
Hypothesis Q_digit : forall c, is_ascii_digit c = true -> Q c.
Hypothesis Q_none : Forall Q (py "None").

Lemma Q_digits n : Forall (fun c => is_ascii_digit c = true) n -> Forall Q n.
Proof. intros H. eapply Forall_impl; [|exact H]. exact Q_digit. Qed.

Lemma pad_brackets_spaced_keeps text :
  exists t, pad_brackets_spaced text = Ok t /\ (Forall Q text -> Forall Q t).
Proof.
  unfold pad_brackets_spaced.
  destruct (re_search re_brackets_spaced text) as [m|] eqn:E; [|eauto].
  unfold spaced_number.
  destruct (padded_number_ok m (brackets_spaced_capture _ _ E))
    as (n & -> & Hn & _).
  cbn [bind]. eexists. split; [reflexivity|]. intros H.
  apply re_sub_Forall; [exact H|].
  repeat (apply Forall_app; split); auto using Q_digits.
Qed.

Lemma pad_brackets_ext_keeps text :
  exists t, pad_brackets_ext text = Ok t /\ (Forall Q text -> Forall Q t).
Proof.
  unfold pad_brackets_ext.
  destruct (re_search re_brackets_ext text) as [m|] eqn:E; [|eauto].
  unfold tight_number.
  destruct (padded_number_ok m (brackets_ext_capture _ _ E))
    as (n & -> & Hn & _).
  cbn [bind]. eexists. split; [reflexivity|]. intros H.
  apply re_sub_Forall; [exact H|].
  repeat (apply Forall_app; split); auto using Q_digits.
Qed.

Lemma pad_numeric_keeps text :
  exists t, pad_numeric_only_string_enclosed_in_round_brackets text = Ok t
    /\ (Forall Q text -> Forall Q t).
Proof.
  unfold pad_numeric_only_string_enclosed_in_round_brackets.
  destruct (pad_brackets_spaced_keeps text) as (t1 & -> & H1). cbn [bind].
  destruct (pad_brackets_ext_keeps t1) as (t2 & -> & H2). eauto.
Qed.

Lemma kanji_number_keeps m : Forall Q (kanji_number m).
Proof.
  unfold kanji_number. repeat (apply Forall_app; split); auto using Q_digits.
  destruct (dict_get kanji_mapping (m_group1 m)) as [v|] eqn:E; [|exact Q_none].
  apply dict_get_in in E. cbn [fmt_opt]. apply Q_digits.
  revert v E. apply Forall_forall. vm_compute.
  repeat constructor.
Qed.

Lemma pad_kanji_number_keeps text :
  Forall Q text -> Forall Q (pad_kanji_number text).
Proof.
  intros H. unfold pad_kanji_number.
  destruct (re_search re_kanji_search text) as [m|]; [|exact H].
  apply re_sub_Forall; [exact H|apply kanji_number_keeps].
Qed.

Lemma pad_symbol_number_keeps lo hi off text :
  In (lo, hi, off) symbol_blocks ->
  exists t, pad_symbol_number lo hi off text = Ok t
    /\ (Forall Q text -> Forall Q t).
Proof.
  intros Hin. unfold pad_symbol_number.
  destruct (re_search (re_symbol_search lo hi) text) as [m|] eqn:E; [|eauto].
  apply one_char_capture in E.
  destruct (symbol_number_ok _ _ _ _ _ Hin E) as (d & -> & Hd).
  cbn [bind]. eexists. split; [reflexivity|]. intros H.
  apply re_sub_Forall; [exact H|].
  repeat constructor; auto.
Qed.

Lemma pad_number_before_ext_keeps text :
  exists t, pad_number_before_ext text = Ok t /\ (Forall Q text -> Forall Q t).
Proof.
  unfold pad_number_before_ext.
  destruct (re_search re_number_before_ext text) as [m|] eqn:E; [|eauto].
  unfold tight_number.
  destruct (padded_number_ok m (number_before_ext_capture _ _ E))
    as (n & -> & Hn & _).
  cbn [bind]. eexists. split; [reflexivity|]. intros H.
  apply re_sub_Forall; [exact H|].
  repeat (apply Forall_app; split); auto using Q_digits.
Qed.

Lemma pad_symbol_numbers_keeps text :
  exists t, pad_symbol_numbers text = Ok t /\ (Forall Q text -> Forall Q t).
Proof.
  unfold pad_symbol_numbers.
  destruct (pad_symbol_number_keeps "①" "⑨" 0x242F text)
    as (t3 & -> & H3); [simpl; tauto|]. cbn [bind].
  destruct (pad_symbol_number_keeps "⑴" "⑼" 0x2443 t3)
    as (t4 & -> & H4); [simpl; tauto|]. cbn [bind].
  destruct (pad_symbol_number_keeps "⒈" "⒐" 0x2457 t4)
    as (t5 & -> & H5); [simpl; tauto|]. cbn [bind].
  destruct (pad_symbol_number_keeps "⓵" "⓽" 0x24C4 t5)
    as (t6 & -> & H6); [simpl; tauto|].
  eexists. split; [reflexivity|]. intros H. apply H6, H5, H4, H3, H.
Qed.

Lemma pad_numbers_keeps text :
  exists t, pad_numbers text = Ok t /\ (Forall Q text -> Forall Q t).
Proof.
  unfold pad_numbers.
  destruct (pad_numeric_keeps text) as (t1 & -> & H1). cbn [bind].
  pose proof (pad_kanji_number_keeps t1) as H2.
  destruct (pad_symbol_numbers_keeps (pad_kanji_number t1)) as (t6 & -> & H6).
  cbn [bind].
  destruct (pad_number_before_ext_keeps t6) as (t7 & -> & H7).
  eexists. split; [reflexivity|]. intros H.
  apply H7, H6, H2, H1, H.
Qed.

Lemma strip_before_ext_keeps text :
  Forall Q text -> Forall Q (strip_before_ext text).
Proof.
  intros H. unfold strip_before_ext.
  apply re_sub_Forall; [|constructor].
  apply re_sub_Forall; [exact H|]. now constructor.
Qed.

End Preservation.

(* ================================================================== *)
(** ** Lines 159-168 as maps and substitutions *)

Lemma clean_title_eq text :
  clean_title text
  = Ok (re_sub ws_plus [space]
         (re_sub re_colon [space]
           (re_sub re_label []
             (re_sub re_promotion []
               (map to_halfwidth_bracket
                 (map to_safe_symbol (map to_halfwidth text))))))).
Proof.
  unfold clean_title. rewrite replace_fullwidth_alnum_map. cbn [bind].
  rewrite replace_unsafe_map. cbn [bind].
  now rewrite replace_round_brackets_map.
Qed.

Ltac range_false :=
  unfold in_range, quote;
  repeat match goal with
         | |- _ || _ = false => apply orb_false_iff; split
         | |- false = false => reflexivity
         | |- (_ =? _) = false => apply Z.eqb_neq; lia
         | |- (_ <=? _) && (_ <=? _) = false =>
             apply andb_false_iff;
             first [ left; apply Z.leb_gt; lia | right; apply Z.leb_gt; lia ]
         end.

Lemma unsafe_cases c :
  is_unsafe c = true ->
  In c [60; 62; 58; 34; 47; 92; 124; 33; 63; 42].
Proof.
  unfold is_unsafe. cbn. intros H. crush_ranges; subst; simpl; try tauto.
  discriminate.
Qed.

Lemma rewritten_char_clean c :
  is_clean (to_halfwidth_bracket (to_safe_symbol (to_halfwidth c))) = true.
Proof.
  assert (H1 : is_fullwidth_alnum (to_halfwidth c) = false).
  { unfold to_halfwidth. destruct (is_fullwidth_alnum c) eqn:E; [|exact E].
    unfold is_fullwidth_alnum in *. crush_ranges; range_false. }
  set (c1 := to_halfwidth c) in *. clearbody c1.
  assert (H2 : is_fullwidth_alnum (to_safe_symbol c1) = false
               /\ is_unsafe (to_safe_symbol c1) = false).
  { split; [|apply to_safe_symbol_safe].
    unfold to_safe_symbol. destruct (is_unsafe c1) eqn:E; [|exact H1].
    apply unsafe_cases in E. simpl in E.
    repeat (destruct E as [<-|E]; [reflexivity|]). contradiction. }
  destruct H2 as [H2 H3]. set (c2 := to_safe_symbol c1) in *. clearbody c2.
  unfold is_clean, to_halfwidth_bracket.
  destruct (is_fullwidth_round_bracket c2) eqn:E.
  - unfold is_fullwidth_round_bracket in E. crush_ranges; subst; reflexivity.
  - now rewrite H2, H3, E.
Qed.

Lemma clean_title_keeps text :
  exists t, clean_title text = Ok t /\ Forall (fun c => is_clean c = true) t.
Proof.
  rewrite clean_title_eq. eexists. split; [reflexivity|].
  repeat (apply re_sub_Forall; [|repeat constructor]).
  apply Forall_forall. intros c Hc.
  apply in_map_iff in Hc as (c2 & <- & Hc).
  apply in_map_iff in Hc as (c1 & <- & Hc).
  apply in_map_iff in Hc as (c0 & <- & Hc).
  apply rewritten_char_clean.
Qed.

Lemma ascii_digit_clean c : is_ascii_digit c = true -> is_clean c = true.
Proof.
  unfold is_ascii_digit. intros H. crush_ranges.
  assert (H1 : is_unsafe c = false) by (unfold is_unsafe; cbn; range_false).
  assert (H2 : is_fullwidth_alnum c = false)
    by (unfold is_fullwidth_alnum; range_false).
  assert (H3 : is_fullwidth_round_bracket c = false)
    by (unfold is_fullwidth_round_bracket; range_false).
  unfold is_clean. now rewrite H1, H2, H3.
Qed.

(** [format_book_title] returns, and every character of its result is
    clean. *)
Lemma format_book_title_clean text :
  exists t, format_book_title text = Ok t
    /\ Forall (fun c => is_clean c = true) t.
Proof.
  unfold format_book_title.
  destruct (clean_title_keeps text) as (t1 & -> & H1). cbn [bind].
  destruct (pad_numbers_keeps (fun c => is_clean c = true)) with (text := t1)
    as (t2 & -> & H2).
  - reflexivity.
  - exact ascii_digit_clean.
  - apply Forall_forall. intros c Hc. simpl in Hc.
    repeat (destruct Hc as [<-|Hc]; [reflexivity|]). contradiction.
  - cbn [bind]. eexists. split; [reflexivity|].
    apply strip_before_ext_keeps; [reflexivity|auto].
Qed.

Lemma kanji_class_cases c :
  atom_match kanji_class c = true ->
  c = cp "|" \/ exists v, dict_get kanji_mapping (Some [c]) = Some v.
Proof.
  cbn. rewrite !in_range_one. intros H.
  crush_ranges; subst; try discriminate;
    first [ left; reflexivity | right; eexists; vm_compute; reflexivity ].
Qed.

Lemma is_clean_not_bar c : is_clean c = true -> c <> cp "|".
Proof. intros H ->. discriminate H. Qed.

(* ================================================================== *)
(** ** Occurrences of a word, and the extension token *)

Lemma starts_with_app w s t :
  starts_with w s = true -> starts_with w (s ++ t) = true.
Proof.
  revert s. induction w as [|x w IH]; intros [|c s]; simpl; try easy.
  intros H. apply andb_true_iff in H as [-> H]. simpl. auto.
Qed.

Lemma contains_app_l w s t : contains w s = true -> contains w (s ++ t) = true.
Proof.
  induction s as [|c s IH]; simpl; intros H.
  - rewrite orb_false_r in H. destruct w; [|discriminate H].
    destruct t; reflexivity.
  - apply orb_true_iff in H as [H|H]; apply orb_true_iff.
    + left. now apply (starts_with_app w (c :: s)).
    + right. auto.
Qed.

Lemma contains_app_r w s t : contains w t = true -> contains w (s ++ t) = true.
Proof.
  induction s as [|c s IH]; simpl; intros H; [exact H|].
  apply orb_true_iff. right. auto.
Qed.

Lemma starts_with_contains w s : starts_with w s = true -> contains w s = true.
Proof. intros H. destruct s; simpl in *; rewrite H; reflexivity. Qed.

(** A character that is not in the word cuts every occurrence. *)
Lemma starts_with_cut w c : ~ In c w -> forall s t,
  w <> [] -> starts_with w (s ++ c :: t) = starts_with w s.
Proof.
  induction w as [|x w IH]; intros Hc s t Hne; [congruence|].
  destruct s as [|y s]; simpl.
  - destruct (Z.eqb_spec x c) as [->|_]; [elim Hc; now left|reflexivity].
  - destruct w as [|x' w'].
    + destruct s; simpl; now rewrite ?andb_true_r.
    + rewrite IH; [reflexivity| |discriminate]. intros H. apply Hc. now right.
Qed.

Lemma contains_cut w c s t :
  w <> [] -> ~ In c w ->
  contains w (s ++ c :: t) = contains w s || contains w t.
Proof.
  intros Hne Hc. induction s as [|y s IH].
  - simpl. destruct w as [|x w]; [congruence|]. simpl.
    destruct (Z.eqb_spec x c) as [->|_]; [elim Hc; now left|reflexivity].
  - change ((y :: s) ++ c :: t) with (y :: (s ++ c :: t)).
    cbn [contains]. rewrite IH.
    change (y :: s ++ c :: t) with ((y :: s) ++ c :: t).
    rewrite (starts_with_cut w c Hc (y :: s) t Hne).
    now rewrite orb_assoc.
Qed.

Lemma contains_none w s :
  w <> [] -> ~ In (hd 0 w) s -> contains w s = false.
Proof.
  intros Hne. destruct w as [|x w]; [congruence|]. simpl.
  induction s as [|c s IH]; intros H; [reflexivity|]. simpl.
  destruct (Z.eqb_spec x c) as [->|_]; [elim H; now left|].
  simpl. destruct s as [|c' s'].
  - reflexivity.
  - apply IH. intros H'. apply H. now right.
Qed.

Lemma lit_matches w : forall st st',
  In st' (matches (lit w) st) -> ms_rest st = w ++ ms_rest st'.
Proof.
  induction w as [|x w IH]; intros st st' H.
  - simpl in H. now destruct H as [<- | []].
  - cbn [lit] in H. apply in_matches_seq in H as (st1 & H1 & H2).
    apply IH in H2. simpl in H1.
    destruct (ms_rest st) as [|c s'] eqn:E; [contradiction|].
    destruct (Z.eqb_spec c x) as [->|]; [|contradiction].
    destruct H1 as [<- | []]. simpl in H2. now rewrite H2.
Qed.

Lemma starts_with_self w s : starts_with w (w ++ s) = true.
Proof. induction w as [|x w IH]; simpl; [reflexivity|]. now rewrite Z.eqb_refl. Qed.

Lemma requires_ext_sound r : requires_ext r -> forall st st',
  In st' (matches r st) -> has_ext (ms_rest st) = true.
Proof.
  induction 1 as [|r1 r2 _ IH|r _ IH]; intros st st' H.
  - apply lit_matches in H. rewrite H. apply starts_with_contains.
    apply starts_with_self.
  - apply in_matches_seq in H as (st1 & H1 & H2).
    apply matches_suffix in H1 as (pre & ->).
    apply contains_app_r. eauto.
  - simpl in H. destruct (matches r st) as [|st1 l] eqn:E; [contradiction|].
    apply (IH st st1). rewrite E. now left.
Qed.

Lemma no_ext_no_match r text :
  requires_ext r -> has_ext text = false -> re_search r text = None.
Proof.
  intros Hr Hn. destruct (re_search r text) as [m|] eqn:E; [|reflexivity].
  apply re_search_some in E as (u & v & -> & H & _).
  apply (requires_ext_sound r Hr) in H. cbn [ms_rest] in H.
  apply (contains_app_r _ u) in H. unfold has_ext in Hn. congruence.
Qed.

Lemma has_ext_cut s t : has_ext (s ++ space :: t) = has_ext s || has_ext t.
Proof.
  unfold has_ext. apply contains_cut; [discriminate|].
  vm_compute. intuition discriminate.
Qed.

Lemma has_ext_app_false s t :
  has_ext (s ++ t) = false -> has_ext s = false /\ has_ext t = false.
Proof.
  unfold has_ext. intros H. split.
  - destruct (contains _ s) eqn:E; [|reflexivity].
    apply (contains_app_l _ s t) in E. congruence.
  - destruct (contains _ t) eqn:E; [|reflexivity].
    apply (contains_app_r _ s t) in E. congruence.
Qed.

Lemma render_str_no_ext tok : spaced_token tok -> forall ps pre,
  has_ext (pre ++ flatten ps) = false ->
  has_ext (pre ++ render_str tok ps) = false.
Proof.
  intros Htok. induction ps as [|[k|m] ps IH]; intros pre H; simpl in *.
  - exact H.
  - rewrite app_assoc in *. now apply IH.
  - apply has_ext_app_false in H as [Hp H].
    apply has_ext_app_false in H as [_ H].
    pose proof (IH [] H) as Hr. simpl in Hr.
    destruct Htok as [->|(body & -> & Hb)].
    + simpl. rewrite has_ext_cut, Hp, Hr. reflexivity.
    + rewrite <- !app_assoc. simpl in Hr |- *.
      rewrite has_ext_cut, Hp. simpl.
      rewrite has_ext_cut, Hr, orb_false_r.
      apply contains_none; [discriminate|exact Hb].
Qed.

Lemma re_sub_no_ext r tok text :
  spaced_token tok -> has_ext text = false -> has_ext (re_sub r tok text) = false.
Proof.
  intros Htok H. unfold re_sub, pieces.
  apply (render_str_no_ext tok Htok _ []). cbn [app].
  now rewrite flatten_pieces_from.
Qed.

Lemma digits_no_dot n :
  Forall (fun c => is_ascii_digit c = true) n -> ~ In (cp ".") n.
Proof.
  intros H Hin. rewrite Forall_forall in H. apply H in Hin. discriminate Hin.
Qed.

Lemma pad_brackets_spaced_no_ext t :
  has_ext t = false ->
  exists t1, pad_brackets_spaced t = Ok t1 /\ has_ext t1 = false.
Proof.
  intros H. unfold pad_brackets_spaced.
  destruct (re_search re_brackets_spaced t) as [m|] eqn:E; [|eauto].
  unfold spaced_number.
  destruct (padded_number_ok m (brackets_spaced_capture _ _ E))
    as (n & -> & Hn & _).
  cbn [bind]. eexists. split; [reflexivity|].
  apply re_sub_no_ext; [|exact H]. right. exists n. split; [reflexivity|].
  now apply digits_no_dot.
Qed.

Lemma pad_kanji_number_no_ext t :
  has_ext t = false -> has_ext (pad_kanji_number t) = false.
Proof.
  intros H. unfold pad_kanji_number.
  destruct (re_search re_kanji_search t) as [m|]; [|exact H].
  apply re_sub_no_ext; [|exact H]. right. unfold kanji_number.
  eexists. split; [reflexivity|].
  destruct (dict_get kanji_mapping (m_group1 m)) as [v|] eqn:E.
  - apply dict_get_in in E. cbn [fmt_opt]. revert v E. apply Forall_forall.
    vm_compute. repeat constructor; intuition discriminate.
  - vm_compute. intuition discriminate.
Qed.

Lemma pad_symbol_number_no_ext lo hi off t :
  In (lo, hi, off) symbol_blocks -> has_ext t = false ->
  exists t1, pad_symbol_number lo hi off t = Ok t1 /\ has_ext t1 = false.
Proof.
  intros Hin H. unfold pad_symbol_number.
  destruct (re_search (re_symbol_search lo hi) t) as [m|] eqn:E; [|eauto].
  apply one_char_capture in E.
  destruct (symbol_number_ok _ _ _ _ _ Hin E) as (d & -> & Hd).
  cbn [bind]. eexists. split; [reflexivity|].
  apply re_sub_no_ext; [|exact H]. right. exists [zero_digit; d].
  split; [reflexivity|]. apply digits_no_dot. repeat constructor; auto.
Qed.

Lemma pad_symbol_numbers_no_ext t :
  has_ext t = false ->
  exists t1, pad_symbol_numbers t = Ok t1 /\ has_ext t1 = false.
Proof.
  intros H. unfold pad_symbol_numbers.
  destruct (pad_symbol_number_no_ext "①" "⑨" 0x242F t)
    as (t3 & -> & H3); [simpl; tauto|exact H|]. cbn [bind].
  destruct (pad_symbol_number_no_ext "⑴" "⑼" 0x2443 t3)
    as (t4 & -> & H4); [simpl; tauto|exact H3|]. cbn [bind].
  destruct (pad_symbol_number_no_ext "⒈" "⒐" 0x2457 t4)
    as (t5 & -> & H5); [simpl; tauto|exact H4|]. cbn [bind].
  apply pad_symbol_number_no_ext; [simpl; tauto|exact H5].
Qed.

(* ================================================================== *)
(** ** Positions reached, whatever the groups *)

Lemma run_pos a : forall s g g',
  map pos (run a s g) = map pos (run a s g').
Proof.
  induction s as [|c s IH]; intros g g'; simpl; [reflexivity|].
  destruct (atom_match a c); simpl; [|reflexivity]. f_equal. apply IH.
Qed.

Lemma flat_map_pos (f g : mstate -> list mstate) : forall l1 l2,
  map pos l1 = map pos l2 ->
  (forall x y, pos x = pos y -> map pos (f x) = map pos (g y)) ->
  map pos (flat_map f l1) = map pos (flat_map g l2).
Proof.
  induction l1 as [|x l1 IH]; intros [|y l2] H Hfg; simpl in *;
    try discriminate; [reflexivity|].
  injection H as Hx Hl. rewrite !map_app. f_equal.
  - apply Hfg. unfold pos. congruence.
  - now apply IH.
Qed.

(** Capturing parentheses do not change where a pattern can match. *)
Lemma matches_erase r : forall st1 st2,
  pos st1 = pos st2 ->
  map pos (matches (erase r) st1) = map pos (matches r st2).
Proof.
  induction r; intros st1 st2 H; pose proof H as H'; unfold pos in H';
    injection H' as Hp Hr; cbn [erase matches].
  - simpl. now rewrite H.
  - rewrite Hr. destruct (ms_rest st2) as [|c s']; [reflexivity|].
    destruct (atom_match a c); reflexivity.
  - apply flat_map_pos; auto.
  - rewrite !map_app. f_equal; auto.
  - rewrite !map_app. f_equal; auto. simpl. now rewrite H.
  - rewrite !map_rev. f_equal. simpl. rewrite H, Hr. f_equal. apply run_pos.
  - rewrite !map_rev. f_equal. rewrite Hr. apply run_pos.
  - simpl. rewrite H, Hr. f_equal. apply run_pos.
  - rewrite Hr. apply run_pos.
  - rewrite map_map. cbn [pos ms_prev ms_rest]. now apply IHr.
  - specialize (IHr _ _ H).
    destruct (matches (erase r) st1), (matches r st2); try discriminate.
    + reflexivity.
    + simpl. now rewrite H.
  - rewrite Hp. destruct (ms_prev st2) as [c|]; [|reflexivity].
    destruct (atom_match a c); [|reflexivity]. simpl. now rewrite H.
Qed.

Lemma weaker_refl r : weaker r r.
Proof. intros st H. exact H. Qed.

Lemma weaker_trans r1 r2 r3 : weaker r1 r2 -> weaker r2 r3 -> weaker r1 r3.
Proof. intros H1 H2 st H. auto. Qed.

Lemma nonempty_in (l : list mstate) : l <> [] <-> exists x, In x l.
Proof.
  destruct l as [|x l]; split; intros H; try congruence.
  - now destruct H.
  - exists x. now left.
Qed.

Lemma weaker_seq r r1 r2 : weaker r1 r2 -> weaker (Seq r r1) (Seq r r2).
Proof.
  intros H st Hne. apply nonempty_in in Hne as (x & Hx).
  apply in_matches_seq in Hx as (st1 & H1 & H2).
  assert (Hn : matches r2 st1 <> []).
  { apply H. apply nonempty_in. eauto. }
  apply nonempty_in in Hn as (y & Hy). apply nonempty_in. exists y.
  apply in_matches_seq. eauto.
Qed.

Lemma weaker_erase r : weaker r (erase r).
Proof.
  intros st H E. apply H.
  pose proof (matches_erase r st st eq_refl) as Hm. rewrite E in Hm.
  destruct (matches r st); [reflexivity|discriminate Hm].
Qed.

Lemma weaker_plus_star a : weaker (Plus a) (Star a).
Proof.
  intros st H. simpl in *. intros E. apply app_eq_nil in E as [_ E].
  discriminate E.
Qed.

Lemma weaker_ahead r : weaker r (Ahead r).
Proof.
  intros st H. simpl. destruct (matches r st); [congruence|discriminate].
Qed.

Lemma weaker_unahead r r' : weaker r r' -> weaker (Ahead r) r'.
Proof.
  intros Hw st H. apply Hw. simpl in H.
  destruct (matches r st); [congruence|discriminate].
Qed.

Lemma weaker_skip_star a r : weaker r (Seq (Star a) r).
Proof.
  intros st H. apply nonempty_in in H as (x & Hx). apply nonempty_in.
  exists x. apply in_matches_seq. exists st. split; [|exact Hx].
  simpl. apply in_or_app. right. now left.
Qed.

Lemma weaker_drop_behind a r : weaker (Seq (Opt (Behind a)) r) r.
Proof.
  intros st H. apply nonempty_in in H as (x & Hx).
  apply in_matches_seq in Hx as (st1 & H1 & H2).
  assert (st1 = st).
  { simpl in H1.
    destruct (ms_prev st) as [c|]; [destruct (atom_match a c)|];
      simpl in H1; intuition. }
  subst st1. apply nonempty_in. eauto.
Qed.

Lemma weaker_search r1 r2 text :
  weaker r1 r2 -> re_search r1 text <> None -> re_search r2 text <> None.
Proof.
  intros Hw H. destruct (re_search r1 text) as [m|] eqn:E; [clear H|congruence].
  apply re_search_some in E as (u & v & -> & Hin & _).
  unfold re_search.
  destruct (search_from r2 None (u ++ v)) eqn:E2; [discriminate|].
  exfalso. eapply search_from_none in E2; [|reflexivity].
  apply match_at_none in E2. revert E2. apply Hw. apply nonempty_in. eauto.
Qed.

(* ================================================================== *)
(** ** The numbering rules *)

Lemma fold_rules_raise rules e :
  fold_left (fun acc ru => t <- acc ;; apply_rule ru t) rules (Raise e) = Raise e.
Proof. induction rules as [|ru rs IH]; simpl; auto. Qed.

Lemma run_rules_cons ru rs text :
  run_rules (ru :: rs) text = (t <- apply_rule ru text ;; run_rules rs t).
Proof.
  unfold run_rules. simpl. destruct (apply_rule ru text); simpl;
    [reflexivity|apply fold_rules_raise].
Qed.

Lemma apply_kanji_rule text :
  apply_rule (Rule re_kanji_search re_kanji_sub (fun m => Ok (kanji_number m)))
             text
  = Ok (pad_kanji_number text).
Proof.
  unfold apply_rule, pad_kanji_number. simpl.
  destruct (re_search re_kanji_search text); reflexivity.
Qed.

Lemma pad_numbers_rules text :
  pad_numbers text = run_rules numbering_rules text.
Proof.
  unfold numbering_rules, pad_numbers,
    pad_numeric_only_string_enclosed_in_round_brackets, pad_symbol_numbers.
  rewrite run_rules_cons.
  change (apply_rule (Rule re_brackets_spaced re_brackets_any spaced_number) text)
    with (pad_brackets_spaced text).
  destruct (pad_brackets_spaced text) as [t1|]; [|reflexivity]. cbn [bind].
  rewrite run_rules_cons.
  change (apply_rule (Rule re_brackets_ext re_brackets_before_ext tight_number) t1)
    with (pad_brackets_ext t1).
  destruct (pad_brackets_ext t1) as [t2|]; [|reflexivity]. cbn [bind].
  rewrite run_rules_cons, apply_kanji_rule. cbn [bind].
  generalize (pad_kanji_number t2). intros t3.
  rewrite run_rules_cons.
  change (apply_rule (symbol_rule "①" "⑨" 9263) t3)
    with (pad_symbol_number "①" "⑨" 0x242F t3).
  destruct (pad_symbol_number "①" "⑨" 0x242F t3) as [t4|]; [|reflexivity].
  cbn [bind]. rewrite run_rules_cons.
  change (apply_rule (symbol_rule "⑴" "⑼" 9283) t4)
    with (pad_symbol_number "⑴" "⑼" 0x2443 t4).
  destruct (pad_symbol_number "⑴" "⑼" 0x2443 t4) as [t5|]; [|reflexivity].
  cbn [bind]. rewrite run_rules_cons.
  change (apply_rule (symbol_rule "⒈" "⒐" 9303) t5)
    with (pad_symbol_number "⒈" "⒐" 0x2457 t5).
  destruct (pad_symbol_number "⒈" "⒐" 0x2457 t5) as [t6|]; [|reflexivity].
  cbn [bind]. rewrite run_rules_cons.
  change (apply_rule (symbol_rule "⓵" "⓽" 9412) t6)
    with (pad_symbol_number "⓵" "⓽" 0x24C4 t6).
  destruct (pad_symbol_number "⓵" "⓽" 0x24C4 t6) as [t7|]; [|reflexivity].
  cbn [bind]. rewrite run_rules_cons.
  change (apply_rule
            (Rule re_number_before_ext re_number_before_ext_sub tight_number) t7)
    with (pad_number_before_ext t7).
  destruct (pad_number_before_ext t7); reflexivity.
Qed.

Lemma brackets_spaced_weaker : weaker re_brackets_spaced re_brackets_any.
Proof.
  eapply weaker_trans; [apply weaker_erase|].
  unfold re_brackets_spaced, re_brackets_any. cbn [erase ws_star ws_plus].
  repeat apply weaker_seq. apply weaker_plus_star.
Qed.

Lemma brackets_ext_weaker : weaker re_brackets_ext re_brackets_before_ext.
Proof.
  eapply weaker_trans; [apply weaker_erase|].
  change (erase re_brackets_ext)
    with (ws_star ~> Atom (chr1 "(") ~> ws_star ~> Plus ADigit ~> ws_star
          ~> Atom (chr1 ")") ~> ws_star ~> ext)%re.
  unfold re_brackets_before_ext.
  repeat apply weaker_seq. apply weaker_ahead.
Qed.

Lemma one_char_weaker a :
  weaker (ws_star ~> Group (Atom a) ~> ws_star ~> kan ~> ws_star)%re
         (ws_star ~> Atom a ~> ws_star ~> kan ~> ws_star)%re.
Proof. apply (weaker_erase (ws_star ~> Group (Atom a) ~> ws_star ~> kan ~> ws_star)%re). Qed.

Lemma number_before_ext_weaker :
  weaker re_number_before_ext re_number_before_ext_sub.
Proof.
  eapply weaker_trans; [apply weaker_erase|].
  change (erase re_number_before_ext)
    with (Opt (Behind ASpace) ~> Plus ADigit ~> Ahead (kan ~> ws_star ~> ext))%re.
  eapply weaker_trans; [apply weaker_drop_behind|].
  eapply weaker_trans; [|apply weaker_skip_star].
  apply weaker_seq, weaker_unahead. repeat apply weaker_seq. apply weaker_ahead.
Qed.

(** In every rule the searched pattern matching somewhere makes the
    substituted pattern match there too. *)
Lemma numbering_rules_weaker :
  Forall (fun ru => weaker (guard ru) (pattern ru)) numbering_rules.
Proof.
  repeat constructor; cbn [guard pattern symbol_rule].
  - apply brackets_spaced_weaker.
  - apply brackets_ext_weaker.
  - apply one_char_weaker.
  - apply one_char_weaker.
  - apply one_char_weaker.
  - apply one_char_weaker.
  - apply one_char_weaker.
  - apply number_before_ext_weaker.
Qed.

(** In every rule the token is computed without raising. *)
Lemma numbering_rules_token text :
  Forall (fun ru => forall m, re_search (guard ru) text = Some m ->
                              exists number, token ru m = Ok number)
         numbering_rules.
Proof.
  repeat constructor; cbn [guard token symbol_rule]; intros m E.
  - apply brackets_spaced_capture, padded_number_ok in E as (n & En & _).
    unfold spaced_number. rewrite En. cbn [bind]. eauto.
  - apply brackets_ext_capture, padded_number_ok in E as (n & En & _).
    unfold tight_number. rewrite En. cbn [bind]. eauto.
  - eauto.
  - apply one_char_capture in E.
    eapply symbol_number_ok in E as (d & -> & _); [eauto|simpl; tauto].
  - apply one_char_capture in E.
    eapply symbol_number_ok in E as (d & -> & _); [eauto|simpl; tauto].
  - apply one_char_capture in E.
    eapply symbol_number_ok in E as (d & -> & _); [eauto|simpl; tauto].
  - apply one_char_capture in E.
    eapply symbol_number_ok in E as (d & -> & _); [eauto|simpl; tauto].
  - apply number_before_ext_capture, padded_number_ok in E as (n & En & _).
    unfold tight_number. rewrite En. cbn [bind]. eauto.
Qed.

(* ================================================================== *)
(** ** Patterns that do not look behind *)

Lemma flat_map_rest (f g : mstate -> list mstate) : forall l1 l2,
  map ms_rest l1 = map ms_rest l2 ->
  (forall x y, ms_rest x = ms_rest y -> map ms_rest (f x) = map ms_rest (g y)) ->
  map ms_rest (flat_map f l1) = map ms_rest (flat_map g l2).
Proof.
  induction l1 as [|x l1 IH]; intros [|y l2] H Hfg; simpl in *;
    try discriminate; [reflexivity|].
  injection H as Hx Hl. rewrite !map_app. f_equal; auto.
Qed.

Lemma run_rest a : forall s g g',
  map ms_rest (run a s g) = map ms_rest (run a s g').
Proof.
  induction s as [|c s IH]; intros g g'; simpl; [reflexivity|].
  destruct (atom_match a c); simpl; [|reflexivity]. f_equal. apply IH.
Qed.

(** Without look-behind, what is left after a match depends on the text at
    the position only. *)
Lemma matches_rest_indep r : no_behind r = true -> forall st1 st2,
  ms_rest st1 = ms_rest st2 ->
  map ms_rest (matches r st1) = map ms_rest (matches r st2).
Proof.
  induction r; intros Hb st1 st2 H; cbn [no_behind] in Hb;
    try (apply andb_true_iff in Hb as [Hb1 Hb2]); cbn [matches].
  - simpl. now rewrite H.
  - rewrite H. destruct (ms_rest st2) as [|c s']; [reflexivity|].
    destruct (atom_match a c); reflexivity.
  - apply flat_map_rest; auto.
  - rewrite !map_app. f_equal; auto.
  - rewrite !map_app. f_equal; auto. simpl. now rewrite H.
  - rewrite !map_rev. f_equal. simpl. rewrite H. f_equal. apply run_rest.
  - rewrite !map_rev. f_equal. rewrite H. apply run_rest.
  - simpl. rewrite H. f_equal. apply run_rest.
  - rewrite H. apply run_rest.
  - rewrite !map_map. cbn [ms_rest]. now apply IHr.
  - specialize (IHr Hb _ _ H).
    destruct (matches r st1), (matches r st2); try discriminate.
    + reflexivity.
    + simpl. now rewrite H.
  - discriminate.
Qed.

Lemma match_at_indep r s p1 p2 :
  no_behind r = true ->
  match match_at r p1 s, match_at r p2 s with
  | None, None => True
  | Some m1, Some m2 =>
      m_group0 m1 = m_group0 m2 /\ ms_rest (m_end m1) = ms_rest (m_end m2)
  | _, _ => False
  end.
Proof.
  intros Hb. unfold match_at.
  pose proof (matches_rest_indep r Hb (MState p1 s None) (MState p2 s None)
                eq_refl) as H.
  destruct (matches r (MState p1 s None)) as [|x l1],
           (matches r (MState p2 s None)) as [|y l2]; try discriminate;
    [exact I|].
  injection H as Hx _. cbn [m_group0 m_end]. split; [|exact Hx].
  unfold consumed. cbn [ms_rest]. now rewrite Hx.
Qed.

Lemma search_from_indep r : no_behind r = true -> forall s p1 p2,
  match search_from r p1 s, search_from r p2 s with
  | None, None => True
  | Some (b1, m1), Some (b2, m2) =>
      b1 = b2 /\ m_group0 m1 = m_group0 m2
      /\ ms_rest (m_end m1) = ms_rest (m_end m2)
  | _, _ => False
  end.
Proof.
  intros Hb. induction s as [|c s IH]; intros p1 p2; simpl.
  - pose proof (match_at_indep r [] p1 p2 Hb) as H.
    destruct (match_at r p1 []), (match_at r p2 []); try contradiction; auto.
  - pose proof (match_at_indep r (c :: s) p1 p2 Hb) as H.
    destruct (match_at r p1 (c :: s)), (match_at r p2 (c :: s));
      try contradiction; auto.
    specialize (IH (Some c) (Some c)).
    destruct (search_from r (Some c) s) as [[b m]|]; simpl; auto.
Qed.

(** So [re.sub] does not depend on what came before the text. *)
Lemma render_str_indep r tok : no_behind r = true -> forall f s p1 p2,
  render_str tok (pieces_from f r p1 s) = render_str tok (pieces_from f r p2 s).
Proof.
  intros Hb. induction f as [|f IH]; intros s p1 p2; [reflexivity|].
  cbn [pieces_from].
  pose proof (search_from_indep r Hb s p1 p2) as H.
  destruct (search_from r p1 s) as [[b1 m1]|],
           (search_from r p2 s) as [[b2 m2]|]; try contradiction;
    [|reflexivity].
  destruct H as (-> & Hg & Hr). rewrite Hg, Hr.
  destruct (m_group0 m2); [destruct (ms_rest (m_end m2))|]; simpl;
    try reflexivity; do 2 f_equal; apply IH.
Qed.

(* ================================================================== *)
(** ** The two annotation patterns *)

Lemma in_alts r rs st st' :
  In st' (matches (alts r rs) st) ->
  exists r', In r' (r :: rs) /\ In st' (matches r' st).
Proof.
  revert r. induction rs as [|r1 rs IH]; intros r H; simpl in H.
  - exists r. split; [now left|exact H].
  - apply in_app_or in H as [H|H].
    + exists r. split; [now left|exact H].
    + destruct (IH _ H) as (r' & Hin & Hm). exists r'. split; [now right|exact Hm].
Qed.

Lemma word_sound w st st' :
  In st' (matches (word w) st) -> ms_rest st = py w ++ ms_rest st'.
Proof. apply lit_matches. Qed.

Lemma atom_matches a st st' :
  In st' (matches (Atom a) st) ->
  exists x, ms_rest st = x :: ms_rest st' /\ atom_match a x = true.
Proof.
  simpl. destruct (ms_rest st) as [|x s]; [contradiction|].
  destruct (atom_match a x) eqn:E; [|contradiction].
  intros [<- | []]. exists x. auto.
Qed.

Lemma word_opt_sound w c st st' :
  In st' (matches (word_opt w c) st) ->
  ms_rest st = py w ++ ms_rest st'
  \/ ms_rest st = (py w ++ [cp c]) ++ ms_rest st'.
Proof.
  unfold word_opt. intros H. apply in_matches_seq in H as (st1 & H1 & H2).
  apply lit_matches in H1. cbn [matches] in H2.
  apply in_app_or in H2 as [H2 | [<- | []]]; [right|left; exact H1].
  apply atom_matches in H2 as (x & Hx & Hc). simpl in Hc.
  apply Z.eqb_eq in Hc. subst x. rewrite H1, Hx, <- app_assoc. reflexivity.
Qed.

Ltac token_in :=
  repeat first [ left; reflexivity | right ].

Lemma promotion_alts_sound st st' :
  In st' (matches promotion_alts st) ->
  exists w, In w promotion_tokens /\ ms_rest st = w ++ ms_rest st'.
Proof.
  intros H. apply in_alts in H as (r & Hr & H). simpl in Hr.
  repeat (destruct Hr as [<-|Hr];
          [first [ apply word_sound in H
                 | apply word_opt_sound in H as [H|H] ];
           eexists; (split; [|exact H]); unfold promotion_tokens; token_in|]).
  contradiction.
Qed.

Lemma label_alts_sound st st' :
  In st' (matches label_alts st) ->
  exists w, In w label_tokens /\ ms_rest st = w ++ ms_rest st'.
Proof.
  intros H. apply in_alts in H as (r & Hr & H). simpl in Hr.
  repeat (destruct Hr as [<-|Hr];
          [first [ apply word_sound in H
                 | apply word_opt_sound in H as [H|H] ];
           eexists; (split; [|exact H]); unfold label_tokens; token_in|]).
  contradiction.
Qed.

Lemma label_close_cases k :
  atom_match label_close k = true -> k = cp "〉" \/ k = cp "＞" \/ k = cp ")".
Proof.
  cbn. rewrite !in_range_one. intros H. crush_ranges; subst; auto.
  discriminate.
Qed.

(** After any of its tokens and a closing bracket, the tail of [re_label]
    matches and stops right behind the bracket. *)
Lemma label_tail_complete tok k p g post :
  In tok label_tokens -> atom_match label_close k = true ->
  exists st', In st' (matches (Seq (Group label_alts) (Atom label_close))
                              (MState p (tok ++ k :: post) g))
              /\ ms_rest st' = post.
Proof.
  intros Ht Hk. apply label_close_cases in Hk.
  unfold label_tokens in Ht. simpl in Ht.
  repeat (destruct Ht as [<-|Ht];
          [destruct Hk as [->|[->| ->]]; vm_compute;
           (eexists; split; [left; reflexivity|reflexivity])|]).
  contradiction.
Qed.

Lemma promotion_tail_complete tok p g post :
  In tok promotion_tokens ->
  exists st', In st' (matches (Seq (Group promotion_alts) (Atom (chr1 "】")))
                              (MState p (tok ++ cp "】" :: post) g))
              /\ ms_rest st' = post.
Proof.
  intros Ht. unfold promotion_tokens in Ht. simpl in Ht.
  repeat (destruct Ht as [<-|Ht];
          [vm_compute; (eexists; split; [left; reflexivity|reflexivity])|]).
  contradiction.
Qed.

(** The first bracket of a class in a text is where it is. *)
Lemma first_split_unique (P : Z -> bool) : forall u x v u' x' v',
  u ++ x :: v = u' ++ x' :: v' ->
  Forall (fun c => P c = false) u -> Forall (fun c => P c = false) u' ->
  P x = true -> P x' = true -> v = v'.
Proof.
  induction u as [|c u IH]; intros x v [|c' u'] x' v' E Hu Hu' Hx Hx';
    simpl in E; injection E as E1 E2.
  - exact E2.
  - subst c'. inversion Hu'. congruence.
  - subst c. inversion Hu. congruence.
  - inversion Hu. inversion Hu'. eapply IH; eauto.
Qed.

Lemma none_of_class a (ws : list str) :
  forallb (forallb (fun c => negb (atom_match a c))) ws = true ->
  Forall (Forall (fun c => atom_match a c = false)) ws.
Proof.
  intros H. apply Forall_forall. intros w Hw. apply Forall_forall. intros c Hc.
  rewrite forallb_forall in H. specialize (H w Hw).
  rewrite forallb_forall in H. specialize (H c Hc).
  now apply negb_true_iff in H.
Qed.

Lemma label_tokens_no_close :
  Forall (Forall (fun c => atom_match label_close c = false)) label_tokens.
Proof. apply none_of_class. vm_compute. reflexivity. Qed.

Lemma promotion_tokens_no_close :
  Forall (Forall (fun c => atom_match (chr1 "】") c = false)) promotion_tokens.
Proof. apply none_of_class. vm_compute. reflexivity. Qed.

Lemma label_tail_sound u tok k post p g st' :
  Forall (fun c => atom_match label_close c = false) u ->
  In tok label_tokens -> atom_match label_close k = true ->
  In st' (matches (Seq (Group label_alts) (Atom label_close))
                  (MState p (u ++ tok ++ k :: post) g)) ->
  ms_rest st' = post.
Proof.
  intros Hu Ht Hk H. apply in_matches_seq in H as (st1 & H1 & H2).
  cbn [matches] in H1. apply in_map_iff in H1 as (st0 & <- & H0).
  apply label_alts_sound in H0 as (w & Hw & E0). cbn [ms_rest] in E0.
  apply atom_matches in H2 as (x & Ex & Hx). cbn [ms_rest] in Ex.
  rewrite Ex in E0.
  pose proof label_tokens_no_close as Hn. rewrite Forall_forall in Hn.
  symmetry. rewrite app_assoc in E0.
  eapply (first_split_unique _ _ _ _ _ _ _ E0); auto.
  apply Forall_app. auto.
Qed.

Lemma promotion_tail_sound u tok post p g st' :
  Forall (fun c => atom_match (chr1 "】") c = false) u ->
  In tok promotion_tokens ->
  In st' (matches (Seq (Group promotion_alts) (Atom (chr1 "】")))
                  (MState p (u ++ tok ++ cp "】" :: post) g)) ->
  ms_rest st' = post.
Proof.
  intros Hu Ht H. apply in_matches_seq in H as (st1 & H1 & H2).
  cbn [matches] in H1. apply in_map_iff in H1 as (st0 & <- & H0).
  apply promotion_alts_sound in H0 as (w & Hw & E0). cbn [ms_rest] in E0.
  apply atom_matches in H2 as (x & Ex & Hx). cbn [ms_rest] in Ex.
  rewrite Ex in E0.
  pose proof promotion_tokens_no_close as Hn. rewrite Forall_forall in Hn.
  symmetry. rewrite app_assoc in E0.
  eapply (first_split_unique _ _ _ _ _ _ _ E0); auto.
  apply Forall_app. auto.
Qed.

(** *** A lazy run in front of a tail *)

Section LazyRun.

Variable a : atom.
Variable tail : regex.
Variable inside : Z -> Prop.
Variables (T post : str).

(** The tail matches right after the run, *)
Hypothesis tail_matches : forall p g,
  exists st', In st' (matches tail (MState p T g)).

(** and wherever it matches inside the run it stops at the same place. *)
Hypothesis tail_stops : forall u p g st',
  Forall inside u ->
  In st' (matches tail (MState p (u ++ T) g)) -> ms_rest st' = post.

Lemma lazy_star_first : forall u p g,
  Forall (fun c => atom_match a c = true) u -> Forall inside u ->
  exists x l, matches (Seq (LazyStar a) tail) (MState p (u ++ T) g) = x :: l
              /\ ms_rest x = post.
Proof.
  induction u as [|c u IH]; intros p g Hu Hi.
  - cbn [matches flat_map ms_rest ms_group app].
    destruct (tail_matches p g) as (st' & Hin).
    destruct (matches tail (MState p T g)) as [|x l] eqn:E; [contradiction|].
    exists x. eexists. split; [reflexivity|].
    apply (tail_stops [] p g); [constructor|]. simpl. rewrite E. now left.
  - inversion Hu as [|? ? Hc Hu']; subst.
    assert (E : matches (Seq (LazyStar a) tail) (MState p ((c :: u) ++ T) g)
                = matches tail (MState p ((c :: u) ++ T) g)
                  ++ matches (Seq (LazyStar a) tail) (MState (Some c) (u ++ T) g)).
    { cbn [matches flat_map ms_rest ms_group app run]. now rewrite Hc. }
    rewrite E.
    destruct (matches tail (MState p ((c :: u) ++ T) g)) as [|x l] eqn:Et.
    + simpl. apply IH; [exact Hu'|now inversion Hi].
    + exists x. eexists. split; [reflexivity|].
      apply (tail_stops (c :: u) p g); [exact Hi|]. rewrite Et. now left.
Qed.

Lemma lazy_plus_first c u p g :
  Forall (fun c => atom_match a c = true) (c :: u) -> Forall inside (c :: u) ->
  exists x l, matches (Seq (LazyPlus a) tail) (MState p ((c :: u) ++ T) g)
              = x :: l
              /\ ms_rest x = post.
Proof.
  intros Hu Hi. inversion Hu as [|? ? Hc Hu']; subst.
  assert (E : matches (Seq (LazyPlus a) tail) (MState p ((c :: u) ++ T) g)
              = matches (Seq (LazyStar a) tail) (MState (Some c) (u ++ T) g)).
  { cbn [matches flat_map ms_rest ms_group app run]. now rewrite Hc. }
  rewrite E. apply lazy_star_first; [exact Hu'|now inversion Hi].
Qed.

End LazyRun.

(** *** What the two substitutions remove *)

Lemma match_at_opener_miss a R p c s :
  atom_match a c = false -> match_at (Seq (Atom a) R) p (c :: s) = None.
Proof. intros H. unfold match_at. simpl. now rewrite H. Qed.

Lemma render_str_skip a R tok : forall pre prev s,
  Forall (fun c => atom_match a c = false) pre ->
  render_str tok (pieces_at (Seq (Atom a) R) prev (pre ++ s))
  = pre ++ render_str tok (pieces_at (Seq (Atom a) R) (prev_after prev pre) s).
Proof.
  induction pre as [|c pre IH]; intros prev s H; [reflexivity|].
  inversion H as [|? ? Hc Hp]; subst. simpl app.
  rewrite (pieces_at_miss _ _ _ _ (match_at_opener_miss a R prev c _ Hc)).
  rewrite render_str_keep_cons, IH by exact Hp. reflexivity.
Qed.

(** A match that leaves [post] of a longer text is replaced, and the
    substitution goes on in [post]. *)
Lemma render_str_hit r tok prev s post :
  no_behind r = true ->
  (exists m, match_at r prev s = Some m /\ ms_rest (m_end m) = post) ->
  (length post < length s)%nat ->
  render_str tok (pieces_at r prev s) = tok ++ re_sub r tok post.
Proof.
  intros Hb (m & Hm & Hr) Hl.
  assert (Hne : m_group0 m <> []).
  { intros E. apply match_at_some in Hm as (_ & Hs & _).
    rewrite E, Hr in Hs. simpl in Hs. subst s. lia. }
  rewrite (pieces_at_hit _ _ _ _ Hm Hne). cbn [render_str app].
  f_equal. rewrite Hr. unfold re_sub, pieces, pieces_at.
  now apply render_str_indep.
Qed.

Lemma match_at_seq_atom a R p c s x l :
  atom_match a c = true ->
  matches R (MState (Some c) s None) = x :: l ->
  exists m, match_at (Seq (Atom a) R) p (c :: s) = Some m
            /\ ms_rest (m_end m) = ms_rest x.
Proof.
  intros Hc E. unfold match_at. cbn [matches ms_rest ms_group flat_map].
  rewrite Hc. cbn [flat_map]. rewrite E. simpl. eauto.
Qed.

Lemma promotion_removed pre u tok post :
  Forall (fun c => c <> cp "【") pre ->
  u <> [] ->
  Forall (fun c => c <> newline /\ c <> cp "】") u ->
  In tok promotion_tokens ->
  re_sub re_promotion [] (pre ++ [cp "【"] ++ u ++ tok ++ [cp "】"] ++ post)
  = pre ++ re_sub re_promotion [] post.
Proof.
  intros Hpre Hne Hu Ht. unfold re_sub at 1, pieces.
  fold (pieces_at re_promotion None
          (pre ++ [cp "【"] ++ u ++ tok ++ [cp "】"] ++ post)).
  unfold re_promotion at 1. rewrite render_str_skip.
  2:{ eapply Forall_impl; [|exact Hpre]. intros c Hc. simpl.
      now apply Z.eqb_neq. }
  f_equal. fold re_promotion.
  apply (render_str_hit re_promotion []); [reflexivity| |].
  - destruct u as [|c u]; [congruence|].
    destruct (lazy_plus_first ADot
                (Seq (Group promotion_alts) (Atom (chr1 "】")))
                (fun c => atom_match (chr1 "】") c = false)
                (tok ++ cp "】" :: post) post) with (c := c) (u := u)
                (p := Some (cp "【")) (g := @None str)
      as (x & l & E & Hx).
    + intros p g. destruct (promotion_tail_complete tok p g post Ht) as (st' & H & _).
      eauto.
    + intros u' p g st' Hu' H. eapply promotion_tail_sound; eauto.
    + eapply Forall_impl; [|exact Hu]. intros z [Hz _]. simpl.
      now apply negb_true_iff, Z.eqb_neq.
    + eapply Forall_impl; [|exact Hu]. intros z [_ Hz]. simpl.
      now apply Z.eqb_neq.
    + destruct (match_at_seq_atom (chr1 "【") _ None (cp "【") _ x l
                  eq_refl E) as (m & Hm & Hr).
      exists m. split; [exact Hm|congruence].
  - rewrite !length_app. simpl. lia.
Qed.

Lemma label_removed pre o u tok k post :
  Forall (fun c => atom_match label_open c = false) pre ->
  atom_match label_open o = true ->
  Forall (fun c => c <> newline /\ atom_match label_close c = false) u ->
  In tok label_tokens ->
  atom_match label_close k = true ->
  re_sub re_label [] (pre ++ [o] ++ u ++ tok ++ [k] ++ post)
  = pre ++ re_sub re_label [] post.
Proof.
  intros Hpre Ho Hu Ht Hk. unfold re_sub at 1, pieces.
  fold (pieces_at re_label None (pre ++ [o] ++ u ++ tok ++ [k] ++ post)).
  unfold re_label at 1. rewrite render_str_skip by exact Hpre.
  f_equal. fold re_label.
  apply (render_str_hit re_label []); [reflexivity| |].
  - destruct (lazy_star_first ADot
                (Seq (Group label_alts) (Atom label_close))
                (fun c => atom_match label_close c = false)
                (tok ++ k :: post) post) with (u := u)
                (p := Some o) (g := @None str)
      as (x & l & E & Hx).
    + intros p g. destruct (label_tail_complete tok k p g post Ht Hk) as (st' & H & _).
      eauto.
    + intros u' p g st' Hu' H. eapply label_tail_sound; eauto.
    + eapply Forall_impl; [|exact Hu]. intros z [Hz _]. simpl.
      now apply negb_true_iff, Z.eqb_neq.
    + eapply Forall_impl; [|exact Hu]. intros z [_ Hz]. exact Hz.
    + destruct (match_at_seq_atom label_open _ None o _ x l Ho E)
        as (m & Hm & Hr).
      exists m. split; [exact Hm|congruence].
  - rewrite !length_app. simpl. lia.
Qed.

(* ================================================================== *)
(** ** Substitution without look-behind, step by step *)

Lemma pieces_is_pieces_at r text : pieces r text = pieces_at r None text.
Proof. reflexivity. Qed.

Lemma re_sub_miss r tok c s :
  no_behind r = true -> match_at r None (c :: s) = None ->
  re_sub r tok (c :: s) = c :: re_sub r tok s.
Proof.
  intros Hb H. unfold re_sub. rewrite !pieces_is_pieces_at.
  rewrite (pieces_at_miss _ _ _ _ H), render_str_keep_cons. f_equal.
  unfold pieces_at. now apply render_str_indep.
Qed.

Lemma re_sub_hit r tok s m :
  no_behind r = true -> match_at r None s = Some m ->
  (length (ms_rest (m_end m)) < length s)%nat ->
  re_sub r tok s = tok ++ re_sub r tok (ms_rest (m_end m)).
Proof.
  intros Hb H Hl. unfold re_sub at 1. rewrite pieces_is_pieces_at.
  apply render_str_hit; eauto.
Qed.

Lemma needs_atom_sound a r : needs_atom a r -> forall st st',
  In st' (matches r st) ->
  exists c, In c (ms_rest st) /\ atom_match a c = true.
Proof.
  induction 1 as [| |r _ IH|r1 r2 _ IH|r1 r2 _ IH]; intros st st' H.
  - apply atom_matches in H as (x & E & Hx). exists x. rewrite E.
    split; [now left|exact Hx].
  - cbn [matches] in H. apply in_rev in H.
    apply run_spec in H as (pre & Hne & E & Hall & _).
    destruct pre as [|x pre]; [congruence|]. exists x.
    rewrite E. split; [now left|]. now inversion Hall.
  - cbn [matches] in H. apply in_map_iff in H as (st0 & _ & H0). eauto.
  - apply in_matches_seq in H as (st1 & H1 & _). eauto.
  - apply in_matches_seq in H as (st1 & H1 & H2).
    destruct (IH _ _ H2) as (c & Hc & Ha). exists c. split; [|exact Ha].
    apply matches_suffix in H1 as (pre & ->). apply in_or_app. now right.
Qed.

(** A text without any character of the class is left alone. *)
Lemma needs_atom_no_match a r text :
  needs_atom a r ->
  Forall (fun c => atom_match a c = false) text ->
  re_search r text = None.
Proof.
  intros Hr Hall. destruct (re_search r text) as [m|] eqn:E; [|reflexivity].
  apply re_search_some in E as (u & v & -> & H & _).
  apply (needs_atom_sound a r Hr) in H as (c & Hc & Ha). cbn [ms_rest] in Hc.
  rewrite Forall_forall in Hall. rewrite Hall in Ha; [discriminate|].
  apply in_or_app. now right.
Qed.

(* ================================================================== *)
(** ** Blanks *)

Lemma run_longest a g : forall s c,
  atom_match a c = true ->
  exists x l, rev (run a (c :: s) g) = x :: l /\ ms_rest x = skip_while a s.
Proof.
  induction s as [|d s IH]; intros c Hc; simpl; rewrite Hc.
  - simpl. eauto.
  - destruct (atom_match a d) eqn:Hd.
    + destruct (IH d Hd) as (x & l & E & Hx). simpl in E. rewrite Hd in E.
      simpl in E. simpl. rewrite E. simpl. eauto.
    + simpl. eauto.
Qed.

Lemma match_at_plus_hit a p c s :
  atom_match a c = true ->
  exists m, match_at (Plus a) p (c :: s) = Some m
            /\ ms_rest (m_end m) = skip_while a s.
Proof.
  intros Hc. unfold match_at. cbn [matches ms_rest ms_group].
  destruct (run_longest a None s c Hc) as (x & l & -> & Hx). simpl. eauto.
Qed.

Lemma match_at_plus_miss a p c s :
  atom_match a c = false -> match_at (Plus a) p (c :: s) = None.
Proof. intros Hc. unfold match_at. simpl. now rewrite Hc. Qed.

Lemma skip_while_length a s : (length (skip_while a s) <= length s)%nat.
Proof.
  induction s as [|c s IH]; simpl; [lia|].
  destruct (atom_match a c); simpl; lia.
Qed.

Lemma skip_while_head s : starts_with_space (skip_while ASpace s) = false.
Proof.
  induction s as [|c s IH]; simpl; [reflexivity|].
  destruct (is_space c) eqn:E; [exact IH|]. simpl. exact E.
Qed.

Lemma re_sub_ws_nil : re_sub ws_plus [space] [] = [].
Proof. reflexivity. Qed.

Lemma re_sub_ws_other c s :
  is_space c = false ->
  re_sub ws_plus [space] (c :: s) = c :: re_sub ws_plus [space] s.
Proof.
  intros Hc. apply re_sub_miss; [reflexivity|].
  now apply match_at_plus_miss.
Qed.

Lemma re_sub_ws_blank c s :
  is_space c = true ->
  re_sub ws_plus [space] (c :: s)
  = space :: re_sub ws_plus [space] (skip_while ASpace s).
Proof.
  intros Hc. destruct (match_at_plus_hit ASpace None c s Hc) as (m & Hm & Hr).
  unfold ws_plus. rewrite (re_sub_hit _ _ _ m); [|reflexivity|exact Hm|].
  - now rewrite Hr.
  - rewrite Hr. pose proof (skip_while_length ASpace s). simpl. lia.
Qed.

Lemma re_sub_ws_head s :
  starts_with_space s = false ->
  starts_with_space (re_sub ws_plus [space] s) = false.
Proof.
  destruct s as [|c s]; simpl; intros H; [reflexivity|].
  rewrite re_sub_ws_other by exact H. exact H.
Qed.

(** After the blanks are collapsed, every blank is a single space. *)
Lemma collapsed_re_sub_ws : forall s, collapsed (re_sub ws_plus [space] s) = true.
Proof.
  intros s. remember (length s) as n eqn:Hn. revert s Hn.
  induction n as [n IH] using lt_wf_ind. intros [|c s] Hn; [reflexivity|].
  simpl in Hn. destruct (is_space c) eqn:Hc.
  - rewrite re_sub_ws_blank by exact Hc. cbn [collapsed].
    change (is_space space) with true. cbv iota.
    rewrite Z.eqb_refl, re_sub_ws_head by apply skip_while_head. simpl.
    apply (IH (length (skip_while ASpace s))); [|reflexivity].
    pose proof (skip_while_length ASpace s). lia.
  - rewrite re_sub_ws_other by exact Hc. cbn [collapsed]. rewrite Hc. simpl.
    apply (IH (length s)); [lia|reflexivity].
Qed.

Lemma collapsed_tail c s : collapsed (c :: s) = true -> collapsed s = true.
Proof. simpl. intros H. now apply andb_true_iff in H as [_ H]. Qed.

Lemma collapsed_blank c s :
  collapsed (c :: s) = true -> is_space c = true ->
  c = space /\ starts_with_space s = false.
Proof.
  simpl. intros H Hc. rewrite Hc in H.
  apply andb_true_iff in H as [H _]. apply andb_true_iff in H as [H1 H2].
  apply Z.eqb_eq in H1. now apply negb_true_iff in H2.
Qed.

Lemma skip_while_none s :
  starts_with_space s = false -> skip_while ASpace s = s.
Proof. destruct s as [|c s]; simpl; [reflexivity|]. now intros ->. Qed.

(** Collapsing the blanks of a collapsed text changes nothing. *)
Lemma re_sub_ws_collapsed : forall t,
  collapsed t = true -> re_sub ws_plus [space] t = t.
Proof.
  induction t as [|c t IH]; intros H; [reflexivity|].
  pose proof (collapsed_tail _ _ H) as Ht.
  destruct (is_space c) eqn:Hc.
  - destruct (collapsed_blank _ _ H Hc) as [-> Hs].
    rewrite re_sub_ws_blank by exact Hc.
    rewrite skip_while_none by exact Hs. now rewrite IH.
  - rewrite re_sub_ws_other by exact Hc. now rewrite IH.
Qed.

Lemma lit_matches_starts w : forall st,
  starts_with w (ms_rest st) = true -> matches (lit w) st <> [].
Proof.
  induction w as [|x w IH]; intros st H; [discriminate|].
  cbn [lit matches]. simpl in H.
  destruct (ms_rest st) as [|c s] eqn:E; [discriminate|].
  apply andb_true_iff in H as [Hx Hw]. cbn [atom_match].
  rewrite Z.eqb_sym, Hx. cbn [flat_map]. rewrite app_nil_r. now apply IH.
Qed.

Lemma lit_no_match w st :
  starts_with w (ms_rest st) = false -> matches (lit w) st = [].
Proof.
  intros H. destruct (matches (lit w) st) as [|st' l] eqn:E; [reflexivity|].
  assert (Hin : In st' (matches (lit w) st)) by (rewrite E; now left).
  apply lit_matches in Hin. rewrite Hin, starts_with_self in H. discriminate.
Qed.

Lemma run_nil s g : starts_with_space s = false -> run ASpace s g = [].
Proof. destruct s as [|c s]; simpl; [reflexivity|]. now intros ->. Qed.

Lemma match_at_blank_ext p c s :
  is_space c = true -> starts_with_space s = false ->
  match_at re_spaces_before_ext p (c :: s)
  = if starts_with (py ".epub") s
    then Some (RMatch [c] None (MState (Some c) s None))
    else None.
Proof.
  intros Hc Hs. unfold match_at, re_spaces_before_ext, ws_plus.
  cbn [matches ms_rest ms_group run atom_match]. rewrite Hc.
  rewrite (run_nil s None Hs). cbn [rev app flat_map]. rewrite app_nil_r.
  destruct (starts_with (py ".epub") s) eqn:E.
  - pose proof (lit_matches_starts (py ".epub") (MState (Some c) s None) E) as H.
    fold ext in H. destruct (matches ext (MState (Some c) s None));
      [congruence|].
    now rewrite (consumed_app _ _ [c]).
  - pose proof (lit_no_match (py ".epub") (MState (Some c) s None) E) as H.
    fold ext in H. now rewrite H.
Qed.

Lemma match_at_other_ext p c s :
  is_space c = false -> match_at re_spaces_before_ext p (c :: s) = None.
Proof.
  intros Hc. unfold match_at, re_spaces_before_ext, ws_plus.
  cbn [matches ms_rest ms_group run atom_match]. now rewrite Hc.
Qed.

(** On a collapsed text the last substitution drops the single spaces that
    stand before ".epub". *)
Lemma strip_collapsed : forall t,
  collapsed t = true -> re_sub re_spaces_before_ext [] t = strip_simple t.
Proof.
  induction t as [|c t IH]; intros H; [reflexivity|].
  pose proof (collapsed_tail _ _ H) as Ht. cbn [strip_simple].
  destruct (is_space c) eqn:Hc.
  - destruct (collapsed_blank _ _ H Hc) as [-> Hs].
    pose proof (match_at_blank_ext None space t Hc Hs) as Hm.
    destruct (starts_with (py ".epub") t) eqn:E; cbn [andb].
    + rewrite (re_sub_hit re_spaces_before_ext _ _ _ eq_refl Hm); [|simpl; lia].
      simpl. now apply IH.
    + rewrite (re_sub_miss re_spaces_before_ext _ _ _ eq_refl Hm). now rewrite IH.
  - cbn [andb].
    rewrite (re_sub_miss re_spaces_before_ext _ _ _ eq_refl
               (match_at_other_ext None c t Hc)).
    now rewrite IH.
Qed.

Lemma strip_simple_head s :
  starts_with_space s = false -> starts_with_space (strip_simple s) = false.
Proof.
  destruct s as [|c s]; simpl; intros H; [reflexivity|].
  rewrite H. simpl. exact H.
Qed.

Lemma strip_simple_collapsed : forall t,
  collapsed t = true -> collapsed (strip_simple t) = true.
Proof.
  induction t as [|c t IH]; intros H; [reflexivity|].
  pose proof (collapsed_tail _ _ H) as Ht. cbn [strip_simple].
  destruct (is_space c && starts_with (py ".epub") t) eqn:E; [auto|].
  cbn [collapsed]. rewrite (IH Ht), andb_true_r.
  destruct (is_space c) eqn:Hc; [|reflexivity].
  destruct (collapsed_blank _ _ H Hc) as [-> Hs].
  now rewrite Z.eqb_refl, strip_simple_head.
Qed.

(** A word without dot and blank starts the stripped text exactly when it
    starts the text. *)
Lemma starts_with_strip_simple w :
  Forall (fun x => x <> cp "." /\ is_space x = false) w ->
  forall s, starts_with w (strip_simple s) = starts_with w s.
Proof.
  induction w as [|x w IH]; intros Hw s; [reflexivity|].
  inversion Hw as [|? ? [Hx1 Hx2] Hw']; subst.
  destruct s as [|c s]; [reflexivity|]. cbn [strip_simple].
  destruct (is_space c && starts_with (py ".epub") s) eqn:E.
  - apply andb_true_iff in E as [Hc Hs].
    change (py ".epub") with [46; 101; 112; 117; 98] in Hs.
    destruct s as [|d s]; [discriminate|]. cbn [starts_with] in Hs.
    apply andb_true_iff in Hs as [Hd _]. apply Z.eqb_eq in Hd. subst d.
    cbn [strip_simple]. change (is_space 46) with false. cbn [andb starts_with].
    destruct (Z.eqb_spec x 46) as [->|_]; [now elim Hx1|].
    destruct (Z.eqb_spec x c) as [->|_]; [congruence|]. reflexivity.
  - cbn [starts_with]. now rewrite IH.
Qed.

Lemma starts_with_cons x w c s :
  starts_with (x :: w) (c :: s) = (x =? c) && starts_with w s.
Proof. reflexivity. Qed.

Lemma strip_simple_ext_start t :
  starts_with_space t = false ->
  starts_with (py ".epub") (strip_simple t) = starts_with (py ".epub") t.
Proof.
  destruct t as [|d t]; [reflexivity|]. cbn [starts_with_space].
  intros Hs. cbn [strip_simple]. rewrite Hs. cbn [andb].
  change (py ".epub") with [46; 101; 112; 117; 98].
  rewrite !(starts_with_cons 46). f_equal.
  apply starts_with_strip_simple. repeat constructor; discriminate.
Qed.

Lemma strip_simple_idem : forall t,
  collapsed t = true -> strip_simple (strip_simple t) = strip_simple t.
Proof.
  induction t as [|c t IH]; intros H; [reflexivity|].
  pose proof (collapsed_tail _ _ H) as Ht. cbn [strip_simple].
  destruct (is_space c && starts_with (py ".epub") t) eqn:E; [auto|].
  cbn [strip_simple]. rewrite (IH Ht).
  destruct (is_space c) eqn:Hc; [|reflexivity].
  destruct (collapsed_blank _ _ H Hc) as [-> Hs]. cbn [andb] in *.
  now rewrite strip_simple_ext_start, E.
Qed.

(* ================================================================== *)
(** ** Canonical inputs are stable *)

Lemma settled_parts c :
  is_settled_char c = true ->
  is_fullwidth_alnum c = false /\ is_bracket c = false
  /\ is_digit c = false /\ is_kanji_numeral c = false
  /\ is_symbol_number c = false /\ is_unsafe c = false /\ is_colon c = false.
Proof.
  unfold is_settled_char, is_canonical_char, is_numbering. intros H.
  repeat match goal with
         | H : _ && _ = true |- _ => apply andb_true_iff in H; destruct H
         | H : negb _ = true |- _ => apply negb_true_iff in H
         | H : _ || _ = false |- _ => apply orb_false_iff in H; destruct H
         end.
  auto 10.
Qed.

(** A class given by a list of characters none of which is settled. *)
Lemma settled_outside a (chars : str) :
  (forall c, atom_match a c = true -> In c chars) ->
  forallb (fun c => negb (is_settled_char c)) chars = true ->
  forall c, is_settled_char c = true -> atom_match a c = false.
Proof.
  intros Hin Hall c Hc. destruct (atom_match a c) eqn:E; [|reflexivity].
  rewrite forallb_forall in Hall. apply Hin, Hall in E.
  rewrite Hc in E. discriminate.
Qed.

Ltac class_chars :=
  let c := fresh "c" in
  let H := fresh "H" in
  intros c H; cbn in H; rewrite ?in_range_one in H; crush_ranges; subst;
  try discriminate; simpl; tauto.

Lemma settled_no_lenticular c :
  is_settled_char c = true -> atom_match (chr1 "【") c = false.
Proof.
  apply (settled_outside _ [cp "【"]); [|vm_compute; reflexivity].
  intros x H. cbn in H. apply Z.eqb_eq in H. now left.
Qed.

Lemma settled_no_round c :
  is_settled_char c = true -> atom_match (chr1 "(") c = false.
Proof.
  apply (settled_outside _ [cp "("]); [|vm_compute; reflexivity].
  intros x H. cbn in H. apply Z.eqb_eq in H. now left.
Qed.

Lemma settled_no_opener c :
  is_settled_char c = true -> atom_match label_open c = false.
Proof.
  apply (settled_outside _ (py "(＜〈")); [class_chars|vm_compute; reflexivity].
Qed.

Lemma settled_no_colon c :
  is_settled_char c = true -> atom_match (ASet [one "："; one ":"]) c = false.
Proof.
  apply (settled_outside _ (py "：:")); [class_chars|vm_compute; reflexivity].
Qed.

Lemma settled_no_kanji c :
  is_settled_char c = true -> atom_match kanji_class c = false.
Proof.
  apply (settled_outside _ (join (py "|") kanji_numbers));
    [class_chars|vm_compute; reflexivity].
Qed.

Lemma settled_no_digit c :
  is_settled_char c = true -> atom_match ADigit c = false.
Proof. intros H. now apply settled_parts in H as (_ & _ & H & _). Qed.

Lemma settled_no_symbol lo hi off c :
  In (lo, hi, off) symbol_blocks ->
  is_settled_char c = true -> atom_match (ASet [rng lo hi]) c = false.
Proof.
  intros Hin H. apply settled_parts in H as (_ & _ & _ & _ & H & _).
  destruct (atom_match (ASet [rng lo hi]) c) eqn:E; [|reflexivity].
  cbn in E. rewrite orb_false_r in E.
  assert (is_symbol_number c = true); [|congruence].
  unfold is_symbol_number. apply existsb_exists. exists (lo, hi, off). auto.
Qed.

Section Settled.

Variable t : str.
Hypothesis settled : Forall (fun c => is_settled_char c = true) t.

Lemma settled_class_none a :
  (forall c, is_settled_char c = true -> atom_match a c = false) ->
  Forall (fun c => atom_match a c = false) t.
Proof. intros H. eapply Forall_impl; [|exact settled]. exact H. Qed.

Lemma settled_pad_numbers : pad_numbers t = Ok t.
Proof.
  unfold pad_numbers, pad_numeric_only_string_enclosed_in_round_brackets,
    pad_brackets_spaced, pad_brackets_ext.
  rewrite (needs_atom_no_match (chr1 "(") re_brackets_spaced t);
    [|apply NA_seq_r, NA_seq_l, NA_atom
     |apply settled_class_none, settled_no_round].
  cbn [bind].
  rewrite (needs_atom_no_match (chr1 "(") re_brackets_ext t);
    [|apply NA_seq_r, NA_seq_l, NA_atom
     |apply settled_class_none, settled_no_round].
  cbn [bind]. unfold pad_kanji_number.
  rewrite (needs_atom_no_match kanji_class re_kanji_search t);
    [|apply NA_seq_r, NA_seq_l, NA_group, NA_atom
     |apply settled_class_none, settled_no_kanji].
  unfold pad_symbol_numbers, pad_symbol_number.
  rewrite (needs_atom_no_match (ASet [rng "①" "⑨"]) (re_symbol_search "①" "⑨") t);
    [|apply NA_seq_r, NA_seq_l, NA_group, NA_atom
     |apply settled_class_none; intros c;
      apply (settled_no_symbol "①" "⑨" 0x242F); simpl; tauto].
  cbn [bind].
  rewrite (needs_atom_no_match (ASet [rng "⑴" "⑼"]) (re_symbol_search "⑴" "⑼") t);
    [|apply NA_seq_r, NA_seq_l, NA_group, NA_atom
     |apply settled_class_none; intros c;
      apply (settled_no_symbol "⑴" "⑼" 0x2443); simpl; tauto].
  cbn [bind].
  rewrite (needs_atom_no_match (ASet [rng "⒈" "⒐"]) (re_symbol_search "⒈" "⒐") t);
    [|apply NA_seq_r, NA_seq_l, NA_group, NA_atom
     |apply settled_class_none; intros c;
      apply (settled_no_symbol "⒈" "⒐" 0x2457); simpl; tauto].
  cbn [bind].
  rewrite (needs_atom_no_match (ASet [rng "⓵" "⓽"]) (re_symbol_search "⓵" "⓽") t);
    [|apply NA_seq_r, NA_seq_l, NA_group, NA_atom
     |apply settled_class_none; intros c;
      apply (settled_no_symbol "⓵" "⓽" 0x24C4); simpl; tauto].
  cbn [bind]. unfold pad_number_before_ext.
  rewrite (needs_atom_no_match ADigit re_number_before_ext t);
    [|apply NA_seq_r, NA_seq_l, NA_group, NA_plus
     |apply settled_class_none, settled_no_digit].
  reflexivity.
Qed.

Lemma settled_annotations :
  re_sub re_label [] (re_sub re_promotion [] t) = t.
Proof.
  rewrite (re_sub_no_match re_promotion).
  - apply re_sub_no_match.
    apply (needs_atom_no_match label_open); [apply NA_seq_l, NA_atom|].
    apply settled_class_none, settled_no_opener.
  - apply (needs_atom_no_match (chr1 "【")); [apply NA_seq_l, NA_atom|].
    apply settled_class_none, settled_no_lenticular.
Qed.

Lemma settled_maps :
  map to_halfwidth_bracket (map to_safe_symbol (map to_halfwidth t)) = t.
Proof.
  rewrite !map_map. rewrite <- (map_id t) at 2. apply map_ext_in.
  intros c Hc. rewrite Forall_forall in settled. apply settled in Hc.
  apply settled_parts in Hc as (H1 & H2 & _ & _ & _ & H3 & _).
  unfold to_halfwidth. rewrite H1. unfold to_safe_symbol. rewrite H3.
  unfold to_halfwidth_bracket.
  destruct (is_fullwidth_round_bracket c) eqn:E; [|reflexivity].
  unfold is_fullwidth_round_bracket in E. crush_ranges; subst; discriminate.
Qed.

Hypothesis blanks : collapsed t = true.

Lemma settled_clean_title : clean_title t = Ok t.
Proof.
  rewrite clean_title_eq, settled_maps, settled_annotations.
  rewrite (re_sub_no_match re_colon).
  - now rewrite re_sub_ws_collapsed.
  - apply (needs_atom_no_match (ASet [one "："; one ":"])); [apply NA_atom|].
    apply settled_class_none, settled_no_colon.
Qed.

(** On a settled text only the blanks before the extension go. *)
Lemma settled_format_book_title : format_book_title t = Ok (strip_simple t).
Proof.
  unfold format_book_title. rewrite settled_clean_title. cbn [bind].
  rewrite settled_pad_numbers. cbn [bind]. unfold strip_before_ext.
  now rewrite re_sub_ws_collapsed, strip_collapsed.
Qed.

End Settled.

Lemma re_sub_class a tok : forall s,
  re_sub (Atom a) tok s
  = flat_map (fun c => if atom_match a c then tok else [c]) s.
Proof.
  induction s as [|c s IH]; [reflexivity|]. cbn [flat_map].
  destruct (atom_match a c) eqn:E.
  - rewrite (re_sub_hit (Atom a) _ _ _ eq_refl (match_at_atom_hit a None c s E));
      [|simpl; lia].
    cbn [m_end ms_rest]. now rewrite IH.
  - rewrite (re_sub_miss (Atom a) _ _ _ eq_refl (match_at_atom_miss a None c s E)).
    now rewrite IH.
Qed.

Lemma colon_class c : atom_match (ASet [one "："; one ":"]) c = is_colon c.
Proof. unfold is_colon. cbn. now rewrite !in_range_one, orb_false_r. Qed.

Lemma strip_simple_Forall (P : Z -> Prop) : forall s,
  Forall P s -> Forall P (strip_simple s).
Proof.
  induction s as [|c s IH]; intros H; [constructor|].
  inversion H; subst. cbn [strip_simple].
  destruct (is_space c && starts_with (py ".epub") s); auto.
Qed.

(** What the three rewriters make of a canonical character: a settled one,
    or a colon, which the colon substitution turns into a space. *)
Lemma canonical_char_rewritten c :
  is_canonical_char c = true ->
  let c3 := to_halfwidth_bracket (to_safe_symbol (to_halfwidth c)) in
  is_settled_char c3 = true \/ is_colon c3 = true.
Proof.
  intros H. pose proof H as H'. unfold is_canonical_char in H'.
  apply andb_true_iff in H' as [H' H3]. apply andb_true_iff in H' as [H1 H2].
  apply negb_true_iff in H1, H2.
  unfold to_halfwidth. rewrite H1. unfold to_safe_symbol.
  destruct (is_unsafe c) eqn:Eu.
  - apply unsafe_cases in Eu. simpl in Eu.
    repeat (destruct Eu as [<-|Eu];
            [first [ discriminate H
                   | left; vm_compute; reflexivity
                   | right; vm_compute; reflexivity ]|]).
    contradiction.
  - assert (E : to_halfwidth_bracket c = c).
    { unfold to_halfwidth_bracket.
      destruct (is_fullwidth_round_bracket c) eqn:E; [|reflexivity].
      unfold is_fullwidth_round_bracket in E. crush_ranges; subst; discriminate. }
    cbv zeta. rewrite E. destruct (is_colon c) eqn:Ec; [now right|left].
    unfold is_settled_char. now rewrite H, Eu, Ec.
Qed.

Lemma canonical_clean_title x :
  canonical_input x = true ->
  exists t, clean_title x = Ok t
    /\ Forall (fun c => is_settled_char c = true) t /\ collapsed t = true.
Proof.
  intros Hx. rewrite clean_title_eq.
  set (x3 := map to_halfwidth_bracket (map to_safe_symbol (map to_halfwidth x))).
  assert (H3 : Forall (fun c => is_settled_char c = true \/ is_colon c = true) x3).
  { unfold x3. rewrite !map_map. apply Forall_forall. intros c Hc.
    apply in_map_iff in Hc as (c0 & <- & Hc).
    apply canonical_char_rewritten. unfold canonical_input in Hx.
    rewrite forallb_forall in Hx. auto. }
  assert (Hp : re_sub re_promotion [] x3 = x3).
  { apply re_sub_no_match.
    apply (needs_atom_no_match (chr1 "【")); [apply NA_seq_l, NA_atom|].
    eapply Forall_impl; [|exact H3]. intros c [Hc|Hc].
    - now apply settled_no_lenticular.
    - unfold is_colon in Hc. crush_ranges; subst; reflexivity. }
  assert (Hl : re_sub re_label [] x3 = x3).
  { apply re_sub_no_match.
    apply (needs_atom_no_match label_open); [apply NA_seq_l, NA_atom|].
    eapply Forall_impl; [|exact H3]. intros c [Hc|Hc].
    - now apply settled_no_opener.
    - unfold is_colon in Hc. crush_ranges; subst; reflexivity. }
  rewrite Hp, Hl. eexists. split; [reflexivity|].
  split; [|apply collapsed_re_sub_ws].
  apply re_sub_Forall; [|repeat constructor].
  unfold re_colon. rewrite re_sub_class. apply Forall_forall. intros c Hc.
  apply in_flat_map in Hc as (c3 & Hc3 & Hc).
  rewrite Forall_forall in H3. specialize (H3 c3 Hc3).
  rewrite colon_class in Hc. destruct (is_colon c3) eqn:E.
  - destruct Hc as [<- | []]. reflexivity.
  - destruct Hc as [<- | []]. destruct H3 as [H3|H3]; [exact H3|discriminate].
Qed.

(* ================================================================== *)
(** ** The bar in the class of [pad_kanji_number] *)

Lemma search_from_leftmost r : forall s prev b m,
  search_from r prev s = Some (b, m) ->
  forall u v, s = u ++ v -> (length u < length b)%nat ->
              match_at r (prev_after prev u) v = None.
Proof.
  induction s as [|c s IH]; simpl; intros prev b m H u v E Hl.
  - destruct (match_at r prev []); [|discriminate].
    injection H as <- _. simpl in Hl. lia.
  - destruct (match_at r prev (c :: s)) eqn:E0.
    + injection H as <- _. simpl in Hl. lia.
    + destruct (search_from r (Some c) s) as [[b' m']|] eqn:E1; [|discriminate].
      injection H as <- <-. destruct u as [|c' u]; simpl in E.
      * subst v. exact E0.
      * injection E as <- ->. simpl in Hl. simpl.
        eapply IH; eauto. lia.
Qed.

Lemma first_split_eq (P : Z -> bool) : forall u x v u' x' v',
  u ++ x :: v = u' ++ x' :: v' ->
  Forall (fun c => P c = false) u -> Forall (fun c => P c = false) u' ->
  P x = true -> P x' = true -> x = x'.
Proof.
  induction u as [|c u IH]; intros x v [|c' u'] x' v' E Hu Hu' Hx Hx';
    simpl in E; injection E as E1 E2.
  - exact E1.
  - subst c'. inversion Hu'. congruence.
  - subst c. inversion Hu. congruence.
  - inversion Hu. inversion Hu'. eapply IH; eauto.
Qed.

Lemma app_eq_app_le (b t u t' : str) :
  b ++ t = u ++ t' -> (length b <= length u)%nat ->
  exists w, u = b ++ w /\ t = w ++ t'.
Proof.
  revert u. induction b as [|c b IH]; intros u E Hl; simpl in *.
  - exists u. auto.
  - destruct u as [|c' u]; simpl in *; [lia|].
    injection E as <- E. destruct (IH u E) as (w & -> & ->); [lia|].
    exists w. auto.
Qed.

Lemma kanji_tail_matches st :
  matches (ws_star ~> kan ~> ws_star)%re st <> [].
Proof.
  apply nonempty_in.
  assert (Hs : forall s, In s (matches ws_star s))
    by (intros s; simpl; apply in_or_app; right; now left).
  exists st. apply in_matches_seq. exists st. split; [apply Hs|].
  apply in_matches_seq. exists st. split; [|apply Hs].
  simpl. apply in_or_app. right. now left.
Qed.

Lemma kanji_match_at_bar p v :
  match_at re_kanji_search p (cp "|" :: v) <> None.
Proof.
  intros E. apply match_at_none in E. revert E. apply nonempty_in.
  pose proof (kanji_tail_matches (MState (Some (cp "|")) v (Some [cp "|"]))) as H.
  apply nonempty_in in H as (x & Hx). exists x.
  unfold re_kanji_search. apply in_matches_seq.
  exists (MState p (cp "|" :: v) None). split.
  - simpl. now left.
  - apply in_matches_seq. eexists. split; [|exact Hx].
    cbn [matches ms_rest ms_group]. change (atom_match kanji_class (cp "|")) with true.
    cbv iota. cbn [map]. left. f_equal.
    now rewrite (consumed_app _ _ [cp "|"]).
Qed.

Lemma space_not_kanji c :
  is_space c = true -> atom_match kanji_class c = false.
Proof.
  intros H. destruct (atom_match kanji_class c) eqn:E; [|reflexivity].
  cbn in E. rewrite !in_range_one in E. crush_ranges; subst; discriminate.
Qed.

(** When the bar comes before any kanji numeral, it is what the search
    captures. *)
Lemma kanji_captures_bar u v :
  Forall (fun c => atom_match kanji_class c = false) u ->
  exists m, re_search re_kanji_search (u ++ cp "|" :: v) = Some m
            /\ m_group1 m = Some [cp "|"].
Proof.
  intros Hu. unfold re_search.
  destruct (search_from re_kanji_search None (u ++ cp "|" :: v))
    as [[b m]|] eqn:E.
  2:{ exfalso. revert E. apply search_from_found, kanji_match_at_bar. }
  exists m. split; [reflexivity|].
  assert (Hl : (length b <= length u)%nat).
  { destruct (Nat.le_gt_cases (length b) (length u)) as [H|H]; [exact H|].
    exfalso. apply (kanji_match_at_bar (prev_after None u) v).
    eapply search_from_leftmost; eauto. }
  apply search_from_some in E as (t & Et & Hm).
  apply match_at_some in Hm as (Hin & _ & ->).
  destruct (app_eq_app_le _ _ _ _ (eq_sym Et) Hl) as (w & -> & Ew).
  apply Forall_app in Hu as [_ Hw].
  unfold re_kanji_search in Hin.
  apply in_matches_seq in Hin as (s1 & H1 & Hin).
  apply capture_atom in Hin as (c & q & -> & Hc & Hr); [|reflexivity].
  cbn [matches ws_star] in H1.
  assert (Hpre : exists pre, t = pre ++ c :: q
                   /\ Forall (fun x => atom_match kanji_class x = false) pre).
  { apply in_app_or in H1 as [H1 | [<- | []]].
    - apply in_rev in H1. apply run_spec in H1 as (pre & _ & Ep & Hall & _).
      cbn [ms_rest] in Ep. exists pre. split; [now rewrite Ep, Hr|].
      eapply Forall_impl; [|exact Hall]. intros x. apply space_not_kanji.
    - exists []. split; [exact Hr|constructor]. }
  destruct Hpre as (pre & Ep & Hpre). rewrite Ep in Ew.
  do 2 f_equal.
  eapply (first_split_eq _ _ _ _ _ _ _ Ew); eauto.
Qed.

(** *** The kanji rule inside [format_book_title] *)

Lemma kanji_rule_in_title title :
  exists t1 t2,
    clean_title title = Ok t1
    /\ pad_numeric_only_string_enclosed_in_round_brackets t1 = Ok t2
    /\ existsb (Z.eqb (cp "|")) t2 = false
    /\ match re_search re_kanji_search t2 with
       | Some m =>
           exists w, dict_get kanji_mapping (m_group1 m) = Some w
             /\ kanji_number m = [space] ++ w ++ [space]
             /\ Forall (fun c => is_ascii_digit c = true) w
       | None => pad_kanji_number t2 = t2
       end.
Proof.
  destruct (clean_title_keeps title) as (t1 & E1 & H1).
  destruct (pad_numeric_keeps (fun c => is_clean c = true) eq_refl
              ascii_digit_clean t1) as (t2 & E2 & H2).
  specialize (H2 H1). exists t1, t2. repeat split; auto.
  - destruct (existsb (Z.eqb (cp "|")) t2) eqn:E; [|reflexivity].
    apply existsb_exists in E as (c & Hc & Hb). apply Z.eqb_eq in Hb. subst c.
    rewrite Forall_forall in H2. now apply H2 in Hc.
  - destruct (re_search re_kanji_search t2) as [m|] eqn:E.
    + apply one_char_capture in E as (c & Eg & Hc & Hin).
      rewrite Forall_forall in H2. apply H2, is_clean_not_bar in Hin.
      apply kanji_class_cases in Hc as [Hc|(w & Hw)]; [contradiction|].
      exists w. unfold kanji_number. rewrite Eg, Hw. repeat split.
      apply dict_get_in in Hw. revert w Hw. apply Forall_forall.
      vm_compute. repeat constructor.
    + unfold pad_kanji_number. now rewrite E.
Qed.

(* ================================================================== *)
(** * The claims *)





(** C3, as the code has it: the third example ends in "03", because the
    rule for digits before the extension pads the "3" that the kanji rule
    wrote. *)
Theorem numbering_examples :
  format_book_title (py "Title (1) Sub.epub") = Ok (py "Title 01 Sub.epub")
  /\ format_book_title (py "Title(12).epub") = Ok (py "Title 12.epub")
  /\ pad_kanji_number (py "Title 参 巻.epub") = py "Title 3 .epub"
  /\ pad_number_before_ext (py "Title 3 .epub") = Ok (py "Title 03.epub")
  /\ format_book_title (py "Title 参 巻.epub") = Ok (py "Title 03.epub")
  /\ format_book_title (py "Title①.epub") = Ok (py "Title 01.epub").
Proof. repeat split; vm_compute; reflexivity. Qed.

(** C3 as stated fails on its third example. *)
Lemma kanji_example_is_padded :
  format_book_title (py "Title 参 巻.epub") <> Ok (py "Title 3.epub").
Proof. vm_compute. discriminate. Qed.




(** C5, as the code has it.  The first substitution removes a span 【...】,
    brackets included, when it is the leftmost 【 and its content is one or
    more characters (no line break, no 】) followed by one of the promotion
    tokens.  The second removes a span opened by ( ＜ 〈 and closed by 〉 ＞ ),
    when it is the leftmost opening bracket and its content (no line break,
    no closing bracket) ends with one of the label tokens.  Both go on with
    the text behind the span.  The example of the specification holds. *)
Theorem annotations_removed (pre u tok post : str) (o k : Z) :
  (Forall (fun c => c <> cp "【") pre ->
   u <> [] ->
   Forall (fun c => c <> newline /\ c <> cp "】") u ->
   In tok promotion_tokens ->
   re_sub re_promotion [] (pre ++ [cp "【"] ++ u ++ tok ++ [cp "】"] ++ post)
   = pre ++ re_sub re_promotion [] post)
  /\ (Forall (fun c => atom_match label_open c = false) pre ->
      atom_match label_open o = true ->
      Forall (fun c => c <> newline /\ atom_match label_close c = false) u ->
      In tok label_tokens ->
      atom_match label_close k = true ->
      re_sub re_label [] (pre ++ [o] ++ u ++ tok ++ [k] ++ post)
      = pre ++ re_sub re_label [] post)
  /\ format_book_title (py "【電子版限定特典付き】Title.epub")
     = Ok (py "Title.epub").
Proof.
  split; [apply promotion_removed|].
  split; [apply label_removed|].
  vm_compute. reflexivity.
Qed.

Lemma annotations_removed_witness :
  re_sub re_promotion [] (py "A【電子版限定特典付き】Title (文庫).epub")
  = py "A" ++ re_sub re_promotion [] (py "Title (文庫).epub")
  /\ re_sub re_label [] (py "Title (角川文庫).epub")
     = py "Title " ++ re_sub re_label [] (py ".epub").
Proof.
  split.
  - apply (annotations_removed (py "A") (py "電子版限定") (py "特典付き")
             (py "Title (文庫).epub") 0 0).
    + repeat constructor; discriminate.
    + discriminate.
    + repeat constructor; discriminate.
    + vm_compute. tauto.
  - apply (annotations_removed (py "Title ") (py "角川") (py "文庫")
             (py ".epub") (cp "(") (cp ")")).
    + repeat constructor.
    + reflexivity.
    + repeat constructor; discriminate.
    + vm_compute. tauto.
    + reflexivity.
Defined.

(** C5 as stated fails: the content of "(文庫版)" contains the token 文庫, and
    the content of "【付き】" ends with the token 付き, yet neither span is
    removed. *)
Lemma annotation_spans_kept :
  contains (py "文庫") (py "文庫版") = true
  /\ In (py "文庫") label_tokens
  /\ re_sub re_label [] (py "(文庫版)Title.epub") = py "(文庫版)Title.epub"
  /\ format_book_title (py "(文庫版)Title.epub") = Ok (py "(文庫版)Title.epub")
  /\ In (py "付き") promotion_tokens
  /\ re_sub re_promotion [] (py "【付き】Title.epub") = py "【付き】Title.epub"
  /\ format_book_title (py "【付き】Title.epub") = Ok (py "【付き】Title.epub").
Proof.
  repeat split; try (vm_compute; reflexivity); vm_compute; tauto.
Qed.

(** C6. The unsafe-symbol rewriter never raises; it maps each of the ten
    characters (< > : / \ | ! ? * and the double quote) to the code point
    0xFEE0 above it, keeps every other character, and its result holds none
    of the ten. *)
Theorem unsafe_symbols_rewritten (text : str) :
  exists out,
    replace_unsafe_symbol_to_safe_symbol text = Ok out
    /\ out = map (fun c => if is_unsafe c then c + 0xFEE0 else c) text
    /\ Forall (fun c => is_unsafe c = false) out.
Proof.
  exists (map to_safe_symbol text). split; [apply replace_unsafe_map|].
  split; [reflexivity|].
  apply Forall_forall. intros c Hc. apply in_map_iff in Hc as (x & <- & _).
  apply to_safe_symbol_safe.
Qed.

(** C7. [format_book_author] is the full-width letters-and-digits rewrite
    followed by the unsafe-symbol rewrite and nothing else; it never raises,
    maps the empty string to the empty string and the full-width "Author"
    to "Author". *)
Theorem format_book_author_composition :
  (forall author,
      format_book_author author
      = (t <- replace_fullwidth_alpha_numeral_to_halfwidth author ;;
         replace_unsafe_symbol_to_safe_symbol t))
  /\ (forall author,
        format_book_author author
        = Ok (map to_safe_symbol (map to_halfwidth author)))
  /\ format_book_author [] = Ok []
  /\ format_book_author (py "Ａｕｔｈｏｒ") = Ok (py "Author").
Proof.
  pose proof format_book_author_map as H.
  split; [|split; [exact H|split; [reflexivity|vm_compute; reflexivity]]].
  intros author. rewrite H, replace_fullwidth_alnum_map. cbn [bind].
  now rewrite replace_unsafe_map.
Qed.








(* ================================================================== *)
(** * Further properties of the source *)

(** ** Where a match can end *)

Lemma avoids_sound chars a c :
  avoids chars a = true -> atom_match a c = true -> ~ In c chars.
Proof.
  unfold avoids. rewrite forallb_forall. intros H Hc Hin.
  apply H in Hin. rewrite Hc in Hin. discriminate.
Qed.

Lemma run_outside chars a : avoids chars a = true -> forall s g st',
  In st' (run a s g) ->
  exists pre c, s = pre ++ c :: ms_rest st' /\ ~ In c chars.
Proof.
  intros Ha. induction s as [|x s IH]; simpl; intros g st' H; [contradiction|].
  destruct (atom_match a x) eqn:E; [|contradiction].
  destruct H as [<-|H].
  - exists [], x. split; [reflexivity|]. eapply avoids_sound; eauto.
  - destruct (IH _ _ H) as (pre & c & -> & Hc).
    exists (x :: pre), c. split; [reflexivity|exact Hc].
Qed.

Lemma ends_outside_sound chars r :
  (ends_outside chars r = true -> forall st st',
     In st' (matches r st) ->
     exists pre c, ms_rest st = pre ++ c :: ms_rest st' /\ ~ In c chars)
  /\ (ends_outside_or_empty chars r = true -> forall st st',
        In st' (matches r st) ->
        ms_rest st = ms_rest st'
        \/ exists pre c, ms_rest st = pre ++ c :: ms_rest st' /\ ~ In c chars).
Proof.
  induction r as [|a|r1 [S1 L1] r2 [S2 L2]|r1 [S1 L1] r2 [S2 L2]|r1 [S1 L1]
                  |a|a|a|a|r1 [S1 L1]|r1 _|a];
    cbn [ends_outside ends_outside_or_empty]; split; try discriminate;
    intros Hr st st' H.
  - destruct H as [<-|[]]. now left.
  - simpl in H. destruct (ms_rest st) as [|x s] eqn:E; [contradiction|].
    destruct (atom_match a x) eqn:Ex; [|contradiction].
    destruct H as [<-|[]]. exists [], x. split; [reflexivity|].
    eapply avoids_sound; eauto.
  - simpl in H. destruct (ms_rest st) as [|x s] eqn:E; [contradiction|].
    destruct (atom_match a x) eqn:Ex; [|contradiction].
    destruct H as [<-|[]]. right. exists [], x. split; [reflexivity|].
    eapply avoids_sound; eauto.
  - apply in_matches_seq in H as (st1 & H1 & H2).
    destruct (matches_suffix _ _ _ H1) as (p1 & E1).
    apply orb_true_iff in Hr as [Hr|Hr].
    + destruct (S2 Hr _ _ H2) as (pre & c & E2 & Hc).
      exists (p1 ++ pre), c. rewrite E1, E2, <- app_assoc. auto.
    + apply andb_true_iff in Hr as [Ha Hb].
      destruct (S1 Ha _ _ H1) as (pre & c & E & Hc).
      destruct (L2 Hb _ _ H2) as [E2|(pre2 & c2 & E2 & Hc2)].
      * exists pre, c. rewrite E, E2. auto.
      * exists (p1 ++ pre2), c2. rewrite E1, E2, <- app_assoc. auto.
  - apply in_matches_seq in H as (st1 & H1 & H2).
    destruct (matches_suffix _ _ _ H1) as (p1 & E1).
    apply orb_true_iff in Hr as [Hr|Hr].
    + destruct (S2 Hr _ _ H2) as (pre & c & E2 & Hc).
      right. exists (p1 ++ pre), c. rewrite E1, E2, <- app_assoc. auto.
    + apply andb_true_iff in Hr as [Ha Hb].
      destruct (L2 Hb _ _ H2) as [E2|(pre2 & c2 & E2 & Hc2)].
      * rewrite <- E2. apply (L1 Ha _ _ H1).
      * right. exists (p1 ++ pre2), c2. rewrite E1, E2, <- app_assoc. auto.
  - apply andb_true_iff in Hr as [Ha Hb]. simpl in H.
    apply in_app_or in H as [H|H]; eauto.
  - apply andb_true_iff in Hr as [Ha Hb]. simpl in H.
    apply in_app_or in H as [H|H]; eauto.
  - simpl in H. apply in_app_or in H as [H|[<-|[]]]; [eauto|now left].
  - simpl in H. apply in_app_or in H as [H|[<-|[]]]; [|now left].
    apply in_rev in H. right. eapply run_outside; eauto.
  - simpl in H. apply in_rev in H. eapply run_outside; eauto.
  - simpl in H. apply in_rev in H. right. eapply run_outside; eauto.
  - simpl in H. destruct H as [<-|H]; [now left|].
    right. eapply run_outside; eauto.
  - simpl in H. eapply run_outside; eauto.
  - simpl in H. right. eapply run_outside; eauto.
  - simpl in H. apply in_map_iff in H as (st1 & <- & H1). simpl. eauto.
  - simpl in H. apply in_map_iff in H as (st1 & <- & H1). simpl. eauto.
  - simpl in H. destruct (matches r1 st); [contradiction|].
    destruct H as [<-|[]]. now left.
  - simpl in H. destruct (ms_prev st) as [c|]; [|contradiction].
    destruct (atom_match a c); [|contradiction].
    destruct H as [<-|[]]. now left.
Qed.

(** ** A suffix that no match can reach *)

Lemma suffix_after (a rest s w : str) c :
  a ++ c :: rest = s ++ w -> ~ In c w -> exists s', rest = s' ++ w.
Proof.
  intros E Hc. apply app_eq_app in E as (l & [[-> E]|[-> E]]).
  - elim Hc. rewrite E. apply in_or_app. right. now left.
  - destruct l as [|x l]; simpl in E.
    + elim Hc. rewrite <- E. now left.
    + injection E as _ ->. eauto.
Qed.

Lemma render_str_keeps_suffix chars r tok w :
  ends_outside chars r = true -> incl w chars ->
  forall fuel prev s, exists x,
    render_str tok (pieces_from fuel r prev (s ++ w)) = x ++ w.
Proof.
  intros Hr Hw. induction fuel as [|fuel IH]; intros prev s; simpl.
  - exists s. now rewrite app_nil_r.
  - destruct (search_from r prev (s ++ w)) as [[b m]|] eqn:E.
    + destruct (search_from_some _ _ _ _ _ E) as (t & Et & Hm).
      destruct (match_at_some _ _ _ _ Hm) as (Hin & E0 & _).
      destruct (proj1 (ends_outside_sound chars r) Hr _ _ Hin)
        as (pre & c & Ec & Hc).
      simpl in Ec.
      assert (G : m_group0 m = pre ++ [c]).
      { apply app_inv_tail with (l := ms_rest (m_end m)).
        rewrite <- E0, <- app_assoc. exact Ec. }
      destruct (suffix_after (b ++ pre) (ms_rest (m_end m)) s w c) as (s' & Es).
      { rewrite <- app_assoc, <- Ec. now symmetry. }
      { intros Hin'. apply Hc, Hw, Hin'. }
      destruct (m_group0 m) as [|g0 g] eqn:G0; [now destruct pre|].
      rewrite Es. simpl. destruct (IH (ms_prev (m_end m)) s') as (x & ->).
      exists (b ++ tok ++ x). now rewrite <- !app_assoc.
    + exists s. simpl. now rewrite app_nil_r.
Qed.

Lemma re_sub_keeps_suffix chars r tok w s :
  ends_outside chars r = true -> incl w chars ->
  exists x, re_sub r tok (s ++ w) = x ++ w.
Proof. intros Hr Hw. now apply render_str_keeps_suffix with (chars := chars). Qed.

Lemma run_rules_keep_suffix chars w : incl w chars -> forall rules,
  Forall (fun ru => ends_outside chars (pattern ru) = true) rules ->
  forall s t, run_rules rules (s ++ w) = Ok t -> exists x, t = x ++ w.
Proof.
  intros Hw. induction rules as [|ru rules IH]; intros Hr s t.
  - intros [= <-]. eauto.
  - inversion Hr as [|? ? H1 H2]; subst. rewrite run_rules_cons.
    unfold apply_rule at 1.
    destruct (re_search (guard ru) (s ++ w)) as [m|]; [|now apply IH].
    destruct (token ru m) as [number|e]; [|discriminate]. cbn [bind].
    destruct (re_sub_keeps_suffix chars (pattern ru) number w s H1 Hw)
      as (x & ->).
    now apply IH.
Qed.

Lemma numbering_rules_end_outside :
  Forall (fun ru => ends_outside (py ".epub") (pattern ru) = true)
         numbering_rules.
Proof. repeat constructor. Qed.

(** A text that ends with ".epub" still does after the whole pipeline. *)
Lemma format_book_title_suffix title :
  exists t, format_book_title (title ++ py ".epub") = Ok (t ++ py ".epub").
Proof.
  unfold format_book_title. rewrite clean_title_eq. cbn [bind].
  rewrite !map_app.
  change (map to_halfwidth_bracket
            (map to_safe_symbol (map to_halfwidth (py ".epub"))))
    with (py ".epub").
  set (t3 := map to_halfwidth_bracket _).
  assert (Hw : incl (py ".epub") (py ".epub")) by apply incl_refl.
  destruct (re_sub_keeps_suffix (py ".epub") re_promotion [] _ t3 eq_refl Hw)
    as (t4 & ->).
  destruct (re_sub_keeps_suffix (py ".epub") re_label [] _ t4 eq_refl Hw)
    as (t5 & ->).
  destruct (re_sub_keeps_suffix (py ".epub") re_colon [space] _ t5 eq_refl Hw)
    as (t6 & ->).
  destruct (re_sub_keeps_suffix (py ".epub") ws_plus [space] _ t6 eq_refl Hw)
    as (t7 & ->).
  destruct (pad_numbers_keeps (fun _ => True) I (fun _ _ => I))
    with (text := t7 ++ py ".epub") as (t8 & E8 & _).
  { repeat constructor. }
  rewrite E8. cbn [bind]. rewrite pad_numbers_rules in E8.
  destruct (run_rules_keep_suffix _ _ Hw _ numbering_rules_end_outside _ _ E8)
    as (t9 & ->).
  unfold strip_before_ext.
  destruct (re_sub_keeps_suffix (py ".epub") ws_plus [space] _ t9 eq_refl Hw)
    as (t10 & ->).
  destruct (re_sub_keeps_suffix (py ".epub") re_spaces_before_ext [] _ t10
              eq_refl Hw) as (t11 & ->).
  eauto.
Qed.

(** ** The blanks of the result *)

Lemma format_book_title_strip text :
  exists y, format_book_title text = Ok (strip_simple y) /\ collapsed y = true.
Proof.
  unfold format_book_title.
  destruct (clean_title_keeps text) as (t1 & -> & _). cbn [bind].
  destruct (pad_numbers_keeps (fun _ => True) I (fun _ _ => I))
    with (text := t1) as (t2 & -> & _).
  { repeat constructor. }
  cbn [bind]. unfold strip_before_ext.
  exists (re_sub ws_plus [space] t2).
  rewrite strip_collapsed by apply collapsed_re_sub_ws.
  split; [reflexivity|apply collapsed_re_sub_ws].
Qed.

Lemma strip_simple_no_blank_before_ext : forall y,
  collapsed y = true -> blank_before_ext (strip_simple y) = false.
Proof.
  induction y as [|c y IH]; intros H; [reflexivity|].
  pose proof (collapsed_tail _ _ H) as Hy. cbn [strip_simple].
  destruct (is_space c && starts_with (py ".epub") y) eqn:E; [auto|].
  cbn [blank_before_ext]. rewrite (IH Hy), orb_false_r.
  destruct (is_space c) eqn:Hc; [|reflexivity].
  destruct (collapsed_blank _ _ H Hc) as [-> Hs]. cbn [andb] in *.
  now rewrite strip_simple_ext_start.
Qed.

Lemma no_blank_before_suffix : forall t,
  blank_before_ext (t ++ py ".epub") = false ->
  starts_with_space (rev t) = false.
Proof.
  induction t as [|c t IH]; [reflexivity|].
  cbn [app blank_before_ext]. intros H.
  apply orb_false_iff in H as [H1 H2].
  destruct t as [|d t].
  - simpl app in H1. change (starts_with (py ".epub") (py ".epub")) with true in H1.
    rewrite andb_true_r in H1. exact H1.
  - specialize (IH H2). cbn [rev] in *.
    destruct (rev t ++ [d]) as [|x l] eqn:Er; [now destruct (rev t)|].
    exact IH.
Qed.

(** ** [int] after [str] and [zfill] *)

Lemma digits_value_uint_acc : forall d acc,
  digits_value (Zpos acc) (uint_codes d) = Some (Zpos (Pos.of_uint_acc d acc)).
Proof.
  induction d; intros acc; cbn [uint_codes digits_value Pos.of_uint_acc];
    [reflexivity| | | | | | | | | |];
    match goal with
    | |- context [decimal_value ?c] =>
        let v := eval vm_compute in (decimal_value c) in
        change (decimal_value c) with v
    end; cbv iota; rewrite <- IHd; f_equal; lia.
Qed.

Lemma digits_value_uint d :
  digits_value 0 (uint_codes d) = Some (Z.of_N (Pos.of_uint d)).
Proof.
  induction d; cbn [uint_codes digits_value Pos.of_uint];
    [reflexivity| | | | | | | | | |];
    match goal with
    | |- context [decimal_value ?c] =>
        let v := eval vm_compute in (decimal_value c) in
        change (decimal_value c) with v
    end; cbv iota; [exact IHd|..];
    cbn [Z.of_N]; rewrite <- digits_value_uint_acc; reflexivity.
Qed.

Lemma py_int_py_str v : 0 <= v -> py_int (py_str v) = Ok v.
Proof.
  intros Hv. pose proof (DecimalZ.of_to v) as E. unfold py_str.
  destruct (Z.to_int v) as [d|d] eqn:Ed.
  - cbn [Z.of_int] in E. unfold Z.of_uint in E.
    unfold py_int. rewrite digits_value_uint, E.
    destruct (uint_codes d) eqn:Ec; [|reflexivity].
    destruct d; try discriminate. destruct v; discriminate.
  - destruct v; try lia; discriminate.
Qed.

Lemma digits_value_zeros s : forall k,
  digits_value 0 (repeat zero_digit k ++ s) = digits_value 0 s.
Proof. induction k; [reflexivity|exact IHk]. Qed.

Lemma py_int_zfill w s :
  s <> [] -> Forall (fun c => is_ascii_digit c = true) s ->
  py_int (zfill w s) = py_int s.
Proof.
  intros Hne H. destruct s as [|c s]; [congruence|]. unfold zfill.
  inversion H as [|? ? Hc Hs]; subst.
  destruct ((c =? cp "+") || (c =? cp "-")) eqn:E.
  - exfalso. unfold is_ascii_digit in Hc. cbn in E. crush_ranges; lia.
  - unfold py_int. rewrite digits_value_zeros.
    destruct (repeat zero_digit (w - length (c :: s)) ++ c :: s) eqn:Er;
      [now destruct (repeat _ _)|reflexivity].
Qed.

Lemma py_str_nonempty v : py_str v <> [].
Proof.
  pose proof (DecimalZ.of_to v) as H. unfold py_str.
  destruct (Z.to_int v) as [d|d] eqn:E; [|discriminate].
  destruct d; try discriminate. destruct v; discriminate.
Qed.

(** The numeral written for a captured run of digits has the value of that
    run. *)
Lemma padded_number_value_of m :
  digit_capture (m_group1 m) ->
  exists v n, py_int_group (m_group1 m) = Ok v /\ padded_number m = Ok n
              /\ py_int n = Ok v /\ is_padded_numeral n.
Proof.
  intros (ds & E & Hne & Hd). unfold padded_number. rewrite E.
  cbn [py_int_group].
  destruct (py_int_digits ds Hne Hd) as (v & Ev & Hv). rewrite Ev. cbn [bind].
  exists v, (zfill 2 (py_str v)). repeat split.
  - rewrite py_int_zfill; [now apply py_int_py_str|apply py_str_nonempty|].
    now apply py_str_digits.
  - apply zfill_length.
  - now apply zfill_digits, py_str_digits.
Qed.

(** ** The author *)

Lemma to_halfwidth_not_fullwidth c : is_fullwidth_alnum (to_halfwidth c) = false.
Proof.
  unfold to_halfwidth. destruct (is_fullwidth_alnum c) eqn:E; [|exact E].
  unfold is_fullwidth_alnum in *. crush_ranges; range_false.
Qed.

Lemma to_safe_symbol_not_fullwidth c :
  is_fullwidth_alnum c = false -> is_fullwidth_alnum (to_safe_symbol c) = false.
Proof.
  intros H. unfold to_safe_symbol. destruct (is_unsafe c) eqn:E; [|exact H].
  apply unsafe_cases in E. simpl in E.
  repeat (destruct E as [<-|E]; [reflexivity|]). contradiction.
Qed.

Lemma author_char_fixed c :
  to_safe_symbol (to_halfwidth (to_safe_symbol (to_halfwidth c)))
  = to_safe_symbol (to_halfwidth c).
Proof.
  pose proof (to_safe_symbol_not_fullwidth _ (to_halfwidth_not_fullwidth c)) as H1.
  pose proof (to_safe_symbol_safe (to_halfwidth c)) as H2.
  set (d := to_safe_symbol (to_halfwidth c)) in *.
  unfold to_halfwidth at 1. rewrite H1. unfold to_safe_symbol. now rewrite H2.
Qed.

Lemma author_char_commute c :
  to_safe_symbol (to_halfwidth c) = to_halfwidth (to_safe_symbol c).
Proof.
  destruct (is_fullwidth_alnum c) eqn:E1.
  - assert (E2 : is_unsafe c = false).
    { unfold is_unsafe. cbn. unfold is_fullwidth_alnum in E1.
      crush_ranges; range_false. }
    unfold to_safe_symbol at 2. rewrite E2.
    unfold to_halfwidth. rewrite E1.
    unfold to_safe_symbol.
    replace (is_unsafe (c - 65248)) with false; [reflexivity|].
    symmetry. unfold is_unsafe. cbn. unfold is_fullwidth_alnum in E1.
    crush_ranges; range_false.
  - unfold to_halfwidth at 1. rewrite E1.
    unfold to_halfwidth. now rewrite (to_safe_symbol_not_fullwidth c E1).
Qed.

(** ** The author's blanks in [get_epub_info] *)

Lemma author_blank_hit p c s :
  is_author_blank c = true ->
  exists m, match_at re_author_blank p (c :: s) = Some m
            /\ ms_rest (m_end m) = s.
Proof.
  unfold is_author_blank, match_at, re_author_blank.
  cbn [matches ms_rest atom_match chr1 ms_group ms_prev].
  intros H. destruct (c =? cp " ") eqn:E1; [simpl; eauto|].
  destruct (c =? cp "　") eqn:E2; [simpl; eauto|discriminate].
Qed.

Lemma author_blank_miss p c s :
  is_author_blank c = false -> match_at re_author_blank p (c :: s) = None.
Proof.
  unfold is_author_blank, match_at, re_author_blank.
  cbn [matches ms_rest atom_match chr1 ms_group ms_prev].
  intros H. apply orb_false_iff in H as [-> ->]. reflexivity.
Qed.

Lemma re_sub_author_blank : forall s,
  re_sub re_author_blank [] s = filter (fun c => negb (is_author_blank c)) s.
Proof.
  induction s as [|c s IH]; [reflexivity|]. cbn [filter].
  destruct (is_author_blank c) eqn:E; cbn [negb].
  - destruct (author_blank_hit None c s E) as (m & Hm & Hr).
    rewrite (re_sub_hit re_author_blank _ _ _ eq_refl Hm);
      [|rewrite Hr; simpl; lia].
    now rewrite Hr, IH.
  - rewrite (re_sub_miss re_author_blank _ _ _ eq_refl
               (author_blank_miss None c s E)).
    now rewrite IH.
Qed.

(** ** The image paths of [unpack] and [count_image] *)

Lemma starts_with_split w : forall s,
  starts_with w s = true -> exists t, s = w ++ t.
Proof.
  induction w as [|x w IH]; intros s H; [now exists s|].
  destruct s as [|c s]; [discriminate|]. cbn [starts_with] in H.
  apply andb_true_iff in H as [Hx Hw]. apply Z.eqb_eq in Hx. subst c.
  destruct (IH _ Hw) as (t & ->). now exists t.
Qed.

Lemma seq_nonempty r1 r2 st st1 :
  In st1 (matches r1 st) -> matches r2 st1 <> [] ->
  matches (Seq r1 r2) st <> [].
Proof.
  intros H1 H2. apply nonempty_in in H2 as (st2 & H2).
  apply nonempty_in. exists st2. apply in_matches_seq. eauto.
Qed.

Lemma public_image_sound st st' :
  In st' (matches re_public_image st) ->
  exists w, In w public_image_words /\ starts_with w (ms_rest st) = true.
Proof.
  unfold re_public_image. intros H.
  apply in_matches_seq in H as (st1 & H1 & H).
  apply in_matches_seq in H as (st2 & H2 & H).
  apply in_matches_seq in H as (st3 & H3 & _).
  apply atom_matches in H1 as (x & E1 & Hx). apply lit_matches in H2.
  cbn [matches] in H3. apply in_map_iff in H3 as (st4 & _ & H3).
  assert (Hx' : x = cp "\" \/ x = cp "/").
  { cbn in Hx. cbn. crush_ranges; lia. }
  assert (Hw : exists alt,
             In alt [py "image"; py "_image"; py " image"]
             /\ ms_rest st2 = alt ++ ms_rest st4).
  { repeat (apply in_app_or in H3 as [H3|H3]); apply word_sound in H3;
      eexists; (split; [|exact H3]); simpl; tauto. }
  destruct Hw as (alt & Halt & E3).
  exists (x :: py "public" ++ alt). split.
  - simpl in Halt.
    destruct Hx' as [-> | ->];
      destruct Halt as [<-|[<-|[<-|[]]]]; vm_compute; tauto.
  - rewrite E1, H2, E3, app_assoc.
    apply (starts_with_self (x :: py "public" ++ alt)).
Qed.

Lemma word_matches w st t :
  ms_rest st = py w ++ t -> matches (word w) st <> [].
Proof. intros E. apply lit_matches_starts. rewrite E. apply starts_with_self. Qed.

Lemma public_image_complete p x alt t :
  atom_match (ASet [one "\"; one "/"]) x = true ->
  In alt [py "image"; py "_image"; py " image"] ->
  matches re_public_image (MState p (x :: py "public" ++ alt ++ t) None) <> [].
Proof.
  intros Hx Halt. unfold re_public_image.
  eapply seq_nonempty; [cbn [matches ms_rest]; rewrite Hx; now left|].
  destruct (proj1 (nonempty_in _)
              (word_matches "public" (MState (Some x) (py "public" ++ alt ++ t) None)
                 _ eq_refl)) as (st2 & H2).
  eapply seq_nonempty; [exact H2|].
  apply lit_matches in H2. cbn [ms_rest] in H2. apply app_inv_head in H2.
  assert (Ha : matches (word "image" <|> word "_image" <|> word " image") st2
               <> []).
  { cbn [matches]. intros E. repeat (apply app_eq_nil in E as [? E]).
    destruct Halt as [<-|[<-|[<-|[]]]];
      [ eapply (word_matches "image") | eapply (word_matches "_image")
      | eapply (word_matches " image") ]; eauto. }
  apply nonempty_in in Ha as (st3 & H3).
  eapply seq_nonempty; [cbn [matches]; apply in_map; exact H3|].
  cbn [matches]. intros E. apply app_eq_nil in E as [_ E]. discriminate.
Qed.

Lemma public_image_word w :
  In w public_image_words ->
  exists x alt, w = x :: py "public" ++ alt
    /\ atom_match (ASet [one "\"; one "/"]) x = true
    /\ In alt [py "image"; py "_image"; py " image"].
Proof.
  intros Hw. simpl in Hw.
  destruct Hw as [<-|[<-|[<-|[<-|[<-|[<-|[]]]]]]];
    [ exists (cp "/"), (py "image") | exists (cp "/"), (py "_image")
    | exists (cp "/"), (py " image") | exists (cp "\"), (py "image")
    | exists (cp "\"), (py "_image") | exists (cp "\"), (py " image") ];
    repeat split; simpl; tauto.
Qed.

(** At one position the pattern matches exactly when one of its words
    starts there. *)
Lemma public_image_at p v :
  found (match_at re_public_image p v)
  = existsb (fun w => starts_with w v) public_image_words.
Proof.
  destruct (match_at re_public_image p v) as [m|] eqn:E; cbn [found].
  - apply match_at_some in E as (Hin & _).
    apply public_image_sound in Hin as (w & Hw & Hs). symmetry.
    apply existsb_exists. eauto.
  - destruct (existsb _ public_image_words) eqn:Ew; [|reflexivity].
    apply existsb_exists in Ew as (w & Hw & Hs).
    apply starts_with_split in Hs as (t & ->).
    apply public_image_word in Hw as (x & alt & -> & Hx & Halt).
    exfalso. apply (public_image_complete p x alt t Hx Halt).
    unfold match_at in E. cbn [app] in E. rewrite <- app_assoc in E.
    now destruct (matches re_public_image _).
Qed.

Lemma existsb_orb {A} (f g : A -> bool) : forall l,
  existsb (fun x => f x || g x) l = existsb f l || existsb g l.
Proof.
  induction l as [|x l IH]; [reflexivity|]. simpl. rewrite IH.
  destruct (f x), (g x), (existsb f l); reflexivity.
Qed.

Lemma public_image_search : forall s prev,
  found (option_map snd (search_from re_public_image prev s))
  = existsb (fun w => contains w s) public_image_words.
Proof.
  induction s as [|c s IH]; intros prev; cbn [search_from contains].
  - transitivity (existsb (fun w => starts_with w []) public_image_words).
    + rewrite <- (public_image_at prev []).
      now destruct (match_at re_public_image prev []).
    + induction public_image_words as [|w ws IHw]; [reflexivity|].
      cbn [existsb]. now rewrite IHw, orb_false_r.
  - rewrite existsb_orb, <- (public_image_at prev (c :: s)), <- (IH (Some c)).
    destruct (match_at re_public_image prev (c :: s)); [reflexivity|].
    cbn [found orb]. now destruct (search_from re_public_image (Some c) s).
Qed.

Lemma filter_filter {A} (f g : A -> bool) : forall l,
  filter f (filter g l) = filter (fun x => g x && f x) l.
Proof.
  induction l as [|x l IH]; [reflexivity|]. simpl.
  destruct (g x); simpl; [destruct (f x)|]; now rewrite IH.
Qed.

Lemma endswith_gif_only s :
  endswith (py ".gif") s = true ->
  endswith_any [py ".jpg"; py ".jpeg"; py ".png"] s = false.
Proof.
  unfold endswith_any, endswith. cbn [existsb].
  change (rev (py ".gif")) with [102; 105; 103; 46].
  change (rev (py ".jpg")) with [103; 112; 106; 46].
  change (rev (py ".jpeg")) with [103; 101; 112; 106; 46].
  change (rev (py ".png")) with [103; 110; 112; 46].
  destruct (rev s) as [|c l]; [discriminate|].
  rewrite !starts_with_cons. intros H. apply andb_true_iff in H as [H _].
  apply Z.eqb_eq in H. subst c. reflexivity.
Qed.

(** ** The directory names of [unpack] *)

Lemma py_split_nonempty sep s : py_split sep s <> [].
Proof.
  destruct s as [|c s]; [discriminate|]. cbn [py_split].
  destruct (c =? sep); [discriminate|].
  destruct (py_split sep s); discriminate.
Qed.

Lemma py_split_join sep : forall s, join [sep] (py_split sep s) = s.
Proof.
  induction s as [|c s IH]; [reflexivity|]. cbn [py_split].
  pose proof (py_split_nonempty sep s) as Hne.
  destruct (py_split sep s) as [|f fs]; [congruence|].
  destruct (Z.eqb_spec c sep) as [->|Hc].
  - change (join [sep] ([] :: f :: fs)) with (sep :: join [sep] (f :: fs)).
    now rewrite IH.
  - destruct fs as [|f' fs]; [simpl in *; now rewrite IH|].
    change (join [sep] ((c :: f) :: f' :: fs))
      with (c :: join [sep] (f :: f' :: fs)).
    now rewrite IH.
Qed.

Lemma py_split_fields sep : forall s,
  Forall (fun field => ~ In sep field) (py_split sep s).
Proof.
  induction s as [|c s IH]; [repeat constructor; auto|]. cbn [py_split].
  destruct (Z.eqb_spec c sep) as [->|Hc]; [constructor; auto|].
  destruct (py_split sep s) as [|f fs]; [repeat constructor; simpl; intuition congruence|].
  inversion IH; subst. constructor; [|assumption].
  simpl. intros [E|E]; [congruence|contradiction].
Qed.

(* ================================================================== *)
(** ** Properties of the title and author formatting *)

Lemma strip_simple_fixed : forall t,
  blank_before_ext t = false -> strip_simple t = t.
Proof.
  induction t as [|c t IH]; [reflexivity|]. cbn [blank_before_ext strip_simple].
  intros H. apply orb_false_iff in H as [-> H]. now rewrite IH.
Qed.





(** X4.  [format_book_author] keeps the length of the author, gives the
    same result when its two rewriters are applied in the other order, and
    is idempotent: formatting a formatted author changes nothing. *)
Theorem format_book_author_idempotent (author : str) :
  exists a, format_book_author author = Ok a
    /\ format_book_author a = Ok a
    /\ length a = length author
    /\ (x <- replace_unsafe_symbol_to_safe_symbol author ;;
        replace_fullwidth_alpha_numeral_to_halfwidth x) = Ok a.
Proof.
  exists (map to_safe_symbol (map to_halfwidth author)).
  rewrite !format_book_author_map. repeat split.
  - f_equal. rewrite !map_map. apply map_ext. intros c.
    apply author_char_fixed.
  - now rewrite !length_map.
  - rewrite replace_unsafe_map. cbn [bind].
    rewrite replace_fullwidth_alnum_map. f_equal. rewrite !map_map.
    apply map_ext. intros c. symmetry. apply author_char_commute.
Qed.

(** X5.  A title without full-width letters or digits, brackets, raw
    numbering, unsafe symbols and colons, whose blanks are single spaces
    and none of which stands before ".epub", is returned unchanged by
    [format_book_title]. *)
Theorem settled_title_unchanged (t : str) :
  Forall (fun c => is_settled_char c = true) t ->
  collapsed t = true -> blank_before_ext t = false ->
  format_book_title t = Ok t.
Proof.
  intros Hs Hc Hb. rewrite settled_format_book_title by assumption.
  now rewrite strip_simple_fixed.
Qed.

Lemma settled_title_unchanged_witness :
  format_book_title (py "[Author] The Title - 上.epub")
  = Ok (py "[Author] The Title - 上.epub").
Proof.
  apply (settled_title_unchanged (py "[Author] The Title - 上.epub")).
  - apply Forall_forall. intros c Hc. vm_compute in Hc.
    repeat (destruct Hc as [<-|Hc]; [reflexivity|]). contradiction.
  - vm_compute. reflexivity.
  - vm_compute. reflexivity.
Defined.

(** X6.  Each of the three character rewriters keeps the length of the
    text and is idempotent. *)
Theorem rewriters_idempotent (text : str) :
  Forall (fun f : str -> result str =>
            exists t, f text = Ok t /\ f t = Ok t /\ length t = length text)
    [replace_fullwidth_alpha_numeral_to_halfwidth;
     replace_unsafe_symbol_to_safe_symbol;
     replace_fullwidth_round_brackets_to_halfwidth].
Proof.
  repeat constructor.
  - exists (map to_halfwidth text). rewrite !replace_fullwidth_alnum_map.
    rewrite map_map, length_map. repeat split. f_equal. apply map_ext.
    intros c. unfold to_halfwidth at 1.
    now rewrite to_halfwidth_not_fullwidth.
  - exists (map to_safe_symbol text). rewrite !replace_unsafe_map.
    rewrite map_map, length_map. repeat split. f_equal. apply map_ext.
    intros c. unfold to_safe_symbol at 1. now rewrite to_safe_symbol_safe.
  - exists (map to_halfwidth_bracket text). rewrite !replace_round_brackets_map.
    rewrite map_map, length_map. repeat split. f_equal. apply map_ext.
    intros c. unfold to_halfwidth_bracket at 1.
    replace (is_fullwidth_round_bracket (to_halfwidth_bracket c)) with false;
      [reflexivity|].
    unfold to_halfwidth_bracket.
    destruct (is_fullwidth_round_bracket c) eqn:E; [|now rewrite E].
    unfold is_fullwidth_round_bracket in E. crush_ranges; subst; reflexivity.
Qed.

(* ================================================================== *)
(** ** Properties of [get_epub_info], [show_rename], [unpack] and
       [count_image] *)

(** X7.  [get_epub_info] raises [IndexError] exactly when the metadata has
    no title.  Otherwise the title is the first one, and the author is
    ['NotFound'] or the first creator with its spaces and ideographic
    spaces taken out and every other character kept in order; in both
    cases the author holds neither of the two. *)
Theorem epub_info_author (upper : str -> str) (titles authors genres : list str) :
  match get_epub_info upper titles authors genres with
  | Found info =>
      exists title rest,
        titles = title :: rest /\ info_title info = title
        /\ info_author info
           = match authors with
             | first :: _ => filter (fun c => negb (is_author_blank c)) first
             | [] => py "NotFound"
             end
        /\ Forall (fun c => is_author_blank c = false) (info_author info)
  | IndexError => titles = []
  end.
Proof.
  unfold get_epub_info. destruct titles as [|title rest]; [reflexivity|].
  cbn [py_item nth_error]. exists title, rest. cbn [info_title info_author].
  repeat split.
  - destruct authors as [|a l]; [reflexivity|apply re_sub_author_blank].
  - destruct authors as [|a l]; [repeat constructor|].
    rewrite re_sub_author_blank. apply Forall_forall. intros c Hc.
    apply filter_In in Hc as [_ Hc]. now apply negb_true_iff.
Qed.


(** X9.  The members that [unpack] extracts are those whose name ends with
    one of the four image extensions and holds none of the six words
    [/publicimage], [/public_image], [/public image] and the same after a
    backslash: the search of the pattern amounts to this test, and its
    final [s?] changes nothing. *)
Theorem unpack_imagepaths_words (filelist : list str) :
  unpack_imagepaths filelist
  = filter (fun filename =>
              endswith_any [py ".jpg"; py ".jpeg"; py ".png"; py ".gif"]
                           filename
              && negb (existsb (fun w => contains w filename)
                               public_image_words))
           filelist.
Proof.
  unfold unpack_imagepaths. apply filter_ext. intros f.
  unfold re_search. now rewrite public_image_search.
Qed.

(** X10.  [count_image] and [unpack] do not select the same members:
    leaving the [.gif] files aside, [unpack] extracts exactly the members
    that [count_image] counts and that are not below a public-image
    directory. *)
Theorem count_image_and_unpack (filelist : list str) :
  filter (fun f => negb (endswith (py ".gif") f)) (unpack_imagepaths filelist)
  = filter (fun f => negb (found (re_search re_public_image f)))
           (count_imagepaths filelist).
Proof.
  unfold unpack_imagepaths, count_imagepaths. rewrite !filter_filter.
  apply filter_ext. intros f.
  pose proof (endswith_gif_only f) as Hg.
  unfold endswith_any in *. cbn [existsb] in *.
  destruct (endswith (py ".gif") f).
  - rewrite (Hg eq_refl). cbn. now rewrite andb_false_r.
  - rewrite !orb_false_r, andb_true_r. reflexivity.
Qed.

(** X11.  The directory names of [unpack].  With no image to extract both
    raise [IndexError].  Otherwise the first name is the part of the first
    image path before its first slash; the second name raises [IndexError]
    when that path has no slash (the first name is then the whole path),
    and is the part between the first two slashes when it has. *)
Theorem unpack_directory_names (imagepaths : list str) :
  match imagepaths with
  | [] =>
      first_directory_name imagepaths = IndexError
      /\ second_directory_name imagepaths = IndexError
  | path :: _ =>
      exists d,
        first_directory_name imagepaths = Found d /\ ~ In (cp "/") d
        /\ match second_directory_name imagepaths with
           | Found d2 =>
               ~ In (cp "/") d2
               /\ exists rest,
                    path = d ++ cp "/" :: d2 ++ rest
                    /\ (rest = [] \/ exists rest', rest = cp "/" :: rest')
           | IndexError => d = path
           end
  end.
Proof.
  destruct imagepaths as [|path paths]; [split; reflexivity|].
  unfold first_directory_name, second_directory_name, directory_name.
  cbn [py_item nth_error].
  pose proof (py_split_join (cp "/") path) as Hj.
  pose proof (py_split_fields (cp "/") path) as Hf.
  pose proof (py_split_nonempty (cp "/") path) as Hne.
  destruct (py_split (cp "/") path) as [|d fields]; [congruence|].
  apply Forall_cons_iff in Hf as [Hd Hfs]. exists d.
  split; [reflexivity|]. split; [exact Hd|].
  destruct fields as [|d2 fields]; [exact Hj|].
  apply Forall_cons_iff in Hfs as [Hd2 _]. split; [exact Hd2|].
  rewrite <- Hj.
  destruct fields as [|d3 fields].
  - exists []. rewrite app_nil_r. split; [reflexivity|now left].
  - exists (cp "/" :: join [cp "/"] (d3 :: fields)).
    split; [reflexivity|right; eauto].
Qed.



(* ================================================================== *)
(** ** The numbering that is taken out *)

Lemma needs_atom_shorter a r : needs_atom a r -> forall st st',
  In st' (matches r st) ->
  (length (ms_rest st') < length (ms_rest st))%nat.
Proof.
  induction 1 as [| |r _ IH|r1 r2 _ IH|r1 r2 _ IH]; intros st st' H.
  - apply atom_matches in H as (x & -> & _). simpl. lia.
  - cbn [matches] in H. apply in_rev in H.
    apply run_spec in H as (pre & Hne & -> & _).
    rewrite length_app. destruct pre; [congruence|simpl; lia].
  - cbn [matches] in H. apply in_map_iff in H as (st0 & <- & H0).
    cbn [ms_rest]. eauto.
  - apply in_matches_seq in H as (st1 & H1 & H2). apply IH in H1.
    apply matches_suffix in H2 as (pre & E). rewrite E in H1.
    rewrite length_app in H1. lia.
  - apply in_matches_seq in H as (st1 & H1 & H2). apply IH in H2.
    apply matches_suffix in H1 as (pre & E). rewrite E, length_app. lia.
Qed.

Section ClassRule.

Variable a : atom.

(** The pattern matches wherever a character of the class stands. *)
Lemma class_sub_at p x v g :
  atom_match a x = true ->
  matches (ws_star ~> Atom a ~> ws_star ~> kan ~> ws_star)%re
          (MState p (x :: v) g) <> [].
Proof.
  intros Hx. apply (weaker_skip_star ASpace).
  eapply seq_nonempty; [|apply kanji_tail_matches].
  cbn [matches ms_rest]. rewrite Hx. now left.
Qed.

Lemma class_search_at p x v :
  atom_match a x = true ->
  match_at (ws_star ~> Group (Atom a) ~> ws_star ~> kan ~> ws_star)%re
           p (x :: v) <> None.
Proof.
  intros Hx E. apply match_at_none in E.
  pose proof (matches_erase
                (ws_star ~> Group (Atom a) ~> ws_star ~> kan ~> ws_star)%re
                (MState p (x :: v) None) (MState p (x :: v) None) eq_refl) as H.
  rewrite E in H. apply map_eq_nil in H. revert H. now apply class_sub_at.
Qed.

Lemma class_sub_clears tok :
  Forall (fun c => atom_match a c = false) tok ->
  forall n s, (length s <= n)%nat ->
    Forall (fun c => atom_match a c = false)
           (re_sub (ws_star ~> Atom a ~> ws_star ~> kan ~> ws_star)%re tok s).
Proof.
  intros Htok. set (r := (ws_star ~> Atom a ~> ws_star ~> kan ~> ws_star)%re).
  assert (Hr : needs_atom a r) by apply NA_seq_r, NA_seq_l, NA_atom.
  induction n as [|n IH]; intros s Hn.
  - destruct s; [|simpl in Hn; lia].
    rewrite re_sub_no_match; [constructor|].
    now apply (needs_atom_no_match a).
  - destruct s as [|c s].
    { rewrite re_sub_no_match; [constructor|].
      now apply (needs_atom_no_match a). }
    destruct (match_at r None (c :: s)) as [m|] eqn:E.
    + destruct (match_at_some _ _ _ _ E) as (Hin & _).
      apply (needs_atom_shorter a r Hr) in Hin. cbn [ms_rest] in Hin.
      rewrite (re_sub_hit r tok _ _ eq_refl E Hin).
      apply Forall_app. split; [exact Htok|]. apply IH. simpl in *. lia.
    + rewrite (re_sub_miss r tok _ _ eq_refl E). constructor.
      * destruct (atom_match a c) eqn:Hc; [|reflexivity].
        apply match_at_none in E. now apply class_sub_at in E.
      * apply IH. simpl in Hn. lia.
Qed.

Lemma class_search_none text :
  re_search (ws_star ~> Group (Atom a) ~> ws_star ~> kan ~> ws_star)%re text
  = None ->
  Forall (fun c => atom_match a c = false) text.
Proof.
  intros E. apply Forall_forall. intros x Hx.
  destruct (atom_match a x) eqn:Ha; [|reflexivity].
  apply in_split in Hx as (u & v & ->). unfold re_search in E.
  destruct (search_from _ None (u ++ x :: v)) eqn:Es; [discriminate|].
  eapply search_from_none in Es; [|reflexivity].
  now apply class_search_at in Es.
Qed.

End ClassRule.

Lemma digit_not_kanji c :
  is_ascii_digit c = true -> atom_match kanji_class c = false.
Proof.
  intros H. destruct (atom_match kanji_class c) eqn:E; [|reflexivity].
  cbn in E. rewrite !in_range_one in E. unfold is_ascii_digit in H.
  crush_ranges; subst; try discriminate; lia.
Qed.

Lemma pad_kanji_number_clears text :
  Forall (fun c => atom_match kanji_class c = false) (pad_kanji_number text).
Proof.
  unfold pad_kanji_number.
  destruct (re_search re_kanji_search text) as [m|] eqn:E.
  - apply (class_sub_clears kanji_class) with (n := length text); [|lia].
    apply (kanji_number_keeps (fun c => atom_match kanji_class c = false)).
    + reflexivity.
    + exact digit_not_kanji.
    + repeat constructor.
  - now apply class_search_none.
Qed.

Lemma symbol_block_above lo hi off c :
  In (lo, hi, off) symbol_blocks -> c <= 57 ->
  atom_match (ASet [rng lo hi]) c = false.
Proof.
  intros Hin Hc. simpl in Hin.
  repeat (destruct Hin as [Hin|Hin];
          [injection Hin as <- <- <-; cbn; rewrite orb_false_r; range_false|]).
  contradiction.
Qed.

Lemma pad_symbol_number_clears lo hi off text :
  In (lo, hi, off) symbol_blocks ->
  exists t, pad_symbol_number lo hi off text = Ok t
    /\ Forall (fun c => atom_match (ASet [rng lo hi]) c = false) t.
Proof.
  intros Hin. unfold pad_symbol_number.
  destruct (re_search (re_symbol_search lo hi) text) as [m|] eqn:E.
  - pose proof (one_char_capture _ _ _ E) as Hc.
    destruct (symbol_number_ok _ _ _ _ _ Hin Hc) as (d & -> & Hd).
    cbn [bind]. eexists. split; [reflexivity|].
    apply (class_sub_clears (ASet [rng lo hi])) with (n := length text); [|lia].
    unfold is_ascii_digit in Hd. crush_ranges.
    repeat constructor; apply (symbol_block_above _ _ _ _ Hin);
      unfold space, zero_digit; lia.
  - eexists. split; [reflexivity|]. now apply class_search_none.
Qed.

(** One symbol block: what held of every character still does, and no
    character of the block is left. *)
Lemma symbol_step (Q : Z -> Prop) lo hi off text :
  In (lo, hi, off) symbol_blocks ->
  Q space -> (forall c, is_ascii_digit c = true -> Q c) ->
  Forall Q text ->
  exists t, pad_symbol_number lo hi off text = Ok t
    /\ Forall (fun c => Q c /\ atom_match (ASet [rng lo hi]) c = false) t.
Proof.
  intros Hin Qs Qd H.
  destruct (pad_symbol_number_keeps Q Qs Qd lo hi off text Hin) as (t & E & Hk).
  destruct (pad_symbol_number_clears lo hi off text Hin) as (t' & E' & Hc).
  rewrite E in E'. injection E' as <-. exists t. split; [exact E|].
  apply Forall_and; auto.
Qed.

Lemma no_numbering_classes c :
  atom_match kanji_class c = false ->
  atom_match (ASet [rng "①" "⑨"]) c = false ->
  atom_match (ASet [rng "⑴" "⑼"]) c = false ->
  atom_match (ASet [rng "⒈" "⒐"]) c = false ->
  atom_match (ASet [rng "⓵" "⓽"]) c = false ->
  is_kanji_numeral c = false /\ is_symbol_number c = false.
Proof.
  intros Hk H1 H2 H3 H4. split.
  - destruct (is_kanji_numeral c) eqn:E; [|reflexivity].
    unfold is_kanji_numeral in E. apply existsb_exists in E as (k & Hin & Hc).
    apply Z.eqb_eq in Hc. subst k. vm_compute in Hin.
    repeat (destruct Hin as [<-|Hin]; [discriminate Hk|]). contradiction.
  - unfold is_symbol_number. cbn [existsb symbol_blocks].
    cbn [atom_match existsb fst snd rng] in H1, H2, H3, H4.
    rewrite orb_false_r in H1, H2, H3, H4.
    now rewrite H1, H2, H3, H4.
Qed.


(* ================================================================== *)
(** ** The first match of a greedy pattern *)

Lemma leads_seq r1 r2 s s1 s2 g g1 g2 :
  leads r1 s s1 g g1 -> leads r2 s1 s2 g1 g2 -> leads (Seq r1 r2) s s2 g g2.
Proof.
  intros H1 H2 p. destruct (H1 p) as (x1 & l1 & E1 & <- & <-).
  destruct x1 as [p1 s1 g1]. destruct (H2 p1) as (x2 & l2 & E2 & Hs & Hg).
  cbn [ms_rest ms_group] in E2.
  exists x2. eexists. cbn [matches]. rewrite E1. cbn [flat_map].
  rewrite E2. split; [reflexivity|auto].
Qed.

Lemma leads_atom a c s g :
  atom_match a c = true -> leads (Atom a) (c :: s) s g g.
Proof.
  intros Hc p. cbn [matches ms_rest ms_group]. rewrite Hc. eauto.
Qed.

Lemma skip_while_app a s : starts_in a s = false -> forall w,
  Forall (fun c => atom_match a c = true) w -> skip_while a (w ++ s) = s.
Proof.
  intros Hs. induction w as [|c w IH]; intros Hw.
  - destruct s as [|d s]; [reflexivity|]. simpl in *. now rewrite Hs.
  - inversion Hw as [|? ? Hc Hw']; subst. simpl. rewrite Hc. auto.
Qed.

Lemma leads_plus a w s g :
  w <> [] -> Forall (fun c => atom_match a c = true) w ->
  starts_in a s = false -> leads (Plus a) (w ++ s) s g g.
Proof.
  intros Hne Hw Hs p. destruct w as [|c w]; [congruence|].
  inversion Hw as [|? ? Hc Hw']; subst. cbn [matches ms_rest ms_group app].
  destruct (run_longest a g (w ++ s) c Hc) as (x & l & E & Hx).
  exists x, l. split; [exact E|].
  rewrite skip_while_app in Hx by assumption. split; [exact Hx|].
  assert (Hin : In x (run a (c :: w ++ s) g))
    by (apply in_rev; rewrite E; now left).
  now apply run_spec in Hin as (_ & _ & _ & _ & Hg & _).
Qed.

Lemma leads_star a w s g :
  Forall (fun c => atom_match a c = true) w ->
  starts_in a s = false -> leads (Star a) (w ++ s) s g g.
Proof.
  intros Hw Hs p. destruct w as [|c w].
  - cbn [matches ms_rest ms_group app].
    replace (run a s g) with (@nil mstate); [simpl; eauto|].
    destruct s as [|d s]; [reflexivity|]. simpl in *. now rewrite Hs.
  - destruct (leads_plus a (c :: w) s g) with (p := p)
      as (x & l & E & Hx & Hg); [discriminate|assumption..|].
    cbn [matches ms_rest ms_group] in *.
    change (rev (?h :: ?t)) with (rev t ++ [h]). rewrite E.
    exists x. eexists. split; [reflexivity|auto].
Qed.

Lemma leads_group r ds s g g' :
  leads r (ds ++ s) s g g' -> leads (Group r) (ds ++ s) s g (Some ds).
Proof.
  intros H p. destruct (H p) as (x & l & E & Hs & _).
  cbn [matches]. rewrite E. cbn [map]. eexists _, _.
  split; [reflexivity|]. cbn [ms_rest ms_group]. split; [exact Hs|].
  f_equal. apply consumed_app. cbn [ms_rest]. now rewrite Hs.
Qed.

Lemma leads_match_at r s s' g' p :
  leads r s s' None g' ->
  exists m, match_at r p s = Some m /\ ms_rest (m_end m) = s'
            /\ m_group1 m = g'.
Proof.
  intros H. destruct (H p) as (x & l & E & Hs & Hg).
  unfold match_at. rewrite E. eexists. split; [reflexivity|]. auto.
Qed.

(** ** Where a pattern cannot match *)

Lemma search_from_skip r s : forall pre prev,
  (forall u1 u2, pre = u1 ++ u2 -> u2 <> [] ->
     match_at r (prev_after prev u1) (u2 ++ s) = None) ->
  search_from r prev (pre ++ s)
  = option_map (fun f => (pre ++ fst f, snd f))
               (search_from r (prev_after prev pre) s).
Proof.
  induction pre as [|c pre IH]; intros prev H.
  - simpl. destruct (search_from r prev s) as [[b m]|]; reflexivity.
  - assert (H0 : match_at r prev (c :: pre ++ s) = None)
      by (apply (H [] (c :: pre) eq_refl); discriminate).
    cbn [app search_from]. rewrite H0, IH.
    + cbn [prev_after fold_left].
      destruct (search_from r _ s) as [[b m]|]; reflexivity.
    + intros u1 u2 E Hne. apply (H (c :: u1) u2); [now rewrite E|exact Hne].
Qed.

Lemma render_str_skip_all r tok s : forall pre prev,
  (forall u1 u2, pre = u1 ++ u2 -> u2 <> [] ->
     match_at r (prev_after prev u1) (u2 ++ s) = None) ->
  render_str tok (pieces_at r prev (pre ++ s))
  = pre ++ render_str tok (pieces_at r (prev_after prev pre) s).
Proof.
  induction pre as [|c pre IH]; intros prev H; [reflexivity|].
  assert (H0 : match_at r prev (c :: pre ++ s) = None)
    by (apply (H [] (c :: pre) eq_refl); discriminate).
  cbn [app]. rewrite (pieces_at_miss _ _ _ _ H0).
  rewrite render_str_keep_cons, IH; [reflexivity|].
  intros u1 u2 E Hne. apply (H (c :: u1) u2); [now rewrite E|exact Hne].
Qed.

(** What a pattern must read first. *)
Lemma first_atom a st st' :
  In st' (matches (Atom a) st) -> starts_in a (ms_rest st) = true.
Proof. intros H. apply atom_matches in H as (x & -> & Hx). exact Hx. Qed.

Lemma first_plus a st st' :
  In st' (matches (Plus a) st) -> starts_in a (ms_rest st) = true.
Proof.
  cbn [matches]. intros H. apply in_rev in H.
  apply run_spec in H as (pre & Hne & -> & Hall & _).
  destruct pre as [|c pre]; [congruence|]. now inversion Hall.
Qed.

Lemma first_group r a :
  (forall st st', In st' (matches r st) -> starts_in a (ms_rest st) = true) ->
  forall st st', In st' (matches (Group r) st) ->
                 starts_in a (ms_rest st) = true.
Proof.
  intros H st st' Hin. cbn [matches] in Hin.
  apply in_map_iff in Hin as (st0 & _ & H0). eauto.
Qed.

Lemma star_spec a st st' :
  In st' (matches (Star a) st) ->
  exists pre, ms_rest st = pre ++ ms_rest st'
              /\ Forall (fun c => atom_match a c = true) pre.
Proof.
  cbn [matches]. intros H. apply in_rev in H.
  destruct H as [<-|H]; [now exists []|].
  apply run_spec in H as (pre & _ & E & Hall & _). eauto.
Qed.

Lemma plus_spec a st st' :
  In st' (matches (Plus a) st) ->
  exists pre, ms_rest st = pre ++ ms_rest st' /\ pre <> []
              /\ Forall (fun c => atom_match a c = true) pre.
Proof.
  cbn [matches]. intros H. apply in_rev in H.
  apply run_spec in H as (pre & Hne & E & Hall & _). eauto.
Qed.

(** A pattern that reads blanks and then a character of a class fails
    where the first character after the blanks is of another kind. *)
Section BlanksThenClass.

Variables (a : atom) (first R : regex).
Hypothesis first_reads : forall st st',
  In st' (matches first st) -> starts_in a (ms_rest st) = true.
Hypothesis no_blank : forall c, atom_match a c = true -> is_space c = false.

Lemma blanks_class_no_match p s :
  starts_in a (skip_while ASpace s) = false ->
  match_at (ws_star ~> first ~> R)%re p s = None.
Proof.
  intros H. apply match_at_none.
  destruct (matches _ _) as [|x l] eqn:E; [reflexivity|]. exfalso.
  assert (Hin : In x (matches (ws_star ~> first ~> R)%re (MState p s None)))
    by (rewrite E; now left).
  apply in_matches_seq in Hin as (st1 & H1 & H2).
  apply in_matches_seq in H2 as (st2 & H2 & _).
  apply first_reads in H2. apply star_spec in H1 as (pre & Es & Hpre).
  cbn [ms_rest] in Es. subst s.
  destruct (ms_rest st1) as [|c q]; [discriminate|]. cbn [starts_in] in H2.
  rewrite (skip_while_app ASpace (c :: q)) in H; [|now apply no_blank|exact Hpre].
  cbn [starts_in] in H. congruence.
Qed.

Lemma before_class_no_match s : forall u2 p,
  u2 <> [] -> Forall (fun c => atom_match a c = false) u2 ->
  starts_with_space (rev u2) = false ->
  match_at (ws_star ~> first ~> R)%re p (u2 ++ s) = None.
Proof.
  intros u2 p Hne Hu Hend. apply blanks_class_no_match. clear p.
  induction u2 as [|c u2 IH]; [congruence|].
  inversion Hu as [|? ? Hc Hu']; subst. cbn [app skip_while atom_match].
  destruct (is_space c) eqn:Es.
  - assert (Hne' : u2 <> []).
    { intros ->. simpl in Hend. congruence. }
    apply IH; [exact Hne'|exact Hu'|].
    cbn [rev] in Hend. destruct (rev u2) as [|d l] eqn:Er; [|exact Hend].
    apply (f_equal (@rev Z)) in Er. rewrite rev_involutive in Er. contradiction.
  - cbn [starts_in]. exact Hc.
Qed.

End BlanksThenClass.

Lemma rev_suffix_blank (u1 u2 : str) :
  u2 <> [] -> starts_with_space (rev (u1 ++ u2)) = starts_with_space (rev u2).
Proof.
  intros Hne. rewrite rev_app_distr. destruct (rev u2) as [|d l] eqn:Er.
  - apply (f_equal (@rev Z)) in Er. rewrite rev_involutive in Er. contradiction.
  - reflexivity.
Qed.

Lemma space_cases c :
  is_space c = true ->
  In c [0x09; 0x0A; 0x0B; 0x0C; 0x0D; 0x1C; 0x1D; 0x1E; 0x1F; 0x20; 0x85;
        0xA0; 0x1680; 0x2000; 0x2001; 0x2002; 0x2003; 0x2004; 0x2005;
        0x2006; 0x2007; 0x2008; 0x2009; 0x200A; 0x2028; 0x2029; 0x202F;
        0x205F; 0x3000].
Proof. unfold is_space. intros H. crush_ranges; simpl; lia. Qed.

Lemma space_not_digit c : is_space c = true -> is_digit c = false.
Proof.
  intros H. apply space_cases in H. simpl in H.
  repeat (destruct H as [<-|H]; [vm_compute; reflexivity|]). contradiction.
Qed.


Lemma leads_lit w t g : leads (lit w) (w ++ t) t g g.
Proof.
  induction w as [|c w IH]; [intros p; simpl; eauto|].
  cbn [lit app]. eapply leads_seq; [|exact IH].
  apply leads_atom. simpl. apply Z.eqb_refl.
Qed.

Lemma leads_ahead r s s' g g' : leads r s s' g g' -> leads (Ahead r) s s g g.
Proof.
  intros H p. destruct (H p) as (x & l & E & _). cbn [matches]. rewrite E.
  eauto.
Qed.

Lemma leads_opt_behind a s g : leads (Opt (Behind a)) s s g g.
Proof.
  intros p. cbn [matches ms_prev].
  destruct p as [c|]; [destruct (atom_match a c)|]; simpl; eauto.
Qed.

Lemma leads_opt_some a c s g :
  atom_match a c = true -> leads (Opt (Atom a)) (c :: s) s g g.
Proof. intros Hc p. cbn [matches ms_rest ms_group]. rewrite Hc. simpl. eauto. Qed.

Lemma leads_opt_none a s g :
  starts_in a s = false -> leads (Opt (Atom a)) s s g g.
Proof.
  intros Hs p. cbn [matches ms_rest ms_group].
  destruct s as [|c s]; [simpl; eauto|]. cbn [starts_in] in Hs. rewrite Hs.
  simpl. eauto.
Qed.

Lemma search_from_here r p s m :
  match_at r p s = Some m -> search_from r p s = Some ([], m).
Proof. intros E. destruct s; cbn [search_from]; now rewrite E. Qed.

Lemma unique_occurrence (c : Z) (x y x' y' : str) :
  x ++ c :: y = x' ++ c :: y' -> ~ In c x -> ~ In c y -> x = x' /\ y = y'.
Proof.
  revert x'. induction x as [|d x IH]; intros [|d' x'] E Hx Hy; simpl in E.
  - now injection E as ->.
  - injection E as <- ->. elim Hy. apply in_or_app. right. now left.
  - injection E as -> _. elim Hx. now left.
  - injection E as <- E. destruct (IH x' E) as [-> ->]; auto.
    intros H. apply Hx. now right.
Qed.

(** ** One bracketed number *)

Lemma bracket_not_blank c : atom_match (chr1 "(") c = true -> is_space c = false.
Proof. simpl. intros H. apply Z.eqb_eq in H. now subst c. Qed.

Lemma plain_no_bracket (t : str) :
  Forall (fun c => c <> cp "(") t ->
  Forall (fun c => atom_match (chr1 "(") c = false) t.
Proof.
  intros H. eapply Forall_impl; [|exact H]. intros c Hc. simpl.
  now apply Z.eqb_neq.
Qed.

Lemma digit_not_blank c : is_digit c = true -> is_space c = false.
Proof.
  intros H. destruct (is_space c) eqn:E; [|reflexivity].
  apply space_not_digit in E. congruence.
Qed.

Lemma digits_then t ds :
  ds <> [] -> Forall (fun c => is_digit c = true) ds ->
  starts_in ASpace (ds ++ t) = false.
Proof.
  intros Hne H. destruct ds as [|d ds']; [congruence|]. inversion H; subst.
  now apply digit_not_blank.
Qed.

Lemma blanks_then (a : atom) w c t :
  Forall (fun c => is_space c = true) w ->
  (forall x, is_space x = true -> atom_match a x = false) ->
  atom_match a c = false ->
  starts_in a (w ++ c :: t) = false.
Proof.
  intros Hw Ha Hc. destruct w as [|x w]; [exact Hc|].
  inversion Hw; subst. now apply Ha.
Qed.

Section BracketedNumber.

Variables (u w0 w1 ds w2 : str).
Hypothesis blank0 : Forall (fun c => is_space c = true) w0.
Hypothesis blank1 : Forall (fun c => is_space c = true) w1.
Hypothesis blank2 : Forall (fun c => is_space c = true) w2.
Hypothesis digits : Forall (fun c => is_digit c = true) ds.
Hypothesis some_digit : ds <> [].
Hypothesis u_plain : Forall (fun c => c <> cp "(") u.
Hypothesis u_end : starts_with_space (rev u) = false.

Lemma brackets_inner_leads (tail : regex) (t s' : str) (g : option str) :
  leads tail (cp ")" :: t) s' (Some ds) g ->
  leads (ws_star ~> Atom (chr1 "(") ~> ws_star ~> Group (Plus ADigit)
         ~> ws_star ~> tail)%re
        (w0 ++ cp "(" :: w1 ++ ds ++ w2 ++ cp ")" :: t) s' None g.
Proof.
  intros Htail.
  eapply leads_seq; [apply leads_star; [exact blank0|reflexivity]|].
  eapply leads_seq; [apply leads_atom; reflexivity|].
  eapply leads_seq;
    [apply leads_star; [exact blank1|now apply digits_then]|].
  eapply leads_seq;
    [eapply leads_group; apply leads_plus;
       [exact some_digit|exact digits|]|].
  { apply blanks_then; [exact blank2|exact space_not_digit|reflexivity]. }
  eapply leads_seq; [apply leads_star; [exact blank2|reflexivity]|].
  exact Htail.
Qed.

Lemma brackets_plain_leads (tail : regex) (t s' : str) :
  leads tail (cp ")" :: t) s' None None ->
  leads (ws_star ~> Atom (chr1 "(") ~> ws_star ~> Plus ADigit
         ~> ws_star ~> tail)%re
        (w0 ++ cp "(" :: w1 ++ ds ++ w2 ++ cp ")" :: t) s' None None.
Proof.
  intros Htail.
  eapply leads_seq; [apply leads_star; [exact blank0|reflexivity]|].
  eapply leads_seq; [apply leads_atom; reflexivity|].
  eapply leads_seq;
    [apply leads_star; [exact blank1|now apply digits_then]|].
  eapply leads_seq;
    [apply leads_plus; [exact some_digit|exact digits|]|].
  { apply blanks_then; [exact blank2|exact space_not_digit|reflexivity]. }
  eapply leads_seq; [apply leads_star; [exact blank2|reflexivity]|].
  exact Htail.
Qed.

Lemma before_u_no_match R p u1 u2 t :
  u = u1 ++ u2 -> u2 <> [] ->
  match_at (ws_star ~> Atom (chr1 "(") ~> R)%re p (u2 ++ t) = None.
Proof.
  intros E Hne.
  apply (before_class_no_match (chr1 "(") (Atom (chr1 "(")) R
           (first_atom _) bracket_not_blank); [exact Hne| |].
  - apply plain_no_bracket. rewrite E in u_plain.
    now apply Forall_app in u_plain as [_ H].
  - rewrite <- (rev_suffix_blank u1 u2 Hne), <- E. exact u_end.
Qed.

(** The search of a rule finds the number, *)
Lemma bracketed_search (tail : regex) (t s' : str) g :
  leads tail (cp ")" :: t) s' (Some ds) g ->
  exists m,
    re_search (ws_star ~> Atom (chr1 "(") ~> ws_star ~> Group (Plus ADigit)
               ~> ws_star ~> tail)%re
      (u ++ w0 ++ cp "(" :: w1 ++ ds ++ w2 ++ cp ")" :: t) = Some m
    /\ m_group1 m = g.
Proof.
  intros Htail. unfold re_search. rewrite search_from_skip.
  - destruct (leads_match_at _ _ _ _ (prev_after None u)
                (brackets_inner_leads _ _ _ _ Htail)) as (m & Em & _ & Hg).
    exists m. split; [|exact Hg]. now rewrite (search_from_here _ _ _ _ Em).
  - intros u1 u2 E Hu2. now apply (before_u_no_match _ _ u1).
Qed.

(** and the substitution replaces it, where [rest] is what the match
    leaves. *)
Lemma bracketed_sub (tail : regex) (t rest : str) tok :
  no_behind tail = true ->
  leads tail (cp ")" :: t) rest None None ->
  (length rest <= length t)%nat ->
  Forall (fun c => c <> cp "(") rest ->
  re_sub (ws_star ~> Atom (chr1 "(") ~> ws_star ~> Plus ADigit
          ~> ws_star ~> tail)%re tok
    (u ++ w0 ++ cp "(" :: w1 ++ ds ++ w2 ++ cp ")" :: t)
  = u ++ tok ++ rest.
Proof.
  intros Hb Htail Hlen Hrest. unfold re_sub.
  rewrite pieces_is_pieces_at, render_str_skip_all.
  - f_equal. rewrite (render_str_hit _ tok _ _ rest).
    + f_equal. apply re_sub_no_match.
      apply (needs_atom_no_match (chr1 "("));
        [apply NA_seq_r, NA_seq_l, NA_atom|now apply plain_no_bracket].
    + cbn [no_behind]. now rewrite Hb.
    + destruct (leads_match_at _ _ _ _ (prev_after None u)
                  (brackets_plain_leads _ _ _ Htail)) as (m & Em & Hr & _).
      eauto.
    + repeat first [rewrite length_app | progress cbn [length]]. lia.
  - intros u1 u2 E Hu2. now apply (before_u_no_match _ _ u1).
Qed.

End BracketedNumber.

Lemma padded_digits_plain n :
  0 <= n -> Forall (fun c => c <> cp "(") (zfill 2 (py_str n)).
Proof.
  intros Hn. eapply Forall_impl; [|apply zfill_digits, py_str_digits, Hn].
  intros c Hc ->. discriminate.
Qed.

(** What a match of the first pattern reads. *)
Lemma brackets_spaced_shape st st' :
  In st' (matches re_brackets_spaced st) ->
  exists a inner e,
    ms_rest st = a ++ cp "(" :: inner ++ cp ")" :: e ++ ms_rest st'
    /\ Forall (fun c => is_space c = true) a
    /\ Forall (fun c => is_space c = true \/ is_digit c = true) inner
    /\ e <> [] /\ Forall (fun c => is_space c = true) e.
Proof.
  unfold re_brackets_spaced. intros H.
  apply in_matches_seq in H as (s1 & H1 & H).
  apply in_matches_seq in H as (s2 & H2 & H).
  apply in_matches_seq in H as (s3 & H3 & H).
  apply in_matches_seq in H as (s4 & H4 & H).
  apply in_matches_seq in H as (s5 & H5 & H).
  apply in_matches_seq in H as (s6 & H6 & H7).
  apply star_spec in H1 as (a & E1 & Ha).
  apply atom_matches in H2 as (x & E2 & Hx).
  apply star_spec in H3 as (b & E3 & Hb).
  cbn [matches] in H4. apply in_map_iff in H4 as (s4' & <- & H4).
  fold (matches (Plus ADigit) s3) in H4.
  apply plus_spec in H4 as (c & E4 & _ & Hc). cbn [ms_rest] in *.
  apply star_spec in H5 as (d & E5 & Hd). cbn [ms_rest] in E5.
  apply atom_matches in H6 as (y & E6 & Hy).
  apply plus_spec in H7 as (e & E7 & Hne & He).
  simpl in Hx, Hy. apply Z.eqb_eq in Hx, Hy. subst x y.
  exists a, (b ++ c ++ d), e.
  rewrite E1, E2, E3, E4, E5, E6, E7, <- !app_assoc. repeat split; auto.
  repeat (apply Forall_app; split);
    (eapply Forall_impl; [|eassumption]); simpl; auto.
Qed.

Lemma blank_not_bracket c : is_space c = true -> c <> cp "(" /\ c <> cp ")".
Proof. intros H. split; intros ->; discriminate. Qed.

Lemma digit_not_bracket c : is_digit c = true -> c <> cp "(" /\ c <> cp ")".
Proof. intros H. split; intros ->; discriminate. Qed.



Lemma leads_blanks_ext (tail : regex) w v s' g :
  Forall (fun c => is_space c = true) w ->
  leads tail (py ".epub" ++ v) s' g g ->
  leads (ws_star ~> tail)%re (w ++ py ".epub" ++ v) s' g g.
Proof.
  intros Hw Ht.
  apply leads_seq with (s1 := py ".epub" ++ v) (g1 := g); [|exact Ht].
  apply leads_star; [exact Hw|reflexivity].
Qed.

Lemma leads_ext v g : leads ext (py ".epub" ++ v) v g g.
Proof. apply (leads_lit (py ".epub")). Qed.

Lemma leads_ahead_ext v g : leads (Ahead ext) (py ".epub" ++ v) (py ".epub" ++ v) g g.
Proof. apply leads_ahead with (s' := v) (g' := g), leads_ext. Qed.



(** ** One number before the extension *)

Lemma number_search_no_match p c t :
  is_digit c = false -> match_at re_number_before_ext p (c :: t) = None.
Proof.
  intros Hc. apply match_at_none.
  destruct (matches re_number_before_ext _) as [|x l] eqn:E; [reflexivity|].
  exfalso.
  assert (Hne : matches re_number_before_ext (MState p (c :: t) None) <> [])
    by (rewrite E; discriminate).
  apply weaker_drop_behind, nonempty_in in Hne as (st' & Hin).
  apply in_matches_seq in Hin as (st1 & H1 & _).
  apply (first_group _ ADigit (first_plus ADigit)) in H1.
  cbn [ms_rest starts_in atom_match] in H1. congruence.
Qed.

Lemma leads_kan k t g :
  k = [] \/ k = py "巻" -> starts_in (chr1 "巻") t = false ->
  leads kan (k ++ t) t g g.
Proof.
  intros [-> | ->] Ht.
  - now apply leads_opt_none.
  - apply (leads_opt_some (chr1 "巻") (cp "巻")). reflexivity.
Qed.

Lemma blank_not_kan c : is_space c = true -> atom_match (chr1 "巻") c = false.
Proof.
  intros H. simpl. destruct (Z.eqb_spec c (cp "巻")) as [->|]; [|reflexivity].
  discriminate.
Qed.

Section NumberBeforeExt.

Variables (u w0 ds k w v : str).
Hypothesis u_plain : Forall (fun c => is_digit c = false) u.
Hypothesis v_plain : Forall (fun c => is_digit c = false) v.
Hypothesis u_end : starts_with_space (rev u) = false.
Hypothesis blank0 : Forall (fun c => is_space c = true) w0.
Hypothesis blank : Forall (fun c => is_space c = true) w.
Hypothesis digits : Forall (fun c => is_digit c = true) ds.
Hypothesis some_digit : ds <> [].
Hypothesis volume : k = [] \/ k = py "巻".

Lemma after_digits : starts_in ADigit (k ++ w ++ py ".epub" ++ v) = false.
Proof.
  destruct volume as [-> | ->]; [|reflexivity].
  apply (blanks_then ADigit w (cp ".")); [exact blank|exact space_not_digit|].
  reflexivity.
Qed.

Lemma leads_volume (tail : regex) s' g :
  leads tail (py ".epub" ++ v) s' g g ->
  leads (kan ~> ws_star ~> tail)%re (k ++ w ++ py ".epub" ++ v) s' g g.
Proof.
  intros Ht.
  apply leads_seq with (s1 := w ++ py ".epub" ++ v) (g1 := g);
    [|now apply leads_blanks_ext].
  apply leads_kan; [exact volume|].
  apply (blanks_then (chr1 "巻") w (cp ".")); [exact blank|exact blank_not_kan|].
  reflexivity.
Qed.

Lemma number_search :
  exists m,
    re_search re_number_before_ext (u ++ w0 ++ ds ++ k ++ w ++ py ".epub" ++ v)
    = Some m
    /\ m_group1 m = Some ds.
Proof.
  unfold re_search. rewrite (app_assoc u w0), search_from_skip.
  - assert (H : leads re_number_before_ext
                  (ds ++ k ++ w ++ py ".epub" ++ v)
                  (k ++ w ++ py ".epub" ++ v) None (Some ds)).
    { eapply leads_seq; [apply leads_opt_behind|].
      eapply leads_seq;
        [eapply leads_group; apply leads_plus;
           [exact some_digit|exact digits|exact after_digits]|].
      apply leads_ahead with (s' := v) (g' := Some ds).
      apply leads_volume, leads_ext. }
    destruct (leads_match_at _ _ _ _ (prev_after None (u ++ w0)) H)
      as (m & Em & _ & Hg).
    exists m. split; [|exact Hg]. now rewrite (search_from_here _ _ _ _ Em).
  - intros u1 u2 E Hne. destruct u2 as [|c u2]; [congruence|].
    apply number_search_no_match.
    assert (Hin : In c (u ++ w0))
      by (rewrite E; apply in_or_app; right; now left).
    apply in_app_or in Hin as [Hin|Hin].
    + rewrite Forall_forall in u_plain. now apply u_plain.
    + rewrite Forall_forall in blank0. now apply space_not_digit, blank0.
Qed.

Lemma number_sub tok :
  re_sub re_number_before_ext_sub tok
    (u ++ w0 ++ ds ++ k ++ w ++ py ".epub" ++ v)
  = u ++ tok ++ py ".epub" ++ v.
Proof.
  unfold re_sub. rewrite pieces_is_pieces_at, render_str_skip_all.
  - f_equal.
    rewrite (render_str_hit re_number_before_ext_sub tok _ _
               (py ".epub" ++ v) eq_refl).
    + f_equal. apply re_sub_no_match.
      apply (needs_atom_no_match ADigit); [apply NA_seq_r, NA_seq_l, NA_plus|].
      apply Forall_app. split; [repeat constructor|exact v_plain].
    + assert (H : leads re_number_before_ext_sub
                    (w0 ++ ds ++ k ++ w ++ py ".epub" ++ v)
                    (py ".epub" ++ v) None None).
      { eapply leads_seq;
          [apply leads_star; [exact blank0|now apply digits_then]|].
        eapply leads_seq;
          [apply leads_plus; [exact some_digit|exact digits|exact after_digits]|].
        apply leads_volume, leads_ahead_ext. }
      destruct (leads_match_at _ _ _ _ (prev_after None u) H)
        as (m & Em & Hr & _).
      eauto.
    + destruct ds; [congruence|].
      repeat first [rewrite length_app | progress cbn [length]]. lia.
  - intros u1 u2 E Hne.
    apply (before_class_no_match ADigit (Plus ADigit) _ (first_plus ADigit)
             digit_not_blank); [exact Hne| |].
    + rewrite E in u_plain. now apply Forall_app in u_plain as [_ H].
    + rewrite <- (rev_suffix_blank u1 u2 Hne), <- E. exact u_end.
Qed.

End NumberBeforeExt.


